(** * The document-detection pipeline of [smart-scanner.js]

    A shallow embedding of the computer-vision core of class
    [SmartDocumentScanner] (grayscale, blur, Sobel, flood-fill contours,
    convex hull, quadrilateral fit, validation, rectification, tone
    enhancement) and the properties its specification states about it.

    Conventions of the embedding.
    - A JavaScript Number is a binary64 float ([PrimFloat.float]) wherever the
      source computes with fractions or accumulates: weights such as [0.299],
      divisions, square roots, thresholds, the shoelace sum of the area and
      the bilinear blend of the rectifier.  Differences and dot products of
      the cosine and the comparisons of pixel coordinates are computed in
      [Z]; they are exact in binary64 below 2^53.
    - The real value of a finite Number is [F2Q]; the canvas interface, which
      converts its arguments to integers, is given that value.
    - A [Uint8ClampedArray] is a [list Z] of bytes; reading outside it gives
      [undefined] (NaN in arithmetic), writing outside it is ignored, and a
      stored Number goes through [ToUint8Clamp].
    - [Math.acos] and [Math.atan2] are implementation-approximated library
      functions: the pipeline takes them as parameters. *)

From Stdlib Require Import ZArith QArith Qround Qabs Qpower Lia Lqa Floats.
From stdpp Require Import base list list_numbers sorting.

Set Warnings "-inexact-float".
Local Open Scope Z_scope.

(** ** JavaScript numbers and typed arrays *)

Module JS.

(** Conversion of an integer to a Number; exact below 2^53. *)
Fixpoint of_pos (p : positive) : float :=
  match p with
  | xH => 1%float
  | xO q => (2 * of_pos q)%float
  | xI q => (2 * of_pos q + 1)%float
  end.

Definition of_Z (z : Z) : float :=
  match z with
  | Z0 => 0%float
  | Zpos p => of_pos p
  | Zneg p => (- of_pos p)%float
  end.

(** The value of a binary64 as a rational: 0 for the two zeros, and for NaN
    and the infinities, which [finite] tells apart from the numbers. *)
Definition SF2Q (f : spec_float) : Q :=
  match f with
  | S754_finite s m e =>
    ((if s then inject_Z (Zneg m) else inject_Z (Zpos m)) * 2 ^ e)%Q
  | _ => 0%Q
  end.

Definition SFfinite (f : spec_float) : bool :=
  match f with
  | S754_zero _ | S754_finite _ _ _ => true
  | _ => false
  end.

Definition SFsign (f : spec_float) : bool :=
  match f with
  | S754_zero s | S754_infinity s | S754_finite s _ _ => s
  | S754_nan => false
  end.

Definition F2Q (x : float) : Q := SF2Q (Prim2SF x).
Definition finite (x : float) : bool := SFfinite (Prim2SF x).
Definition signbit (x : float) : bool := SFsign (Prim2SF x).

(** [Math.round]: the integer nearest to [v], the upper one on a tie; NaN
    and the infinities, which [Math.round] returns unchanged and which pass
    no index test, are [None]. *)
Definition Math_round (v : float) : option Z :=
  if finite v then Some (Qfloor (F2Q v + (1 # 2))) else None.

(** [Math.max] and [Math.min] of two Numbers: NaN if either is NaN. *)
Definition Math_max (a b : float) : float :=
  if is_nan a || is_nan b then nan else if (a <? b)%float then b else a.

Definition Math_min (a b : float) : float :=
  if is_nan a || is_nan b then nan else if (b <? a)%float then b else a.

(** The largest integer of 0..255 that is at most [v] (0 when there is
    none), found bit by bit: the floor of [v] clamped to a byte. *)
Definition floor_byte (v : float) : Z :=
  foldl (fun acc b => if (of_Z (acc + b) <=? v)%float then acc + b else acc)
        0 [128; 64; 32; 16; 8; 4; 2; 1].

(** ECMAScript's ToUint8Clamp, the conversion applied to a Number stored in
    a [Uint8ClampedArray]: NaN becomes 0, the value is clamped to 0..255 and
    rounded to the nearest integer, ties to even. *)
Definition ToUint8Clamp (v : float) : Z :=
  if is_nan v then 0
  else
    let f := floor_byte v in
    if f =? 255 then 255
    else if (of_Z f + 0.5 <? v)%float then f + 1
    else if (v <? of_Z f + 0.5)%float then f
    else if Z.even f then f else f + 1.

(** [a[i]] as an operand of arithmetic: [undefined] converts to NaN. *)
Definition aget {A} (a : list A) (i : Z) : option A :=
  if i <? 0 then None else a !! Z.to_nat i.

Definition read (a : list Z) (i : Z) : float :=
  match aget a i with Some v => of_Z v | None => nan end.

(** [a[i] = v] on a typed array: ignored outside the array. *)
Definition aset {A} (a : list A) (i : Z) (v : A) : list A :=
  if i <? 0 then a else <[Z.to_nat i := v]> a.

(** [for (let i = lo; i < hi; i += step)]: the values [i] takes. *)
Definition range (lo hi step : Z) : list Z :=
  (fun k => lo + step * k) <$> seqZ 0 ((hi - lo + step - 1) / step).

Definition for_ {S} (r : list Z) (body : Z -> S -> S) (s : S) : S :=
  foldl (fun s i => body i s) s r.

End JS.
Import JS.

(** ** Stages 1-3: grayscale, Gaussian blur, Sobel edges *)

Record ImageData := mkImageData { width : Z; height : Z; data : list Z }.

(** Line 158: [data[i] * 0.299 + data[i + 1] * 0.587 + data[i + 2] * 0.114]. *)
Definition luminance (data : list Z) (i : Z) : float :=
  (read data i * 0.299 + read data (i + 1) * 0.587 + read data (i + 2) * 0.114)%float.

Definition convertToGrayscale (imageData : ImageData) : list Z :=
  let data := imageData.(data) in
  let grayData := replicate (Z.to_nat (imageData.(width) * imageData.(height))) 0 in
  for_ (range 0 (Z.of_nat (length data)) 4) (fun i grayData =>
    let gray := luminance data i in
    aset grayData (i / 4) (ToUint8Clamp gray)) grayData.

(** The two innermost loops shared by [gaussianBlur] and [sobelEdgeDetection]:
    [acc += data[(y + ky) * width + (x + kx)] * kernel[kernelIndex++]]. *)
Definition convolve3 (kernel data : list Z) (width x y : Z) : float :=
  fst (for_ (range (-1) 2 1) (fun ky st =>
         for_ (range (-1) 2 1) (fun kx '(acc, kernelIndex) =>
           let pixelIndex := (y + ky) * width + (x + kx) in
           ((acc + read data pixelIndex * read kernel kernelIndex)%float,
            kernelIndex + 1)) st)
       (0%float, 0)).

Definition kernel : list Z := [1; 2; 1; 2; 4; 2; 1; 2; 1].
Definition kernelSum : float := 16%float.

Definition blurAt (data : list Z) (width x y : Z) : Z :=
  let sum := convolve3 kernel data width x y in
  ToUint8Clamp (sum / kernelSum)%float.

Definition gaussianBlur (data : list Z) (width height : Z) : list Z :=
  let result := replicate (length data) 0 in
  for_ (range 1 (height - 1) 1) (fun y result =>
    for_ (range 1 (width - 1) 1) (fun x result =>
      aset result (y * width + x) (blurAt data width x y)) result) result.

Definition sobelX : list Z := [-1; 0; 1; -2; 0; 2; -1; 0; 1].
Definition sobelY : list Z := [-1; -2; -1; 0; 0; 0; 1; 2; 1].

Definition sobelAt (data : list Z) (width x y : Z) : Z :=
  let gx := convolve3 sobelX data width x y in
  let gy := convolve3 sobelY data width x y in
  let magnitude := PrimFloat.sqrt (gx * gx + gy * gy)%float in
  if (50 <? magnitude)%float then 255 else 0.

Definition sobelEdgeDetection (data : list Z) (width height : Z) : list Z :=
  let edges := replicate (length data) 0 in
  for_ (range 1 (height - 1) 1) (fun y edges =>
    for_ (range 1 (width - 1) 1) (fun x edges =>
      aset edges (y * width + x) (sobelAt data width x y)) edges) edges.

(** A frame of one colour. *)
Definition constantFrame (w h r g b a : Z) : ImageData :=
  mkImageData w h (mjoin (replicate (Z.to_nat (w * h)) [r; g; b; a])).


(** ** Stage 4: contour tracing *)

Record Point := mkPoint { px : Z; py : Z }.

#[global] Instance Point_eq_dec : EqDecision Point.
Proof. solve_decision. Defined.

(** The eight [stack.push({ x: x + dx, y: y + dy })] of lines 268-273; the
    stack is a list whose head is its top. *)
Definition pushNeighbours (x y : Z) (stack : list Point) : list Point :=
  for_ (range (-1) 2 1) (fun dy stack =>
    for_ (range (-1) 2 1) (fun dx stack =>
      if (dx =? 0) && (dy =? 0) then stack
      else mkPoint (x + dx) (y + dy) :: stack) stack) stack.

(** The guard of line 260. *)
Definition skipPixel (edges : list Z) (visited : list bool)
    (width height x y : Z) : bool :=
  let index := y * width + x in
  (x <? 0) || (width <=? x) || (y <? 0) || (height <=? y)
  || default false (aget visited index)
  || match aget edges index with Some v => v =? 0 | None => false end.

(** The [while] loop of [traceContour] on the state (stack, contour,
    visited), run for at most [fuel] iterations. *)
Fixpoint traceLoop (fuel : nat) (edges : list Z) (width height : Z)
    (stack contour : list Point) (visited : list bool)
    : list Point * list Point * list bool :=
  match fuel with
  | O => (stack, contour, visited)
  | S fuel =>
    match stack with
    | [] => (stack, contour, visited)
    | p :: stack' =>
      if (length contour <? 1000)%nat then
        let x := px p in
        let y := py p in
        let index := y * width + x in
        if skipPixel edges visited width height x y then
          traceLoop fuel edges width height stack' contour visited
        else
          traceLoop fuel edges width height
            (pushNeighbours x y stack') (contour ++ [p])
            (aset visited index true)
      else (stack, contour, visited)
    end
  end.

(** Every iteration lowers [length stack + 8 * (1000 - length contour)], so
    this many iterations are enough for the loop to leave by its own test. *)
Definition traceFuel (stack contour : list Point) : nat :=
  S (length stack + 8 * (1000 - length contour)).

Arguments traceFuel : simpl never.

(** [traceContour] returns the contour; the array [visited] it mutates is
    returned with it. *)
Definition traceContour (edges : list Z) (width height startX startY : Z)
    (visited : list bool) : list Point * list bool :=
  let stack := [mkPoint startX startY] in
  let r := traceLoop (traceFuel stack []) edges width height stack [] visited in
  (r.1.2, r.2).

(** ** Stages 5-6: convex hull and quadrilateral fit *)

(** [array.reduce(f)] without an initial value; it throws on an empty array. *)
Definition reduce1 {A} (f : A -> A -> A) (l : list A) : option A :=
  match l with
  | [] => None
  | a :: l => Some (foldl f a l)
  end.

(** [array.sort(cmp)]: the stable sort of a consistent comparator. *)
Fixpoint insertBy {A} (cmp : A -> A -> float) (x : A) (l : list A) : list A :=
  match l with
  | [] => [x]
  | y :: l' => if (0 <? cmp x y)%float then y :: insertBy cmp x l' else x :: l
  end.

Definition sortBy {A} (cmp : A -> A -> float) (l : list A) : list A :=
  foldr (insertBy cmp) [] l.

Definition crossProduct (o a b : Point) : Z :=
  (px a - px o) * (py b - py o) - (py a - py o) * (px b - px o).

Definition lowest (min p : Point) : Point :=
  if (py min <? py p) || ((py p =? py min) && (px p <? px min)) then p else min.

(** The inner [while] of the Graham scan; the hull is kept with its last
    point first. *)
Fixpoint popNonLeft (hull : list Point) (point : Point) : list Point :=
  match hull with
  | a :: rest =>
    match rest with
    | o :: _ =>
      if crossProduct o a point <=? 0 then popNonLeft rest point else hull
    | [] => hull
    end
  | [] => hull
  end.

Definition topLeftOf (min p : Point) : Point :=
  if px p + py p <? px min + py min then p else min.
Definition topRightOf (max p : Point) : Point :=
  if px max - py max <? px p - py p then p else max.
Definition bottomRightOf (max p : Point) : Point :=
  if px max + py max <? px p + py p then p else max.
Definition bottomLeftOf (min p : Point) : Point :=
  if px p - py p <? px min - py min then p else min.

Definition approximateToQuadrilateral (hull : list Point) : list Point :=
  if (length hull <=? 4)%nat then hull
  else
    match hull with
    | [] => hull
    | p :: rest =>
      let topLeft := foldl topLeftOf p rest in
      let topRight := foldl topRightOf p rest in
      let bottomRight := foldl bottomRightOf p rest in
      let bottomLeft := foldl bottomLeftOf p rest in
      [topLeft; topRight; bottomRight; bottomLeft]
    end.

(** ** Stage 7: area and angles *)

(** The variable [area] of [calculatePolygonArea] after its loop: each
    product is added to, or subtracted from, the running binary64 sum. *)
Definition shoelaceSum (points : list Point) : float :=
  let n := Z.of_nat (length points) in
  for_ (range 0 n 1) (fun i area =>
    let j := (i + 1) mod n in
    match aget points i, aget points j with
    | Some pi, Some pj =>
      let area := (area + of_Z (px pi) * of_Z (py pj))%float in
      (area - of_Z (px pj) * of_Z (py pi))%float
    | _, _ => area
    end) 0%float.

Definition calculatePolygonArea (points : list Point) : float :=
  if (length points <? 3)%nat then 0%float
  else (abs (shoelaceSum points) / 2)%float.

Definition Math_PI : float := 0x1.921fb54442d18p+1%float.

(** [dot / (mag1 * mag2)] of line 370. *)
Definition cosine (p1 p2 p3 : Point) : float :=
  let v1x := px p1 - px p2 in
  let v1y := py p1 - py p2 in
  let v2x := px p3 - px p2 in
  let v2y := py p3 - py p2 in
  let dot := v1x * v2x + v1y * v2y in
  let mag1 := PrimFloat.sqrt (of_Z (v1x * v1x + v1y * v1y)) in
  let mag2 := PrimFloat.sqrt (of_Z (v2x * v2x + v2y * v2y)) in
  (of_Z dot / (mag1 * mag2))%float.

(** The argument [Math.max(-1, Math.min(1, cos))] handed to [Math.acos]. *)
Definition acosArgument (p1 p2 p3 : Point) : float :=
  Math_max (-1) (Math_min 1 (cosine p1 p2 p3)).

Section Detection.

Variable Math_atan2 : float -> float -> float.
Variable Math_acos : float -> float.

Definition polarAngle (start a : Point) : float :=
  Math_atan2 (of_Z (py a - py start)) (of_Z (px a - px start)).

(** [p !== start] compares references; the points of a traced contour have
    pairwise distinct coordinates, so it is modelled by inequality. *)
Definition convexHull (points : list Point) : list Point :=
  if (length points <? 3)%nat then points
  else
    match reduce1 lowest points with
    | None => points
    | Some start =>
      let sorted :=
        sortBy (fun a b => (polarAngle start a - polarAngle start b)%float)
               (filter (fun p => p <> start) points) in
      let hull :=
        foldl (fun hull point => point :: popNonLeft hull point) [start] sorted in
      rev hull
    end.

Definition findRectangleCorners (contour : list Point) : option (list Point) :=
  if (length contour <? 4)%nat then None
  else
    let hull := convexHull contour in
    if (length hull <? 4)%nat then None
    else Some (approximateToQuadrilateral hull).

Definition calculateAngle (p1 p2 p3 : Point) : float :=
  (Math_acos (acosArgument p1 p2 p3) * 180 / Math_PI)%float.

(** [Math.abs(angle - 90) < 30]. *)
Definition angleOk (angle : float) : bool :=
  (abs (angle - 90) <? 30)%float.

Definition cornerAngles (corners : list Point) : list float :=
  rev (for_ (range 0 4 1) (fun i angles =>
    match aget corners i, aget corners ((i + 1) mod 4),
          aget corners ((i + 2) mod 4) with
    | Some p1, Some p2, Some p3 => calculateAngle p1 p2 p3 :: angles
    | _, _, _ => angles
    end) []).

Definition isValidRectangle (corners : list Point) : bool :=
  if negb (length corners =? 4)%nat then false
  else forallb angleOk (cornerAngles corners).

(** ** Stage 8: candidate selection *)

(** The test of line 237 on a candidate of four corners. *)
Definition acceptsCandidate (width height : Z) (corners : list Point) : bool :=
  let minArea := (of_Z (width * height) * 0.1)%float in
  let maxArea := (of_Z (width * height) * 0.8)%float in
  let area := calculatePolygonArea corners in
  (minArea <? area)%float && (area <? maxArea)%float && isValidRectangle corners.

(** The state of the seed scan.  [traced] is not in the source: it logs the
    contours returned by [traceContour], in order, so that properties of a
    whole pass can be stated. *)
Record Scan := mkScan {
  visited : list bool;
  rectangles : list (list Point);
  traced : list (list Point)
}.

Definition scanSeed (edges : list Z) (width height x y : Z) (s : Scan) : Scan :=
  let index := y * width + x in
  if match aget edges index with Some v => 0 <? v | None => false end
     && negb (default false (aget s.(visited) index))
  then
    let '(contour, visited') :=
      traceContour edges width height x y s.(visited) in
    let rectangles' :=
      if (50 <? length contour)%nat then
        match findRectangleCorners contour with
        | Some corners =>
          if (length corners =? 4)%nat
             && acceptsCandidate width height corners
          then s.(rectangles) ++ [corners]
          else s.(rectangles)
        | None => s.(rectangles)
        end
      else s.(rectangles) in
    mkScan visited' rectangles' (s.(traced) ++ [contour])
  else s.

Definition scanSeeds (edges : list Z) (width height : Z) : Scan :=
  let visited := replicate (Z.to_nat (width * height)) false in
  for_ (range 10 (height - 10) 5) (fun y s =>
    for_ (range 10 (width - 10) 5) (fun x s =>
      scanSeed edges width height x y s) s)
    (mkScan visited [] []).

Definition findDocumentRectangles (edges : list Z) (width height : Z)
    : list (list Point) :=
  let s := scanSeeds edges width height in
  sortBy (fun a b => (calculatePolygonArea b - calculatePolygonArea a)%float)
         s.(rectangles).

Definition detectDocumentEdges (imageData : ImageData) : option (list Point) :=
  let w := imageData.(width) in
  let h := imageData.(height) in
  let grayData := convertToGrayscale imageData in
  let blurredData := gaussianBlur grayData w h in
  let edges := sobelEdgeDetection blurredData w h in
  let rectangles := findDocumentRectangles edges w h in
  head rectangles.

End Detection.

(** ** Reference implementations of the two library functions

    Used to run the pipeline on concrete frames. *)
Module MathRef.

Definition pi : float := Math_PI.

(** Arctangent on [0, 1]: two half-angle reductions, then the series. *)
Definition atan_series (t : float) : float :=
  let t2 := (t * t)%float in
  fst (foldl (fun '(acc, pw) k =>
                ((acc + pw / of_Z (2 * k + 1))%float, (- pw * t2)%float))
             (0%float, t) (seqZ 0 14)).

Definition half_angle (t : float) : float :=
  (t / (1 + PrimFloat.sqrt (1 + t * t)))%float.

Definition atan_unit (t : float) : float :=
  (4 * atan_series (half_angle (half_angle t)))%float.

Definition atan (t : float) : float :=
  let a := abs t in
  let r := if (1 <? a)%float then (pi / 2 - atan_unit (1 / a))%float
           else atan_unit a in
  if (t <? 0)%float then (- r)%float else r.

Definition atan2 (y x : float) : float :=
  if is_nan x || is_nan y then nan
  else if (0 <? x)%float then atan (y / x)
  else if (x <? 0)%float then
    if (y <? 0)%float then (atan (y / x) - pi)%float
    else (atan (y / x) + pi)%float
  else if (0 <? y)%float then (pi / 2)%float
  else if (y <? 0)%float then (- (pi / 2))%float
  else 0%float.

Definition acos (c : float) : float :=
  if is_nan c || (1 <? c)%float || (c <? -1)%float then nan
  else atan2 (PrimFloat.sqrt ((1 - c) * (1 + c))) c.

End MathRef.

(** ** Stages 9-10: rectification and tone enhancement

    The bilinear blend of lines 498-510 and the crop rectangle of lines
    547-552 are computed in binary64, as the source computes them.  The
    canvas interface converts the Numbers it receives to integers: its
    functions below take the real value of their arguments. *)

(** A canvas element with its 2D context: dimensions and RGBA bitmap. *)
Record Canvas := mkCanvas { cwidth : Z; cheight : Z; bitmap : list Z }.

(** Conversion of a Number to the integer type of a canvas dimension or of an
    [ImageData] size: the fraction is dropped. *)
Definition toLong (q : Q) : Z :=
  if Qle_bool 0 q then Qfloor q else Qceiling q.

(** [document.createElement('canvas')] followed by the assignments of
    [width] and [height]: a transparent black bitmap. *)
Definition createCanvas (w h : Q) : Canvas :=
  let w := toLong w in
  let h := toLong h in
  mkCanvas w h (replicate (Z.to_nat (4 * w * h)) 0).

(** [ctx.createImageData(sw, sh)]; an empty size is an IndexSizeError. *)
Definition createImageData (sw sh : Q) : option ImageData :=
  let w := toLong sw in
  let h := toLong sh in
  if (w <=? 0) || (h <=? 0) then None
  else Some (mkImageData w h (replicate (Z.to_nat (4 * w * h)) 0)).

(** [ctx.getImageData(0, 0, sw, sh)]: the pixels of the canvas in that
    rectangle, transparent black outside the canvas; an empty size is an
    IndexSizeError. *)
Definition getImageData (c : Canvas) (sw sh : Q) : option ImageData :=
  let w := toLong sw in
  let h := toLong sh in
  if (w <=? 0) || (h <=? 0) then None
  else
    Some (mkImageData w h
      (mjoin ((fun i =>
         let x := i mod w in
         let y := i / w in
         (fun k =>
            if (x <? cwidth c) && (y <? cheight c)
            then default 0 (aget (bitmap c) ((y * cwidth c + x) * 4 + k))
            else 0) <$> seqZ 0 4) <$> seqZ 0 (w * h)))).

(** [ctx.putImageData(imageData, 0, 0)]: the pixels of [imageData] that fall
    on the canvas replace those of the bitmap. *)
Definition putImageData (c : Canvas) (imageData : ImageData) : Canvas :=
  mkCanvas (cwidth c) (cheight c)
    (imap (fun i old =>
       let i := Z.of_nat i in
       let x := (i / 4) mod cwidth c in
       let y := (i / 4) / cwidth c in
       if (x <? width imageData) && (y <? height imageData)
       then default old
              (aget (data imageData) ((y * width imageData + x) * 4 + i mod 4))
       else old) (bitmap c)).

(** Line 582 for one channel:
    [Math.min(255, Math.max(0, (data[i] - 128) * contrast + 128 + brightness))]
    stored back into the clamped array. *)
Definition enhanceChannel (contrast brightness : float) (data : list Z) (i : Z) : Z :=
  ToUint8Clamp
    (Math_min 255 (Math_max 0 ((read data i - 128) * contrast + 128 + brightness)))%float.

(** The loop of [enhanceDocument], with its two constants as parameters. *)
Definition enhanceData (contrast brightness : float) (data : list Z) : list Z :=
  for_ (range 0 (Z.of_nat (length data)) 4) (fun i data =>
    let data := aset data i (enhanceChannel contrast brightness data i) in
    let data := aset data (i + 1) (enhanceChannel contrast brightness data (i + 1)) in
    let data := aset data (i + 2) (enhanceChannel contrast brightness data (i + 2)) in
    data) data.

Definition contrast : float := 1.3%float.
Definition brightness : float := 15%float.

Definition enhanceDocument (ctx : Canvas) (width height : Q) : option Canvas :=
  match getImageData ctx width height with
  | None => None
  | Some (mkImageData w h data) =>
    let data := enhanceData contrast brightness data in
    Some (putImageData ctx (mkImageData w h data))
  end.

Definition sortCornersForPerspective (corners : list Point) : option (list Point) :=
  match corners with
  | [] => None
  | p :: rest =>
    let topLeft := foldl topLeftOf p rest in
    let bottomRight := foldl bottomRightOf p rest in
    let topRight := foldl topRightOf p rest in
    let bottomLeft := foldl bottomLeftOf p rest in
    Some [topLeft; topRight; bottomRight; bottomLeft]
  end.

(** One coordinate of the bilinear interpolation of lines 498-510, with the
    grouping and the order of evaluation of the source. *)
Definition bilinear (c0 c1 c2 c3 u v : float) : float :=
  (c0 * (1 - u) * (1 - v) + c1 * u * (1 - v) + c2 * u * v
   + c3 * (1 - u) * v)%float.

(** Lines 494-510: the source pixel a destination pixel is mapped to; [None]
    when a rounded coordinate is not a number. *)
Definition sourceCoordinate (c0 c1 c2 c3 : Point) (destWidth : Z)
    (destHeight : float) (x y : Z) : option (Z * Z) :=
  let u := (of_Z x / of_Z destWidth)%float in
  let v := (of_Z y / destHeight)%float in
  let sourceX := Math_round
    (bilinear (of_Z (px c0)) (of_Z (px c1)) (of_Z (px c2)) (of_Z (px c3)) u v) in
  let sourceY := Math_round
    (bilinear (of_Z (py c0)) (of_Z (py c1)) (of_Z (py c2)) (of_Z (py c3)) u v) in
  match sourceX, sourceY with
  | Some sourceX, Some sourceY => Some (sourceX, sourceY)
  | _, _ => None
  end.

(** The two loops of [applyPerspectiveCorrection] on the destination data.
    The rows are the integers below [destHeight], a finite Number whenever the
    loops are reached: [createImageData] has thrown otherwise. *)
Definition resampleQuad (canvas : Canvas) (sourceData : list Z)
    (c0 c1 c2 c3 : Point) (destWidth : Z) (destHeight : float)
    (destData : list Z) : list Z :=
  for_ (range 0 (Qceiling (F2Q destHeight)) 1) (fun y destData =>
    for_ (range 0 destWidth 1) (fun x destData =>
      match sourceCoordinate c0 c1 c2 c3 destWidth destHeight x y with
      | Some (sourceX, sourceY) =>
        if (0 <=? sourceX) && (sourceX <? cwidth canvas)
           && (0 <=? sourceY) && (sourceY <? cheight canvas)
        then
          let sourceIndex := (sourceY * cwidth canvas + sourceX) * 4 in
          let destIndex := (y * destWidth + x) * 4 in
          let destData := aset destData destIndex
                            (default 0 (aget sourceData sourceIndex)) in
          let destData := aset destData (destIndex + 1)
                            (default 0 (aget sourceData (sourceIndex + 1))) in
          let destData := aset destData (destIndex + 2)
                            (default 0 (aget sourceData (sourceIndex + 2))) in
          aset destData (destIndex + 3) 255
        else destData
      | None => destData
      end) destData) destData.

Definition applyPerspectiveCorrection (canvas : Canvas) (corners : list Point)
    (destCtx : Canvas) (destWidth : Z) (destHeight : float) : option Canvas :=
  match getImageData canvas (inject_Z (cwidth canvas)) (inject_Z (cheight canvas)),
        createImageData (inject_Z destWidth) (F2Q destHeight),
        sortCornersForPerspective corners with
  | Some sourceImageData, Some destImageData, Some [c0; c1; c2; c3] =>
    let destData :=
      resampleQuad canvas sourceImageData.(data) c0 c1 c2 c3
                   destWidth destHeight destImageData.(data) in
    let destCtx :=
      putImageData destCtx
        (mkImageData destImageData.(width) destImageData.(height) destData) in
    enhanceDocument destCtx (inject_Z destWidth) (F2Q destHeight)
  | _, _, _ => None
  end.

Definition aspectRatio : float := (210 / 297)%float.
Definition outputWidth : Z := 800.
Definition outputHeight : float := (of_Z outputWidth / aspectRatio)%float.

(** The result is the output canvas; its JPEG encoding by [toDataURL] is left
    to the platform. *)
Definition cropAndCorrectDocument (canvas : Canvas) (corners : list Point)
    : option Canvas :=
  let outputCanvas := createCanvas (inject_Z outputWidth) (F2Q outputHeight) in
  applyPerspectiveCorrection canvas corners outputCanvas outputWidth outputHeight.

Section Capture.

(** The platform's scaling filter behind [drawImage]: the value it paints
    into channel [k] of destination pixel [(x, y)]. *)
Variable resample : Canvas -> Q -> Q -> Q -> Q -> Q -> Q -> Z -> Z -> Z -> Z.

(** [ctx.drawImage(image, sx, sy, sw, sh, 0, 0, dw, dh)]; an image without
    pixels is an InvalidStateError. *)
Definition drawImage (ctx image : Canvas) (sx sy sw sh dw dh : Q) : option Canvas :=
  if (cwidth image <=? 0) || (cheight image <=? 0) then None
  else
    Some (mkCanvas (cwidth ctx) (cheight ctx)
      (imap (fun i old =>
         let i := Z.of_nat i in
         let x := (i / 4) mod cwidth ctx in
         let y := (i / 4) / cwidth ctx in
         if Qle_bool (inject_Z x + 1) dw && Qle_bool (inject_Z y + 1) dh
         then resample image sx sy sw sh dw dh x y (i mod 4)
         else old) (bitmap ctx))).

Definition smartCrop (canvas : Canvas) : option Canvas :=
  let margin := 0.1%float in
  let cropWidth := (of_Z (cwidth canvas) * (1 - 2 * margin))%float in
  let cropHeight :=
    Math_min (cropWidth / aspectRatio)%float
             (of_Z (cheight canvas) * (1 - 2 * margin))%float in
  let finalWidth := (cropHeight * aspectRatio)%float in
  let startX := ((of_Z (cwidth canvas) - finalWidth) / 2)%float in
  let startY := ((of_Z (cheight canvas) - cropHeight) / 2)%float in
  let croppedCanvas := createCanvas 800%Q (F2Q (800 / aspectRatio)) in
  match drawImage croppedCanvas canvas (F2Q startX) (F2Q startY)
          (F2Q finalWidth) (F2Q cropHeight)
          (inject_Z (cwidth croppedCanvas)) (inject_Z (cheight croppedCanvas)) with
  | None => None
  | Some croppedCtx =>
    enhanceDocument croppedCtx
      (inject_Z (cwidth croppedCanvas)) (inject_Z (cheight croppedCanvas))
  end.

(** The branch of [captureDocument] on [this.lastDetectedCorners]. *)
Definition rectify (canvas : Canvas) (lastDetectedCorners : option (list Point))
    : option Canvas :=
  match lastDetectedCorners with
  | Some corners => cropAndCorrectDocument canvas corners
  | None => smartCrop canvas
  end.

End Capture.

(** ** The capture filters of [DocumentScanner]

    app.js, lines 122-180; the second class of smart-scanner.js has the same
    four functions at lines 901-959. *)

Definition applyGrayscale (data : list Z) : list Z :=
  for_ (range 0 (Z.of_nat (length data)) 4) (fun i data =>
    let gray := luminance data i in
    let data := aset data i (ToUint8Clamp gray) in
    let data := aset data (i + 1) (ToUint8Clamp gray) in
    let data := aset data (i + 2) (ToUint8Clamp gray) in
    data) data.

(** [gray > threshold ? 255 : 0]; both values are stored as they are. *)
Definition blackWhite (gray : float) : Z :=
  let threshold := 128%float in
  if (threshold <? gray)%float then 255 else 0.

Definition applyBlackWhite (data : list Z) : list Z :=
  for_ (range 0 (Z.of_nat (length data)) 4) (fun i data =>
    let gray := luminance data i in
    let bw := blackWhite gray in
    let data := aset data i bw in
    let data := aset data (i + 1) bw in
    let data := aset data (i + 2) bw in
    data) data.

(** [Math.max(0, Math.min(255, ((gray - 128) * contrast) + 128 + brightness))]
    with the constants 1.5 and 10 of [applyEnhancement]. *)
Definition enhanced (gray : float) : float :=
  let contrast := 1.5%float in
  let brightness := 10%float in
  Math_max 0 (Math_min 255 ((gray - 128) * contrast + 128 + brightness))%float.

Definition applyEnhancement (data : list Z) : list Z :=
  for_ (range 0 (Z.of_nat (length data)) 4) (fun i data =>
    let gray := luminance data i in
    let enhanced := enhanced gray in
    let data := aset data i (ToUint8Clamp enhanced) in
    let data := aset data (i + 1) (ToUint8Clamp enhanced) in
    let data := aset data (i + 2) (ToUint8Clamp enhanced) in
    data) data.

(** The values of [currentFilter] that the [switch] of [applyFilter] tells
    apart; [Original] stands for every value that takes the default branch. *)
Inductive Filter := Original | Grayscale | BlackWhite | Enhance.

(** The [switch] of [applyFilter] on the data of the frame. *)
Definition filterData (currentFilter : Filter) (data : list Z) : list Z :=
  match currentFilter with
  | Grayscale => applyGrayscale data
  | BlackWhite => applyBlackWhite data
  | Enhance => applyEnhancement data
  | Original => data
  end.

Definition applyFilter (currentFilter : Filter) (ctx : Canvas) (width height : Z)
    : option Canvas :=
  match getImageData ctx (inject_Z width) (inject_Z height) with
  | None => None
  | Some (mkImageData w h data) =>
    Some (putImageData ctx (mkImageData w h (filterData currentFilter data)))
  end.

(** ** The detector of [DocumentScanner]

    smart-scanner.js, lines 1082-1277.  Its [convertToGrayscale],
    [gaussianBlur] and [cannyEdgeDetection] compute what the three stages
    above compute (the kernels are written as 3 x 3 arrays and read in the
    same order), so the definitions above stand for them. *)

Module DocumentScanner.

(** What a call that may throw yields. *)
Inductive Outcome (A : Type) := Returned (a : A) | Thrown.
Arguments Returned {A} a.
Arguments Thrown {A}.

(** [edges[i] > 0]. *)
Definition isEdge (edges : list Z) (i : Z) : bool :=
  match aget edges i with Some v => 0 <? v | None => false end.

Definition isCornerPoint (edges : list Z) (width height x y : Z) : bool :=
  let radius := 3 in
  let edgeCount :=
    for_ (range (- radius) (radius + 1) 1) (fun dy edgeCount =>
      for_ (range (- radius) (radius + 1) 1) (fun dx edgeCount =>
        let nx := x + dx in
        let ny := y + dy in
        if (0 <=? nx) && (nx <? width) && (0 <=? ny) && (ny <? height) then
          if isEdge edges (ny * width + nx) then edgeCount + 1 else edgeCount
        else edgeCount) edgeCount) 0 in
  3 <=? edgeCount.

(** [array.sort(cmp)] for a comparator with integer results. *)
Fixpoint insertByZ {A} (cmp : A -> A -> Z) (x : A) (l : list A) : list A :=
  match l with
  | [] => [x]
  | y :: l' => if 0 <? cmp x y then y :: insertByZ cmp x l' else x :: l
  end.

Definition sortByZ {A} (cmp : A -> A -> Z) (l : list A) : list A :=
  foldr (insertByZ cmp) [] l.

(** The comparator [(a, b) => a.y - b.y || a.x - b.x]. *)
Definition byRow (a b : Point) : Z :=
  if py a - py b =? 0 then px a - px b else py a - py b.

(** [corners[corners.length / 2]] is [undefined] when the length is odd, and
    the first call of the callback of [find] throws on reading its [y]. *)
Definition findBestRectangle (corners : list Point)
    : Outcome (option (list Point)) :=
  if (length corners <? 4)%nat then Returned None
  else
    let corners := sortByZ byRow corners in
    let n := length corners in
    match corners !! 0%nat, corners !! 1%nat,
          corners !! (n - 1)%nat, corners !! (n - 2)%nat with
    | Some topLeft, Some second, Some bottomRight, Some secondLast =>
      if Nat.odd n then Thrown
      else
        match corners !! (n / 2)%nat with
        | Some middle =>
          let topRight :=
            default second
              (find (fun c => (py c <? py middle) && (px topLeft <? px c))
                    corners) in
          let bottomLeft :=
            default secondLast
              (find (fun c => (py middle <? py c) && (px c <? px bottomRight))
                    corners) in
          Returned (Some [topLeft; topRight; bottomRight; bottomLeft])
        | None => Thrown
        end
    | _, _, _, _ => Thrown
    end.

(** The corner candidates that [findRectangleAt] collects around
    [(startX, startY)]. *)
Definition cornerCandidates (edges : list Z) (width height startX startY : Z)
    : list Point :=
  let searchRadius := 50 in
  for_ (range (Z.max 0 (startY - searchRadius))
              (Z.min height (startY + searchRadius)) 1) (fun y corners =>
    for_ (range (Z.max 0 (startX - searchRadius))
                (Z.min width (startX + searchRadius)) 1) (fun x corners =>
      if isEdge edges (y * width + x) then
        if isCornerPoint edges width height x y then corners ++ [mkPoint x y]
        else corners
      else corners) corners) [].

Definition findRectangleAt (edges : list Z) (width height startX startY : Z)
    : Outcome (option (list Point)) :=
  let corners := cornerCandidates edges width height startX startY in
  if (4 <=? length corners)%nat then findBestRectangle corners
  else Returned None.

Definition calculateArea (corners : list Point) : float :=
  if (length corners <? 4)%nat then 0%float
  else (abs (shoelaceSum corners) / 2)%float.

(** One iteration of the scan of [findRectangularContours]; an exception
    ends the scan. *)
Definition scanAt (edges : list Z) (width height x y : Z)
    (rectangles : Outcome (list (list Point))) : Outcome (list (list Point)) :=
  let minArea := (of_Z (width * height) * 0.1)%float in
  match rectangles with
  | Thrown => Thrown
  | Returned rectangles =>
    match findRectangleAt edges width height x y with
    | Thrown => Thrown
    | Returned None => Returned rectangles
    | Returned (Some rect) =>
      if (minArea <? calculateArea rect)%float
      then Returned (rectangles ++ [rect])
      else Returned rectangles
    end
  end.

Definition findRectangularContours (edges : list Z) (width height : Z)
    : Outcome (list (list Point)) :=
  let scanned :=
    for_ (range 0 (height - 100) 20) (fun y rectangles =>
      for_ (range 0 (width - 100) 20) (fun x rectangles =>
        scanAt edges width height x y rectangles) rectangles)
      (Returned []) in
  match scanned with
  | Thrown => Thrown
  | Returned rectangles =>
    Returned
      (sortBy (fun a b => (calculateArea b - calculateArea a)%float) rectangles)
  end.

(** [detectDocumentEdges(canvas)]; [None] is [null].  On a canvas without
    pixels [getImageData] throws an IndexSizeError. *)
Definition detectDocumentEdges (canvas : Canvas)
    : Outcome (option (list Point)) :=
  match getImageData canvas (inject_Z (cwidth canvas))
          (inject_Z (cheight canvas)) with
  | None => Thrown
  | Some imageData =>
    let grayData := convertToGrayscale imageData in
    let blurredData := gaussianBlur grayData (cwidth canvas) (cheight canvas) in
    let edges := sobelEdgeDetection blurredData (cwidth canvas) (cheight canvas) in
    match findRectangularContours edges (cwidth canvas) (cheight canvas) with
    | Thrown => Thrown
    | Returned rectangles => Returned (head rectangles)
    end
  end.

End DocumentScanner.

(** A white square on black, the test frame of the examples. *)
Definition squareFrame (n lo hi : Z) : ImageData :=
  mkImageData n n
    (mjoin ((fun i =>
       let x := i mod n in let y := i / n in
       if (lo <=? x) && (x <=? hi) && (lo <=? y) && (y <=? hi)
       then [255; 255; 255; 255] else [0; 0; 0; 255]) <$> seqZ 0 (n * n))).


(** ** Definitions that follow the specification's words *)

(** The pixel at offset [(dx, dy)] of [(x, y)] in a row-major buffer. *)
Definition tap (data : list Z) (w x y dx dy : Z) : float :=
  read data ((y + dy) * w + (x + dx)).

(** Section 4.2: the 3x3 kernel [1,2,1,2,4,2,1,2,1] applied around [(x, y)]. *)
Definition gaussianSum (data : list Z) (w x y : Z) : float :=
  (0 + tap data w x y (-1) (-1) * 1 + tap data w x y 0 (-1) * 2
     + tap data w x y 1 (-1) * 1
     + tap data w x y (-1) 0 * 2 + tap data w x y 0 0 * 4
     + tap data w x y 1 0 * 2
     + tap data w x y (-1) 1 * 1 + tap data w x y 0 1 * 2
     + tap data w x y 1 1 * 1)%float.

(** Section 4.1: [0.299 R + 0.587 G + 0.114 B]. *)
Definition luma (r g b : Z) : float :=
  (of_Z r * 0.299 + of_Z g * 0.587 + of_Z b * 0.114)%float.

Definition isByte (v : Z) : Prop := 0 <= v <= 255.

(** A point inside a [w] x [h] image, its index in a row-major buffer, and
    what the tracer tests on it: the edge mask is not 0 there ("on"), and the
    visited array holds [true] there. *)
Definition inBounds (w h : Z) (p : Point) : Prop :=
  0 <= px p < w /\ 0 <= py p < h.

Definition pixelIndex (w : Z) (p : Point) : Z := py p * w + px p.

Definition edgeOn (edges : list Z) (w : Z) (p : Point) : Prop :=
  aget edges (pixelIndex w p) <> Some 0.

Definition marked (visited : list bool) (w : Z) (p : Point) : Prop :=
  aget visited (pixelIndex w p) = Some true.

(** The invariant of a detection pass: the pixels collected so far are
    pairwise distinct, inside the image, on, and marked in [visited]. *)
Definition collectedInv (edges : list Z) (w h : Z) (visited : list bool)
    (collected : list Point) : Prop :=
  length visited = Z.to_nat (w * h)
  /\ NoDup collected
  /\ Forall (fun p => inBounds w h p /\ edgeOn edges w p /\ marked visited w p)
       collected.

(** Section 4.6: the shoelace sum over the integers, twice the signed area
    of the polygon. *)
Definition shoelace (points : list Point) : Z :=
  let n := Z.of_nat (length points) in
  for_ (range 0 n 1) (fun i area =>
    let j := (i + 1) mod n in
    match aget points i, aget points j with
    | Some pi, Some pj => area + px pi * py pj - px pj * py pi
    | _, _ => area
    end) 0.

(** The coordinates of [p] are below [2^24] in absolute value: every sum of
    [calculatePolygonArea] on four such points stays below [2^53]. *)
Definition smallPoint (p : Point) : Prop :=
  Z.abs (px p) <= 2 ^ 24 /\ Z.abs (py p) <= 2 ^ 24.

(** Any three consecutive points [o], [a], [b] of a polyline make a strict
    left turn in the sense of [crossProduct]. *)
Definition leftTurns (hull : list Point) : Prop :=
  forall i o a b,
    hull !! i = Some o -> hull !! S i = Some a -> hull !! S (S i) = Some b ->
    0 < crossProduct o a b.

(** [p] is not below [s]: the order by which [convexHull] picks its pivot
    (larger [y] first, smaller [x] on a tie). *)
Definition notBelow (s p : Point) : Prop :=
  py p < py s \/ (py p = py s /\ px s <= px p).

(** [q] is one of the eight neighbours of [p]. *)
Definition adjacent (p q : Point) : Prop :=
  Z.abs (px q - px p) <= 1 /\ Z.abs (py q - py p) <= 1 /\ q <> p.

(** Each point of the list but the first is a neighbour of an earlier one. *)
Definition grown (contour : list Point) : Prop :=
  forall i q, contour !! S i = Some q ->
    exists j p, (j <= i)%nat /\ contour !! j = Some p /\ adjacent p q.

(** The seeds of a detection pass in one direction: 10, 15, 20, ... below
    [size - 10]. *)
Definition onSeedGrid (size k : Z) : Prop :=
  10 <= k < size - 10 /\ (k - 10) mod 5 = 0.

(** The byte a colour byte [v] is turned into by the tone enhancer. *)
Definition toneCurve (contrast brightness : float) (v : Z) : Z :=
  ToUint8Clamp
    (Math_min 255 (Math_max 0 ((of_Z v - 128) * contrast + 128 + brightness)))%float.

(** The four bytes of pixel [k] of an RGBA buffer. *)
Definition pixelAt (data : list Z) (k : Z) : option (Z * Z * Z * Z) :=
  match aget data (4 * k), aget data (4 * k + 1),
        aget data (4 * k + 2), aget data (4 * k + 3) with
  | Some r, Some g, Some b, Some a => Some (r, g, b, a)
  | _, _, _, _ => None
  end.

(** The test of lines 512-513 on a source coordinate. *)
Definition sampled (canvas : Canvas) (s : Z * Z) : bool :=
  (0 <=? s.1) && (s.1 <? cwidth canvas) && (0 <=? s.2) && (s.2 <? cheight canvas).

(** What channel [k] of a pixel of the rectified page holds when its source
    coordinate is [s]: the enhanced byte of the source pixel and alpha 255
    when [s] is a pixel of the frame, transparent black otherwise. *)
Definition rectifiedByte (canvas : Canvas) (s : option (Z * Z)) (k : Z) : Z :=
  match s with
  | Some s =>
    if sampled canvas s then
      if k =? 3 then 255
      else toneCurve contrast brightness
             (default 0 (aget (bitmap canvas) ((s.2 * cwidth canvas + s.1) * 4 + k)))
    else 0
  | None => 0
  end.

(** The start points of [DocumentScanner.findRectangularContours] in one
    direction: 0, 20, 40, ... below [size - 100]. *)
Definition onScanGrid (size k : Z) : Prop :=
  0 <= k < size - 100 /\ k mod 20 = 0.

(** The order of [DocumentScanner.byRow]: by rows, and from left to right
    within a row. *)
Definition rowOrder (a b : Point) : Prop :=
  py a < py b \/ (py a = py b /\ px a <= px b).

(** An edge mask of [n] x [n] pixels that is on exactly at [dots]. *)
Definition dotsMask (n : Z) (dots : list Point) : list Z :=
  foldl (fun mask p => aset mask (py p * n + px p) 255)
        (replicate (Z.to_nat (n * n)) 0) dots.

(** ** Rounding to binary64: the vocabulary of the error bounds *)

(** Round to nearest, ties to even, of [m / 2^n] for [0 < n]. *)
Definition roundShift (m n : Z) : Z :=
  let q := m / 2 ^ n in
  let r := m mod 2 ^ n in
  let h := 2 ^ (n - 1) in
  if r <? h then q
  else if h <? r then q + 1
  else if Z.even q then q else q + 1.

Definition sgnQ (s : bool) (q : Q) : Q := if s then (- q)%Q else q.

(** [v] is a binary64 value: an integer below 2^53 times a power of two that
    is at least the smallest one of the format. *)
Definition representable (v : Q) : Prop :=
  exists N E : Z, -1074 <= E /\ Z.abs N < 2 ^ 53 /\ (v == inject_Z N * 2 ^ E)%Q.

(** [r] is a finite binary64 obtained from the real [v] by rounding: within
    one unit roundoff of [v] relatively (or half the smallest subnormal
    absolutely), equal to [v] when [v] is a binary64 value, and of its sign. *)
Definition rounds (v : Q) (r : spec_float) : Prop :=
  SFfinite r = true
  /\ (Qabs (SF2Q r - v) <= 2 ^ (-53) * Qabs v + 2 ^ (-1075))%Q
  /\ (representable v -> SF2Q r == v)%Q
  /\ ((0 < v)%Q -> SFsign r = false)
  /\ ((v < 0)%Q -> SFsign r = true).

(** The Number [x] is the integer [n]. *)
Definition isInt (x : float) (n : Z) : Prop :=
  finite x = true /\ (F2Q x == inject_Z n)%Q.

(** A weight of the bilinear blend: a Number of the unit interval. *)
Definition unitWeight (w : float) : bool :=
  finite w && Qle_bool 0 (F2Q w) && Qle_bool (F2Q w) 1.

(** [u] and the computed [1 - u] are weights, and their sum is 1 up to one
    unit roundoff. *)
Definition weightPair (u : float) : bool :=
  unitWeight u && unitWeight (1 - u)
  && Qle_bool (Qabs (F2Q u + F2Q (1 - u) - 1)) (2 ^ (-53)).

(** * Properties *)

(** ** Arrays and loops *)

Section ArrayLemmas.
Context {A : Type}.
Implicit Types (a : list A) (i j : Z) (v : A).

Lemma length_aset a i v : length (aset a i v) = length a.
Proof. unfold aset. destruct (i <? 0); [done | apply length_insert]. Qed.

Lemma aget_aset_eq a i v :
  0 <= i < Z.of_nat (length a) -> aget (aset a i v) i = Some v.
Proof.
  intros Hi. unfold aget, aset.
  destruct (Z.ltb_spec i 0); [lia|].
  apply list_lookup_insert_eq. lia.
Qed.

Lemma aget_aset_ne a i j v : i <> j -> aget (aset a i v) j = aget a j.
Proof.
  intros Hne. unfold aget, aset.
  destruct (Z.ltb_spec j 0); [done|].
  destruct (Z.ltb_spec i 0); [done|].
  apply list_lookup_insert_ne. lia.
Qed.

Lemma aget_Some_lt a i v : aget a i = Some v -> 0 <= i < Z.of_nat (length a).
Proof.
  unfold aget. destruct (Z.ltb_spec i 0) as [|Hi]; [done|].
  intros Hl%lookup_lt_Some. lia.
Qed.

Lemma aget_replicate n v i :
  0 <= i < Z.of_nat n -> aget (replicate n v) i = Some v.
Proof.
  intros Hi. unfold aget. destruct (Z.ltb_spec i 0); [lia|].
  apply lookup_replicate_2. lia.
Qed.

Lemma aset_same a i v : aget a i = Some v -> aset a i v = a.
Proof.
  unfold aget, aset. destruct (i <? 0); [done|]. apply list_insert_id.
Qed.

End ArrayLemmas.

Lemma elem_of_range lo hi step k :
  0 < step ->
  k ∈ range lo hi step <-> exists j, 0 <= j /\ k = lo + step * j /\ k < hi.
Proof.
  intros Hstep. unfold range. rewrite list_elem_of_fmap.
  setoid_rewrite elem_of_seqZ.
  pose proof (Z.div_mod (hi - lo + step - 1) step ltac:(lia)) as Hdm.
  pose proof (Z.mod_pos_bound (hi - lo + step - 1) step Hstep) as Hmod.
  split.
  - intros (j & -> & Hj). exists j. split; [lia|]. split; [done|]. nia.
  - intros (j & Hj0 & -> & Hlt). exists j. split; [done|]. split; [lia|]. nia.
Qed.

Lemma elem_of_range1 lo hi k : k ∈ range lo hi 1 <-> lo <= k < hi.
Proof.
  rewrite elem_of_range by lia. split.
  - intros (j & ? & -> & ?). lia.
  - intros ?. exists (k - lo). lia.
Qed.

Lemma for_unchanged {S} (r : list Z) (body : Z -> S -> S) (s : S) :
  (forall i, i ∈ r -> body i s = s) -> for_ r body s = s.
Proof.
  unfold for_. induction r as [|i r IH]; intros H; [done|].
  simpl. rewrite H by left. apply IH. intros j Hj. apply H. by right.
Qed.

Lemma for_invariant {S} (P : S -> Prop) (r : list Z) (body : Z -> S -> S) (s : S) :
  P s -> (forall i s, i ∈ r -> P s -> P (body i s)) -> P (for_ r body s).
Proof.
  unfold for_. revert s. induction r as [|i r IH]; intros s Hs H; [done|].
  simpl. apply IH.
  - apply H; [left | done].
  - intros j s' Hj. apply H. by right.
Qed.

Lemma foldl_fmap_fun {S B C} (f : S -> C -> S) (g : B -> C) (l : list B) (s : S) :
  foldl f s (g <$> l) = foldl (fun s b => f s (g b)) s l.
Proof. revert s. induction l as [|b l IH]; intros s; [done|]. simpl. apply IH. Qed.

(** Two nested loops are one loop over the pairs of their indices. *)
Lemma for_for {S} (ys xs : list Z) (body : Z -> Z -> S -> S) (s : S) :
  for_ ys (fun y s => for_ xs (fun x s => body y x s) s) s
  = foldl (fun s yx => body yx.1 yx.2 s) s (ys ≫= fun y => pair y <$> xs).
Proof.
  unfold for_. revert s. induction ys as [|y ys IH]; intros s; [done|].
  simpl. rewrite foldl_app, foldl_fmap_fun. simpl. apply IH.
Qed.

Lemma foldl_nested {S B C} (f : S -> B -> C -> S) (l : list B) (ks : list C) (s : S) :
  foldl (fun s b => foldl (fun s k => f s b k) s ks) s l
  = foldl (fun s bk => f s bk.1 bk.2) s (l ≫= fun b => pair b <$> ks).
Proof.
  revert s. induction l as [|b l IH]; intros s; [done|].
  simpl. rewrite foldl_app, foldl_fmap_fun. simpl. apply IH.
Qed.

Lemma for_ext {S} (r : list Z) (body body' : Z -> S -> S) (s : S) :
  (forall i s, i ∈ r -> body i s = body' i s) -> for_ r body s = for_ r body' s.
Proof.
  unfold for_. revert s. induction r as [|i r IH]; intros s H; [done|].
  simpl. rewrite H by left. apply IH. intros j s' Hj. apply H. by right.
Qed.

Lemma elem_of_pairs (ys xs : list Z) (y x : Z) :
  (y, x) ∈ (ys ≫= fun y => pair y <$> xs) <-> y ∈ ys /\ x ∈ xs.
Proof.
  rewrite list_elem_of_bind. split.
  - intros (y' & (x' & [= -> ->] & Hx)%list_elem_of_fmap & Hy). done.
  - intros [Hy Hx]. exists y. split; [|done].
    apply list_elem_of_fmap. by exists x.
Qed.

(** A loop of array writes: what it leaves at an index. *)
Section Writes.
Context {A I : Type} (idx : I -> Z) (val : I -> A).

Let writes (l : list I) (a : list A) : list A :=
  foldl (fun a i => aset a (idx i) (val i)) a l.

Lemma length_writes l a : length (writes l a) = length a.
Proof.
  unfold writes. revert a. induction l as [|i l IH]; intros a; [done|].
  simpl. rewrite IH. apply length_aset.
Qed.

Lemma writes_miss l a j :
  (forall i, i ∈ l -> idx i <> j) -> aget (writes l a) j = aget a j.
Proof.
  unfold writes. revert a. induction l as [|i l IH]; intros a H; [done|].
  simpl. rewrite IH by (intros; apply H; by right).
  apply aget_aset_ne, H. left.
Qed.

Lemma writes_hit l a i :
  i ∈ l ->
  (forall i', i' ∈ l -> idx i' = idx i -> val i' = val i) ->
  0 <= idx i < Z.of_nat (length a) ->
  aget (writes l a) (idx i) = Some (val i).
Proof.
  unfold writes. induction l as [|k l IH] using rev_ind; intros Hi Hval Hlen.
  - by apply elem_of_nil in Hi.
  - rewrite foldl_snoc.
    destruct (Z.eq_dec (idx k) (idx i)) as [Heq|Hne].
    + rewrite Heq, (Hval k); [|apply elem_of_app; right; left|done].
      apply aget_aset_eq. fold (writes l a). by rewrite length_writes.
    + rewrite aget_aset_ne by done. apply IH; [| |done].
      * apply elem_of_app in Hi as [Hi|Hi%list_elem_of_singleton]; [done|].
        by subst.
      * intros i' Hi'. apply Hval, elem_of_app. by left.
Qed.

End Writes.

Lemma index_inj w x y x' y' :
  0 <= x < w -> 0 <= x' < w -> y * w + x = y' * w + x' -> x = x' /\ y = y'.
Proof. intros Hx Hx' Heq. assert (y = y') by nia. subst. lia. Qed.

(** The double loop of [gaussianBlur] and [sobelEdgeDetection]: every
    interior pixel receives its value, every other entry is left alone. *)
Section Raster.
Variables (pix : Z -> Z -> Z) (w h : Z) (init : list Z).

Let raster : list Z :=
  for_ (range 1 (h - 1) 1) (fun y res =>
    for_ (range 1 (w - 1) 1) (fun x res =>
      aset res (y * w + x) (pix x y)) res) init.

Lemma length_raster : length raster = length init.
Proof.
  unfold raster. rewrite for_for.
  apply (length_writes (fun yx => yx.1 * w + yx.2) (fun yx => pix yx.2 yx.1)).
Qed.

Lemma raster_interior x y :
  1 <= x < w - 1 -> 1 <= y < h - 1 -> y * w + x < Z.of_nat (length init) ->
  aget raster (y * w + x) = Some (pix x y).
Proof.
  intros Hx Hy Hlen. unfold raster. rewrite for_for.
  apply (writes_hit (fun yx => yx.1 * w + yx.2) (fun yx => pix yx.2 yx.1)
           _ _ (y, x)).
  - apply elem_of_pairs. rewrite !elem_of_range1. lia.
  - intros [y' x'] [Hy' Hx']%elem_of_pairs. simpl.
    rewrite elem_of_range1 in Hy', Hx'. intros Heq.
    destruct (index_inj w x' y' x y) as [-> ->]; [lia..|done].
  - simpl. nia.
Qed.

Lemma raster_other j :
  (forall x y, 1 <= x < w - 1 -> 1 <= y < h - 1 -> y * w + x <> j) ->
  aget raster j = aget init j.
Proof.
  intros H. unfold raster. rewrite for_for.
  apply (writes_miss (fun yx => yx.1 * w + yx.2) (fun yx => pix yx.2 yx.1)).
  intros [y x] [Hy Hx]%elem_of_pairs. simpl.
  rewrite elem_of_range1 in Hy, Hx. by apply H.
Qed.

Lemma raster_border x y :
  0 <= x < w -> 0 <= y < h -> x = 0 \/ x = w - 1 \/ y = 0 \/ y = h - 1 ->
  aget raster (y * w + x) = aget init (y * w + x).
Proof.
  intros Hx Hy Hb. apply raster_other. intros x' y' Hx' Hy' Heq.
  destruct (index_inj w x' y' x y) as [-> ->]; lia.
Qed.

End Raster.

(** ** Bytes *)

Lemma forall_bytes (P : Z -> bool) :
  forallb P (seqZ 0 256) = true -> forall v, isByte v -> P v = true.
Proof.
  intros H v Hv. rewrite forallb_forall in H. apply H.
  apply list_elem_of_In, elem_of_seqZ. unfold isByte in Hv. lia.
Qed.

Lemma floor_byte_range (v : float) : 0 <= floor_byte v <= 255.
Proof.
  unfold floor_byte.
  assert (forall bits acc,
            Forall (fun b => 0 <= b) bits ->
            acc <= foldl (fun acc b =>
                            if (of_Z (acc + b) <=? v)%float then acc + b else acc)
                         acc bits
                <= acc + foldr Z.add 0 bits) as Hfold.
  { induction bits as [|b bits IH]; intros acc Hbits; simpl; [lia|].
    apply Forall_cons in Hbits as [Hb Hbits].
    destruct (of_Z (acc + b) <=? v)%float.
    - specialize (IH (acc + b) Hbits). lia.
    - specialize (IH acc Hbits). lia. }
  specialize (Hfold [128; 64; 32; 16; 8; 4; 2; 1] 0).
  simpl foldr in Hfold. apply Hfold. repeat constructor; lia.
Qed.

Lemma ToUint8Clamp_byte v : isByte (ToUint8Clamp v).
Proof.
  unfold ToUint8Clamp, isByte.
  pose proof (floor_byte_range v) as Hf.
  destruct (is_nan v); [lia|]. cbv zeta.
  destruct (Z.eqb_spec (floor_byte v) 255); [lia|].
  repeat case_match; lia.
Qed.

(** ** Stage 10: the tone enhancer *)

Lemma enhanceChannel_neutral_byte v :
  isByte v ->
  ToUint8Clamp (Math_min 255 (Math_max 0 ((of_Z v - 128) * 1 + 128 + 0)))%float = v.
Proof.
  intros Hv. apply Z.eqb_eq.
  apply (forall_bytes (fun v =>
    ToUint8Clamp (Math_min 255 (Math_max 0 ((of_Z v - 128) * 1 + 128 + 0)))%float
    =? v)); [|done].
  vm_compute. reflexivity.
Qed.

Lemma enhanceChannel_neutral_write (data : list Z) (i : Z) :
  Forall isByte data -> aset data i (enhanceChannel 1 0 data i) = data.
Proof.
  intros Hbytes. destruct (aget data i) as [v|] eqn:Hget.
  - apply aset_same. rewrite Hget. f_equal.
    unfold enhanceChannel, read. rewrite Hget.
    symmetry. apply enhanceChannel_neutral_byte.
    rewrite Forall_forall in Hbytes. apply Hbytes.
    unfold aget in Hget. destruct (i <? 0); [done|].
    by eapply list_elem_of_lookup_2.
  - unfold aget in Hget. unfold aset.
    destruct (i <? 0); [done|].
    apply list_insert_ge. by apply lookup_ge_None.
Qed.

(** With contrast 1 and brightness 0 in place of the constants, the loop of
    [enhanceDocument] would leave every buffer of bytes as it is. *)
Lemma enhanceData_neutral (data : list Z) :
  Forall isByte data -> enhanceData 1 0 data = data.
Proof.
  intros Hbytes. unfold enhanceData. apply for_unchanged. intros i _.
  cbv zeta.
  rewrite (enhanceChannel_neutral_write data i Hbytes).
  rewrite (enhanceChannel_neutral_write data (i + 1) Hbytes).
  apply (enhanceChannel_neutral_write data (i + 2) Hbytes).
Qed.

(** The constants of the source are not neutral: a mid-grey pixel changes. *)
Example enhance_source_constants :
  enhanceData contrast brightness [128; 133; 0; 255] = [143; 150; 0; 255].
Proof. vm_compute. reflexivity. Qed.

(** ** Stage 1: grayscale *)

Lemma grayscale_lookup (imageData : ImageData) (k : Z) :
  0 <= k < width imageData * height imageData ->
  4 * k < Z.of_nat (length (data imageData)) ->
  aget (convertToGrayscale imageData) k
  = Some (ToUint8Clamp (luminance (data imageData) (4 * k))).
Proof.
  intros Hk Hlen. unfold convertToGrayscale, for_.
  pose proof (writes_hit (fun i => i / 4)
    (fun i => ToUint8Clamp (luminance (data imageData) i))
    (range 0 (Z.of_nat (length (data imageData))) 4)
    (replicate (Z.to_nat (width imageData * height imageData)) 0)
    (4 * k)) as H.
  simpl in H.
  assert (4 * k / 4 = k) as Hdiv by (rewrite Z.mul_comm; apply Z.div_mul; lia).
  rewrite Hdiv in H. apply H.
  - apply elem_of_range; [lia|]. exists k. lia.
  - intros i (j & Hj & -> & _)%elem_of_range Hi; [|lia].
    replace (0 + 4 * j) with (4 * j) in * by lia.
    rewrite (Z.mul_comm 4 j), Z.div_mul in Hi by lia. by subst.
  - rewrite length_replicate. lia.
Qed.

Lemma length_grayscale (imageData : ImageData) :
  length (convertToGrayscale imageData)
  = Z.to_nat (width imageData * height imageData).
Proof.
  unfold convertToGrayscale, for_.
  rewrite (length_writes (fun i => i / 4)
    (fun i => ToUint8Clamp (luminance (data imageData) i))).
  apply length_replicate.
Qed.

(** C7.  The output has one byte per pixel of the frame, with the width and
    the height of the input, and the byte of pixel [k] is the luma
    [0.299 R + 0.587 G + 0.114 B] of its red, green and blue bytes, as the
    byte array stores it (ToUint8Clamp: the nearest integer, ties to even).
    The alpha byte does not enter the formula. *)
Theorem grayscale_is_rounded_luma (imageData : ImageData) :
  length (convertToGrayscale imageData)
  = Z.to_nat (width imageData * height imageData)
  /\ forall k r g b a,
       0 <= k < width imageData * height imageData ->
       aget (data imageData) (4 * k) = Some r ->
       aget (data imageData) (4 * k + 1) = Some g ->
       aget (data imageData) (4 * k + 2) = Some b ->
       aget (data imageData) (4 * k + 3) = Some a ->
       aget (convertToGrayscale imageData) k
       = Some (ToUint8Clamp (luma r g b)).
Proof.
  split; [apply length_grayscale|].
  intros k r g b a Hk Hr Hg Hb _.
  rewrite grayscale_lookup; [|done|apply aget_Some_lt in Hr; lia].
  unfold luminance, luma, read. by rewrite Hr, Hg, Hb.
Qed.

(** The byte is the luma as a byte: the pixel (1, 0, 0), of luma 0.299, gives
    0, and the white pixel gives 255. *)
Example grayscale_run :
  convertToGrayscale (mkImageData 2 1 [1; 0; 0; 255; 255; 255; 255; 0])
  = [0; 255].
Proof. vm_compute. reflexivity. Qed.

(** ** Stage 2: Gaussian blur *)

Lemma convolve3_unfold (k data : list Z) (w x y : Z) :
  convolve3 k data w x y
  = (0 + tap data w x y (-1) (-1) * read k 0 + tap data w x y 0 (-1) * read k 1
       + tap data w x y 1 (-1) * read k 2
       + tap data w x y (-1) 0 * read k 3 + tap data w x y 0 0 * read k 4
       + tap data w x y 1 0 * read k 5
       + tap data w x y (-1) 1 * read k 6 + tap data w x y 0 1 * read k 7
       + tap data w x y 1 1 * read k 8)%float.
Proof. reflexivity. Qed.

Lemma blurAt_gaussianSum (data : list Z) (w x y : Z) :
  blurAt data w x y = ToUint8Clamp (gaussianSum data w x y / 16)%float.
Proof. reflexivity. Qed.

Lemma length_gaussianBlur (data : list Z) (w h : Z) :
  length (gaussianBlur data w h) = length data.
Proof. unfold gaussianBlur. rewrite length_raster. apply length_replicate. Qed.

Lemma gaussianBlur_interior (data : list Z) (w h x y : Z) :
  1 <= x < w - 1 -> 1 <= y < h - 1 -> y * w + x < Z.of_nat (length data) ->
  aget (gaussianBlur data w h) (y * w + x) = Some (blurAt data w x y).
Proof.
  intros Hx Hy Hlen. unfold gaussianBlur.
  apply (raster_interior (fun x y => blurAt data w x y)); [done..|].
  by rewrite length_replicate.
Qed.

Lemma gaussianBlur_border (data : list Z) (w h x y : Z) :
  0 <= x < w -> 0 <= y < h -> x = 0 \/ x = w - 1 \/ y = 0 \/ y = h - 1 ->
  y * w + x < Z.of_nat (length data) ->
  aget (gaussianBlur data w h) (y * w + x) = Some 0.
Proof.
  intros Hx Hy Hb Hlen. unfold gaussianBlur.
  rewrite (raster_border (fun x y => blurAt data w x y)) by done.
  apply aget_replicate. nia.
Qed.

(** C4, as the code has it.  At every interior pixel the output is the 3x3
    kernel sum divided by 16, stored as a byte (ToUint8Clamp); the output has
    the length of the input; and every pixel of the 1-pixel border ring of
    the output is 0, whatever the input holds there. *)
Theorem gaussianBlur_interior_and_border (data : list Z) (w h : Z) :
  length (gaussianBlur data w h) = length data
  /\ (forall x y,
        1 <= x < w - 1 -> 1 <= y < h - 1 ->
        y * w + x < Z.of_nat (length data) ->
        aget (gaussianBlur data w h) (y * w + x)
        = Some (ToUint8Clamp (gaussianSum data w x y / 16)%float))
  /\ (forall x y,
        0 <= x < w -> 0 <= y < h ->
        x = 0 \/ x = w - 1 \/ y = 0 \/ y = h - 1 ->
        y * w + x < Z.of_nat (length data) ->
        aget (gaussianBlur data w h) (y * w + x) = Some 0).
Proof.
  split; [apply length_gaussianBlur|]. split.
  - intros x y Hx Hy Hlen. rewrite <- blurAt_gaussianSum.
    by apply gaussianBlur_interior.
  - intros x y. apply gaussianBlur_border.
Qed.

(** C4, as stated, fails: on a 3x3 buffer of 255 the corner of the output
    is 0, not the input's 255. *)
Lemma gaussianBlur_border_is_not_input :
  let data := replicate 9 255 in
  aget (gaussianBlur data 3 3) 0 = Some 0 /\ aget data 0 = Some 255.
Proof. split; vm_compute; reflexivity. Qed.

(** ** binary64: values and rounding

    The operations of [PrimFloat] are specified by [SpecFloat]; what follows
    derives from that specification the value each operation returns. *)

(** *** Powers of two *)

Lemma digits2_size (p : positive) : digits2_pos p = Pos.size p.
Proof. induction p; simpl; congruence. Qed.

Lemma size_bounds (p : positive) :
  2 ^ (Zpos (Pos.size p) - 1) <= Zpos p < 2 ^ Zpos (Pos.size p).
Proof.
  split.
  - pose proof (Pos.size_le p) as H.
    assert (Zpos (2 ^ Pos.size p) <= Zpos p~0) as H' by (by apply Pos2Z.pos_le_pos).
    rewrite Pos2Z.inj_pow in H'.
    replace (Zpos (Pos.size p)) with (Zpos (Pos.size p) - 1 + 1) in H' by lia.
    rewrite Z.pow_add_r in H' by lia. lia.
  - pose proof (Pos.size_gt p) as H.
    assert (Zpos p < Zpos (2 ^ Pos.size p)) as H' by (by apply Pos2Z.pos_lt_pos).
    by rewrite Pos2Z.inj_pow in H'.
Qed.

Lemma size_unique (p : positive) (d : Z) :
  2 ^ (d - 1) <= Zpos p < 2 ^ d -> Zpos (Pos.size p) = d.
Proof.
  intros [Hlo Hhi]. pose proof (size_bounds p) as [Slo Shi].
  assert (0 <= d) as Hd.
  { destruct (Z_lt_le_dec d 0) as [Hn|]; [|done].
    rewrite Z.pow_neg_r in Hhi by done. lia. }
  assert (Zpos (Pos.size p) - 1 < d) as H1.
  { apply (Z.pow_lt_mono_r_iff 2); [lia|lia|]. lia. }
  assert (d - 1 < Zpos (Pos.size p)) as H2.
  { apply (Z.pow_lt_mono_r_iff 2); [lia|lia|]. lia. }
  lia.
Qed.

Lemma size_le_of_lt (p : positive) (d : Z) :
  Zpos p < 2 ^ d -> Zpos (Pos.size p) <= d.
Proof.
  intros Hhi. pose proof (size_bounds p) as [Slo Shi].
  assert (0 <= d) as Hd.
  { destruct (Z_lt_le_dec d 0) as [Hn|]; [|done].
    rewrite Z.pow_neg_r in Hhi by done. lia. }
  assert (Zpos (Pos.size p) - 1 < d); [|lia].
  apply (Z.pow_lt_mono_r_iff 2); [lia|lia|]. lia.
Qed.

(** *** Shifting a mantissa to the right *)

Lemma iter_pos_nat {A} (f : A -> A) (p : positive) (x : A) :
  SpecFloat.iter_pos f p x = Nat.iter (Pos.to_nat p) f x.
Proof.
  revert x. induction p as [p IH|p IH|]; intros x; cbn [SpecFloat.iter_pos].
  - rewrite !IH, Pos2Nat.inj_xI.
    replace (S (2 * Pos.to_nat p))%nat
      with (Pos.to_nat p + (Pos.to_nat p + 1))%nat by lia.
    rewrite !Nat.iter_add. done.
  - rewrite !IH, Pos2Nat.inj_xO.
    replace (2 * Pos.to_nat p)%nat with (Pos.to_nat p + Pos.to_nat p)%nat by lia.
    by rewrite Nat.iter_add.
  - done.
Qed.

Lemma shr_1_spec (m : Z) (r s : bool) :
  0 <= m ->
  shr_1 (Build_shr_record m r s) = Build_shr_record (m / 2) (Z.odd m) (r || s).
Proof.
  intros Hm. rewrite <- Z.div2_div.
  destruct m as [|[p|p|]|]; try done; lia.
Qed.

Lemma shr_iter (m : Z) (k : nat) :
  0 <= m ->
  Nat.iter (S k) shr_1 (Build_shr_record m false false)
  = Build_shr_record (m / 2 ^ Z.of_nat (S k)) (Z.testbit m (Z.of_nat k))
      (negb (m mod 2 ^ Z.of_nat k =? 0)).
Proof.
  intros Hm. induction k as [|k IH].
  - cbn [Nat.iter]. rewrite shr_1_spec by done.
    change (Z.of_nat 1) with 1. change (Z.of_nat 0) with 0.
    rewrite Z.pow_1_r, Z.pow_0_r, Z.bit0_odd, Z.mod_1_r. done.
  - change (Nat.iter (S (S k)) shr_1 ?x) with (shr_1 (Nat.iter (S k) shr_1 x)).
    rewrite IH. rewrite shr_1_spec by (apply Z.div_pos; lia).
    f_equal.
    + rewrite Z.div_div by lia. f_equal.
      rewrite (Nat2Z.inj_succ (S k)), Z.pow_succ_r by lia. lia.
    + rewrite Z.testbit_odd, Z.shiftr_div_pow2 by lia. done.
    + rewrite (Nat2Z.inj_succ k), Z.pow_succ_r by lia.
      rewrite (Z.mul_comm 2), Z.rem_mul_r by lia.
      rewrite Z.testbit_odd, Z.shiftr_div_pow2 by lia.
      rewrite Zmod_odd.
      pose proof (Z.mod_pos_bound m (2 ^ Z.of_nat k) ltac:(lia)).
      destruct (Z.odd (m / 2 ^ Z.of_nat k));
        destruct (Z.eqb_spec (m mod 2 ^ Z.of_nat k) 0) as [E'|E']; simpl;
        symmetry; rewrite ?negb_true_iff, ?negb_false_iff;
        first [apply Z.eqb_eq | apply Z.eqb_neq]; nia.
Qed.

Lemma shr_round (m : Z) (p : positive) :
  0 <= m ->
  let mrs := SpecFloat.iter_pos shr_1 p (Build_shr_record m false false) in
  round_nearest_even (shr_m mrs) (loc_of_shr_record mrs) = roundShift m (Zpos p).
Proof.
  intros Hm. cbv zeta. rewrite iter_pos_nat.
  destruct (Pos2Nat.is_succ p) as [k Hk]. rewrite Hk.
  rewrite shr_iter by done.
  assert (Zpos p = Z.of_nat (S k)) as Hp by lia.
  rewrite Hp. unfold roundShift.
  replace (Z.of_nat (S k) - 1) with (Z.of_nat k) by lia.
  set (n := Z.of_nat k).
  assert (0 <= n) as Hn by lia.
  replace (Z.of_nat (S k)) with (n + 1) by lia.
  assert (m mod 2 ^ (n + 1) = 2 ^ n * (m / 2 ^ n mod 2) + m mod 2 ^ n) as Hmod.
  { rewrite Z.pow_add_r, Z.pow_1_r by lia. rewrite Z.rem_mul_r by lia. lia. }
  rewrite Hmod.
  rewrite Z.testbit_odd, Z.shiftr_div_pow2 by lia.
  rewrite Zmod_odd.
  pose proof (Z.mod_pos_bound m (2 ^ n) ltac:(lia)).
  assert (0 < 2 ^ n) by lia.
  cbn [shr_m loc_of_shr_record].
  assert (m / 2 ^ (n + 1) = m / 2 ^ n / 2) as Hq.
  { rewrite Z.pow_add_r, Z.pow_1_r, Z.div_div by lia. done. }
  destruct (Z.odd (m / 2 ^ n)) eqn:Hodd;
    destruct (Z.eqb_spec (m mod 2 ^ n) 0) as [E'|E']; cbn [negb round_nearest_even].
  all: repeat match goal with
             | |- context [?a <? ?b] => destruct (Z.ltb_spec a b); try lia
             end; done.
Qed.

Lemma roundShift_spec (m n : Z) :
  0 <= m -> 0 < n ->
  m / 2 ^ n <= roundShift m n <= m / 2 ^ n + 1
  /\ 2 * Z.abs (roundShift m n * 2 ^ n - m) <= 2 ^ n
  /\ (m mod 2 ^ n = 0 -> roundShift m n * 2 ^ n = m).
Proof.
  intros Hm Hn. unfold roundShift.
  assert (2 ^ n = 2 * 2 ^ (n - 1)) as Hpow.
  { rewrite <- Z.pow_succ_r by lia. f_equal. lia. }
  assert (0 < 2 ^ (n - 1)) as Hh by (apply Z.pow_pos_nonneg; lia).
  pose proof (Z.div_mod m (2 ^ n) ltac:(lia)) as Hdiv.
  pose proof (Z.mod_pos_bound m (2 ^ n) ltac:(lia)) as Hr.
  set (q := m / 2 ^ n) in *. set (r := m mod 2 ^ n) in *.
  set (h := 2 ^ (n - 1)) in *. clearbody q r h.
  destruct (Z.ltb_spec r h); [|destruct (Z.ltb_spec h r); [|destruct (Z.even q)]];
    (split; [lia|split; [nia|nia]]).
Qed.

(** *** Powers of two in [Q] *)

Lemma pow2_pos (e : Z) : (0 < 2 ^ e)%Q.
Proof. by apply Qpower_0_lt. Qed.

Lemma pow2_add (a b : Z) : (2 ^ (a + b) == 2 ^ a * 2 ^ b)%Q.
Proof. by apply Qpower_plus. Qed.

Lemma pow2_Z (n : Z) : 0 <= n -> (2 ^ n == inject_Z (2 ^ n))%Q.
Proof. intros Hn. symmetry. by apply (Zpower_Qpower 2). Qed.

Lemma pow2_le (a b : Z) : a <= b -> (2 ^ a <= 2 ^ b)%Q.
Proof. intros Hab. by apply Qpower_le_compat_l. Qed.

Lemma pow2_lt (a b : Z) : a < b -> (2 ^ a < 2 ^ b)%Q.
Proof. intros Hab. by apply Qpower_lt_compat_l. Qed.

Lemma pow2_lt_inv (a b : Z) : (2 ^ a < 2 ^ b)%Q -> a < b.
Proof. intros Hab. by apply (Qpower_lt_compat_l_inv 2). Qed.

Lemma pow2_succ (a : Z) : (2 ^ (a + 1) == 2 * 2 ^ a)%Q.
Proof. rewrite pow2_add. change (2 ^ 1)%Q with 2%Q. ring. Qed.

Lemma SF2Q_finite (s : bool) (m : positive) (e : Z) :
  (SF2Q (S754_finite s m e) == sgnQ s (inject_Z (Zpos m) * 2 ^ e))%Q.
Proof.
  unfold SF2Q, sgnQ. destruct s; [|reflexivity].
  change (Zneg m) with (- Zpos m). rewrite inject_Z_opp. ring.
Qed.

Lemma shr_nonpos (mrs : shr_record) (e n : Z) : n <= 0 -> shr mrs e n = (mrs, e).
Proof. intros Hn. destruct n; [done|lia|done]. Qed.

(** The second shift and the packing of [binary_round_aux]. *)
Lemma round_finish (s : bool) (m1 f : Z) :
  0 <= m1 <= 2 ^ 53 -> -1074 <= f <= 970 ->
  let r :=
    let '(mrs, e2) := shr_fexp prec emax m1 f loc_Exact in
    match shr_m mrs with
    | Z0 => S754_zero s
    | Zpos m => if e2 <=? emax - prec then S754_finite s m e2 else S754_infinity s
    | Zneg _ => S754_nan
    end in
  SFfinite r = true /\ SFsign r = s
  /\ (SF2Q r == sgnQ s (inject_Z m1 * 2 ^ f))%Q.
Proof.
  intros Hm Hf. unfold shr_fexp. cbn [shr_record_of_loc].
  destruct m1 as [|q|q]; [| |lia].
  - rewrite shr_nonpos by (unfold fexp, emin, prec, emax; cbn [Zdigits2]; lia).
    cbn. split; [done|split; [done|]]. destruct s; cbn; ring.
  - destruct (Z.eq_dec (Zpos q) (2 ^ 53)) as [Hq|Hq].
    + assert (Zpos (Pos.size q) = 54) as Hd
        by (apply size_unique; rewrite Hq; vm_compute; split; congruence).
      replace (fexp prec emax (Zdigits2 (Zpos q) + f) - f) with 1
        by (unfold fexp, emin, prec, emax; cbn [Zdigits2];
            rewrite digits2_size; lia).
      cbn [shr SpecFloat.iter_pos]. rewrite shr_1_spec by lia. cbn [shr_m].
      rewrite Hq. change (2 ^ 53 / 2) with (Zpos 4503599627370496).
      replace (f + 1 <=? emax - prec) with true
        by (symmetry; apply Z.leb_le; unfold emax, prec; lia).
      split; [done|split; [done|]]. rewrite SF2Q_finite.
      assert (inject_Z (2 ^ 53) == inject_Z 4503599627370496 * 2)%Q as Hhalf
        by reflexivity.
      destruct s; unfold sgnQ; rewrite pow2_add, Hhalf;
        change (2 ^ 1)%Q with 2%Q; ring.
    + assert (Zpos (Pos.size q) <= 53) as Hd by (apply size_le_of_lt; lia).
      rewrite shr_nonpos
        by (unfold fexp, emin, prec, emax; cbn [Zdigits2]; rewrite digits2_size; lia).
      cbn [shr_m].
      replace (f <=? emax - prec) with true
        by (symmetry; apply Z.leb_le; unfold emax, prec; lia).
      split; [done|split; [done|]]. apply SF2Q_finite.
Qed.

Lemma binary_round_aux_unfold (s : bool) (m : positive) (e : Z) :
  let f := fexp prec emax (Zpos (Pos.size m) + e) in
  e <= f ->
  binary_round_aux prec emax s (Zpos m) e loc_Exact
  = let '(mrs, e2) :=
      shr_fexp prec emax
        (if f =? e then Zpos m else roundShift (Zpos m) (f - e)) f loc_Exact in
    match shr_m mrs with
    | Z0 => S754_zero s
    | Zpos m => if e2 <=? emax - prec then S754_finite s m e2 else S754_infinity s
    | Zneg _ => S754_nan
    end.
Proof.
  intros f Hef. unfold binary_round_aux. unfold shr_fexp at 1.
  cbn [Zdigits2 shr_record_of_loc]. rewrite digits2_size. fold f.
  destruct (f - e) as [|p|p] eqn:Hn; [| |lia].
  - assert (f = e) as Hfe by lia. rewrite Hfe, Z.eqb_refl. done.
  - replace (f =? e) with false by (symmetry; apply Z.eqb_neq; lia).
    cbn [shr]. rewrite shr_round by lia.
    by replace (e + Zpos p) with f by lia.
Qed.

(** The value computed by [binary_round_aux] from an exact mantissa. *)
Lemma binary_round_aux_value (s : bool) (m : positive) (e : Z) :
  let d := Zpos (Pos.size m) in
  let f := fexp prec emax (d + e) in
  e <= f -> d + e <= 1023 ->
  let r := binary_round_aux prec emax s (Zpos m) e loc_Exact in
  SFfinite r = true /\ SFsign r = s
  /\ (SF2Q r
      == sgnQ s (inject_Z (if f =? e then Zpos m
                           else roundShift (Zpos m) (f - e)) * 2 ^ f))%Q.
Proof.
  intros d f Hef Hde r. subst r.
  pose proof (size_bounds m) as [Hlo Hhi]. fold d in Hlo, Hhi.
  assert (f = Z.max (d + e - 53) (-1074)) as Hfdef by reflexivity.
  rewrite binary_round_aux_unfold by done. fold d. fold f.
  apply round_finish; [|lia].
  destruct (Z.eqb_spec f e) as [Hfe|Hfe].
  - split; [lia|]. assert (d <= 53) by lia.
    pose proof (Z.pow_le_mono_r 2 d 53 ltac:(lia) ltac:(lia)). lia.
  - destruct (roundShift_spec (Zpos m) (f - e) ltac:(lia) ltac:(lia))
      as ([Hq1 Hq2] & _ & _).
    split; [by etransitivity; [apply (Z.div_pos (Zpos m) (2 ^ (f - e))); lia|]|].
    assert (Zpos m / 2 ^ (f - e) < 2 ^ 53); [|lia].
    apply Z.div_lt_upper_bound; [lia|].
    rewrite <- Z.pow_add_r by lia.
    eapply Z.lt_le_trans; [exact Hhi|]. apply Z.pow_le_mono_r; lia.
Qed.

(** *** Rounding to binary64 *)

Lemma representable_ext (v v' : Q) : (v == v')%Q -> representable v -> representable v'.
Proof. intros Hv (N & E & HE & HN & Heq). exists N, E. by rewrite <- Hv. Qed.

Lemma rounds_ext (v v' : Q) (r : spec_float) : (v == v')%Q -> rounds v r -> rounds v' r.
Proof.
  intros Hv (Hf & Herr & Hex & Hpos & Hneg). split; [done|].
  split; [by rewrite <- Hv|]. split; [|by rewrite <- Hv].
  intros Hr. rewrite <- Hv. apply Hex. by apply (representable_ext v').
Qed.

Lemma pos_scaled (m : positive) (e : Z) : (0 < inject_Z (Zpos m) * 2 ^ e)%Q.
Proof.
  apply Qmult_lt_0_compat; [|apply pow2_pos].
  change 0%Q with (inject_Z 0). by rewrite <- Zlt_Qlt.
Qed.

Lemma scaled_size (m : positive) (e : Z) :
  (2 ^ (Zpos (Pos.size m) - 1 + e) <= inject_Z (Zpos m) * 2 ^ e)%Q
  /\ (inject_Z (Zpos m) * 2 ^ e < 2 ^ (Zpos (Pos.size m) + e))%Q.
Proof.
  pose proof (size_bounds m) as [Hlo Hhi]. rewrite !pow2_add.
  pose proof (pow2_pos e). split.
  - apply Qmult_le_compat_r; [|lra]. rewrite pow2_Z by lia. by rewrite <- Zle_Qle.
  - apply Qmult_lt_compat_r; [done|]. rewrite pow2_Z by lia. by rewrite <- Zlt_Qlt.
Qed.

(** An exact value [M * 2^e] that is representable has its low bits clear. *)
Lemma representable_mantissa (m : positive) (e : Z) :
  let f := fexp prec emax (Zpos (Pos.size m) + e) in
  e <= f -> representable (inject_Z (Zpos m) * 2 ^ e) ->
  Zpos m mod 2 ^ (f - e) = 0.
Proof.
  intros f Hef (N & E & HE & HN & Heq).
  assert (f = Z.max (Zpos (Pos.size m) + e - 53) (-1074)) as Hf by reflexivity.
  pose proof (scaled_size m e) as [Hlo Hhi]. pose proof (pos_scaled m e) as Hpos.
  assert (0 < N) as HNpos.
  { destruct (Z_lt_le_dec 0 N) as [|Hle]; [done|]. exfalso.
    assert (inject_Z N * 2 ^ E <= 0)%Q; [|lra].
    rewrite <- (Qmult_0_l (2 ^ E)). apply Qmult_le_compat_r; [|apply Qlt_le_weak, pow2_pos].
    change 0%Q with (inject_Z 0). by rewrite <- Zle_Qle. }
  assert (f <= E) as HfE.
  { assert (Zpos (Pos.size m) - 1 + e < 53 + E); [|lia].
    apply pow2_lt_inv. eapply Qle_lt_trans; [exact Hlo|]. rewrite Heq.
    rewrite pow2_add. apply Qmult_lt_compat_r; [apply pow2_pos|].
    rewrite pow2_Z by lia. rewrite <- Zlt_Qlt. lia. }
  assert (Zpos m = N * 2 ^ (E - f) * 2 ^ (f - e)) as ->.
  { apply inject_Z_injective. rewrite !inject_Z_mult, <- !pow2_Z by lia.
    apply (Qmult_inj_r _ _ (2 ^ e)); [pose proof (pow2_pos e); lra|].
    rewrite Heq. rewrite <- !Qmult_assoc, <- !pow2_add.
    by replace (E - f + (f - e + e)) with E by lia. }
  apply Z.mod_mul. pose proof (Z.pow_pos_nonneg 2 (f - e)). lia.
Qed.

Lemma round_core (s : bool) (m : positive) (e : Z) :
  e <= fexp prec emax (Zpos (Pos.size m) + e) ->
  Zpos (Pos.size m) + e <= 1023 ->
  rounds (sgnQ s (inject_Z (Zpos m) * 2 ^ e))
         (binary_round_aux prec emax s (Zpos m) e loc_Exact).
Proof.
  intros Hef Hde.
  destruct (binary_round_aux_value s m e Hef Hde) as (Hfin & Hsign & Hval).
  set (d := Zpos (Pos.size m)) in *. set (f := fexp prec emax (d + e)) in *.
  set (r := binary_round_aux prec emax s (Zpos m) e loc_Exact) in *.
  assert (f = Z.max (d + e - 53) (-1074)) as Hf by reflexivity.
  pose proof (scaled_size m e) as [Hlo Hhi]. fold d in Hlo, Hhi.
  pose proof (pos_scaled m e) as Hpos.
  set (v := (inject_Z (Zpos m) * 2 ^ e)%Q) in *.
  set (m1 := if f =? e then Zpos m else roundShift (Zpos m) (f - e)) in *.
  assert (Qabs (inject_Z m1 * 2 ^ f - v) <= 2 ^ (-53) * v + 2 ^ (-1075)
          /\ (representable v -> inject_Z m1 * 2 ^ f == v))%Q as [Herr Hex].
  { unfold m1. destruct (Z.eqb_spec f e) as [Hfe|Hfe].
    - rewrite Hfe. fold v. split; [|done].
      setoid_replace (v - v)%Q with 0%Q using relation Qeq by ring.
      change (Qabs 0) with 0%Q.
      pose proof (pow2_pos (-53)). pose proof (pow2_pos (-1075)).
      set (eps := (2 ^ (-53))%Q) in *. set (eta := (2 ^ (-1075))%Q) in *.
      clearbody eps eta.
      assert (0 <= eps * v)%Q by (apply Qmult_le_0_compat; lra). lra.
    - destruct (roundShift_spec (Zpos m) (f - e) ltac:(lia) ltac:(lia))
        as (_ & Hdist & Hexact).
      set (rs := roundShift (Zpos m) (f - e)) in *.
      assert (inject_Z rs * 2 ^ f - v
              == inject_Z (rs * 2 ^ (f - e) - Zpos m) * 2 ^ e)%Q as Hdiff.
      { assert (2 ^ f == 2 ^ (f - e) * 2 ^ e)%Q as Hp.
        { rewrite <- pow2_add. by replace (f - e + e) with f by lia. }
        unfold v. rewrite Hp.
        replace (rs * 2 ^ (f - e) - Zpos m) with (rs * 2 ^ (f - e) + - Zpos m) by lia.
        rewrite inject_Z_plus, inject_Z_opp, inject_Z_mult.
        rewrite <- pow2_Z by lia. ring. }
      split.
      + rewrite Hdiff, Qabs_Qmult.
        rewrite (Qabs_pos (2 ^ e)) by apply Qlt_le_weak, pow2_pos.
        assert (Qabs (inject_Z (rs * 2 ^ (f - e) - Zpos m)) * 2 ^ e
                <= 2 ^ (f - 1))%Q as Hhalf.
        { replace (f - 1) with (f - e - 1 + e) by lia. rewrite pow2_add.
          apply Qmult_le_compat_r; [|apply Qlt_le_weak, pow2_pos].
          rewrite pow2_Z by lia.
          assert (Qabs (inject_Z (rs * 2 ^ (f - e) - Zpos m))
                  = inject_Z (Z.abs (rs * 2 ^ (f - e) - Zpos m))) as -> by done.
          rewrite <- Zle_Qle.
          assert (2 ^ (f - e) = 2 * 2 ^ (f - e - 1)).
          { rewrite <- Z.pow_succ_r by lia. f_equal. lia. }
          lia. }
        eapply Qle_trans; [exact Hhalf|].
        pose proof (pow2_pos (-53)). pose proof (pow2_pos (-1075)).
        destruct (Z.max_spec (d + e - 53) (-1074)) as [[_ Hm]|[_ Hm]].
        * replace (f - 1) with (-1075) by lia.
          set (eps := (2 ^ (-53))%Q) in *. set (eta := (2 ^ (-1075))%Q) in *.
          clearbody eps eta.
          assert (0 <= eps * v)%Q by (apply Qmult_le_0_compat; lra). lra.
        * replace (f - 1) with (-53 + (d - 1 + e)) by lia. rewrite pow2_add.
          assert (2 ^ (-53) * 2 ^ (d - 1 + e) <= 2 ^ (-53) * v)%Q
            by (by apply Qmult_le_l).
          set (eps := (2 ^ (-53))%Q) in *. set (eta := (2 ^ (-1075))%Q) in *.
          set (lo := (2 ^ (d - 1 + e))%Q) in *.
          clearbody eps eta lo. lra.
      + intros Hrep.
        pose proof (representable_mantissa m e Hef Hrep) as Hmod.
        fold d in Hmod. fold f in Hmod. specialize (Hexact Hmod).
        rewrite Hexact in Hdiff.
        replace (Zpos m - Zpos m) with 0 in Hdiff by lia.
        rewrite Qmult_0_l in Hdiff. lra. }
  split; [done|].
  assert (Qabs (sgnQ s (inject_Z m1 * 2 ^ f) - sgnQ s v)
          == Qabs (inject_Z m1 * 2 ^ f - v))%Q as Habs.
  { destruct s; unfold sgnQ; [|done].
    setoid_replace (- (inject_Z m1 * 2 ^ f) - - v)%Q
      with (- (inject_Z m1 * 2 ^ f - v))%Q using relation Qeq by ring.
    apply Qabs_opp. }
  assert (Qabs (sgnQ s v) == v)%Q as Habsv.
  { destruct s; unfold sgnQ; [rewrite Qabs_opp|]; apply Qabs_pos; lra. }
  split; [by rewrite Hval, Habs, Habsv|].
  split.
  { intros Hrep. rewrite Hval.
    assert (representable v) as Hrepv.
    { destruct s; [|done]. destruct Hrep as (N & E & HE & HN & Heq).
      exists (- N), E. split; [done|]. split; [lia|].
      rewrite inject_Z_opp. unfold sgnQ in Heq.
      setoid_replace (- inject_Z N * 2 ^ E)%Q with (- (inject_Z N * 2 ^ E))%Q using relation Qeq by ring.
      rewrite <- Heq. ring. }
    specialize (Hex Hrepv). destruct s; unfold sgnQ; by rewrite Hex. }
  rewrite Hsign. split; intros Hv; destruct s; unfold sgnQ in Hv; (done || lra).
Qed.

Lemma rounds_zero (s : bool) : rounds 0 (S754_zero s).
Proof.
  split; [done|]. split.
  { cbn [SF2Q]. setoid_replace (0 - 0)%Q with 0%Q using relation Qeq by ring.
    change (Qabs 0) with 0%Q.
    pose proof (pow2_pos (-53)). pose proof (pow2_pos (-1075)).
    set (eps := (2 ^ (-53))%Q) in *. set (eta := (2 ^ (-1075))%Q) in *.
    clearbody eps eta. lra. }
  split; [done|]. split; intros H; lra.
Qed.

Lemma rounds_self (r : spec_float) : SFfinite r = true -> rounds (SF2Q r) r.
Proof.
  intros Hfin. split; [done|]. split.
  { setoid_replace (SF2Q r - SF2Q r)%Q with 0%Q using relation Qeq by ring.
    change (Qabs 0) with 0%Q.
    pose proof (pow2_pos (-53)) as Heps. pose proof (pow2_pos (-1075)) as Heta.
    pose proof (Qabs_nonneg (SF2Q r)) as Habs.
    set (eps := (2 ^ (-53))%Q) in *. set (eta := (2 ^ (-1075))%Q) in *.
    set (a := Qabs (SF2Q r)) in *. clearbody eps eta a.
    assert (0 <= eps * a)%Q by (apply Qmult_le_0_compat; lra). lra. }
  split; [done|].
  destruct r as [s|s| |s m e]; try done.
  rewrite SF2Q_finite. pose proof (pos_scaled m e).
  cbn [SFsign]. split; intros Hv; destruct s; unfold sgnQ in Hv; (done || lra).
Qed.

Lemma valid_finite (s : bool) (m : positive) (e : Z) :
  SpecFloat.valid_binary prec emax (S754_finite s m e) = true ->
  Zpos (Pos.size m) <= 53 /\ -1074 <= e <= 971
  /\ (Zpos (Pos.size m) = 53 \/ e = -1074).
Proof.
  unfold valid_binary, bounded, canonical_mantissa.
  rewrite digits2_size. intros [Hc He]%andb_true_iff.
  apply Z.eqb_eq in Hc. apply Z.leb_le in He.
  unfold fexp, emin, prec, emax in *. lia.
Qed.

Lemma size_mul (a b : positive) :
  Zpos (Pos.size a) + Zpos (Pos.size b) - 1 <= Zpos (Pos.size (a * b))
  <= Zpos (Pos.size a) + Zpos (Pos.size b).
Proof.
  pose proof (size_bounds a) as [Alo Ahi]. pose proof (size_bounds b) as [Blo Bhi].
  pose proof (size_bounds (a * b)) as [Plo Phi].
  set (da := Zpos (Pos.size a)) in *. set (db := Zpos (Pos.size b)) in *.
  assert (0 < da) by done. assert (0 < db) by done.
  rewrite Pos2Z.inj_mul in *.
  assert (0 < 2 ^ (da - 1)) by (apply Z.pow_pos_nonneg; lia).
  assert (0 < 2 ^ (db - 1)) by (apply Z.pow_pos_nonneg; lia).
  split.
  - assert (da - 1 + (db - 1) < Zpos (Pos.size (a * b))); [|lia].
    apply (Z.pow_lt_mono_r_iff 2); [lia|lia|].
    rewrite Z.pow_add_r by lia. nia.
  - apply size_le_of_lt. rewrite Pos2Z.inj_mul, Z.pow_add_r by lia. nia.
Qed.

Lemma size_of_value (m : positive) (e : Z) :
  (inject_Z (Zpos m) * 2 ^ e < 2 ^ 1023)%Q -> Zpos (Pos.size m) + e <= 1023.
Proof.
  intros Hv. pose proof (scaled_size m e) as [Hlo _].
  assert (Zpos (Pos.size m) - 1 + e < 1023); [|lia].
  apply pow2_lt_inv. by eapply Qle_lt_trans.
Qed.

Lemma Qabs_sgnQ (s : bool) (q : Q) : (Qabs (sgnQ s q) == Qabs q)%Q.
Proof. destruct s; unfold sgnQ; [apply Qabs_opp|done]. Qed.

Lemma sgnQ_mul (sx sy : bool) (a b : Q) :
  (sgnQ sx a * sgnQ sy b == sgnQ (xorb sx sy) (a * b))%Q.
Proof. destruct sx, sy; unfold sgnQ; cbn [xorb]; ring. Qed.

Lemma SFmul_rounds (x y : spec_float) :
  SpecFloat.valid_binary prec emax x = true -> SpecFloat.valid_binary prec emax y = true ->
  SFfinite x = true -> SFfinite y = true ->
  (Qabs (SF2Q x * SF2Q y) < 2 ^ 1023)%Q ->
  rounds (SF2Q x * SF2Q y) (SFmul prec emax x y).
Proof.
  intros Vx Vy Fx Fy Hv.
  destruct x as [sx|sx| |sx mx ex], y as [sy|sy| |sy my ey]; try done;
    try (apply (rounds_ext 0); [cbn [SF2Q]; ring|apply rounds_zero]).
  - cbn [SFmul].
    assert (SF2Q (S754_finite sx mx ex) * SF2Q (S754_finite sy my ey)
            == sgnQ (xorb sx sy) (inject_Z (Zpos (mx * my)) * 2 ^ (ex + ey)))%Q as Heq.
    { rewrite !SF2Q_finite, sgnQ_mul. rewrite Pos2Z.inj_mul, inject_Z_mult.
      destruct (xorb sx sy); unfold sgnQ; rewrite pow2_add; ring. }
    rewrite Heq, Qabs_sgnQ in Hv.
    rewrite Qabs_pos in Hv by apply Qlt_le_weak, pos_scaled.
    apply (rounds_ext (sgnQ (xorb sx sy)
                         (inject_Z (Zpos (mx * my)) * 2 ^ (ex + ey))));
      [by symmetry|].
    pose proof (valid_finite _ _ _ Vx) as (Hdx & Hex & Hcx).
    pose proof (valid_finite _ _ _ Vy) as (Hdy & Hey & Hcy).
    pose proof (size_mul mx my) as [Hlo Hhi].
    apply round_core; [|by apply size_of_value].
    unfold fexp, emin, prec, emax. lia.
Qed.

Lemma iter_xO (m k : positive) : Zpos (Pos.iter xO m k) = Zpos m * 2 ^ Zpos k.
Proof.
  induction k as [|k IH] using Pos.peano_ind.
  - cbn [Pos.iter]. rewrite Z.pow_1_r. lia.
  - rewrite Pos.iter_succ, Pos2Z.inj_xO, IH, Pos2Z.inj_succ, Z.pow_succ_r by lia.
    lia.
Qed.

Lemma shl_align_value (m : positive) (e e' : Z) :
  e' <= e ->
  let '(m', e2) := shl_align m e e' in
  e2 = e' /\ Zpos m' = Zpos m * 2 ^ (e - e').
Proof.
  intros He. unfold shl_align. destruct (e' - e) as [|p|p] eqn:Hd; [|lia|].
  - assert (e = e') as -> by lia. rewrite Z.sub_diag, Z.pow_0_r. lia.
  - split; [done|]. rewrite iter_xO. f_equal. f_equal. lia.
Qed.

Lemma binary_round_rounds (s : bool) (m : positive) (e : Z) :
  (inject_Z (Zpos m) * 2 ^ e < 2 ^ 1023)%Q ->
  rounds (sgnQ s (inject_Z (Zpos m) * 2 ^ e)) (binary_round prec emax s m e).
Proof.
  intros Hv. unfold binary_round. rewrite digits2_size.
  set (f := fexp prec emax (Zpos (Pos.size m) + e)).
  destruct (Z_lt_le_dec f e) as [Hfe|Hfe].
  - pose proof (shl_align_value m e f ltac:(lia)) as Hal.
    destruct (shl_align m e f) as [m' e2]. destruct Hal as [-> Hm'].
    assert (inject_Z (Zpos m') * 2 ^ f == inject_Z (Zpos m) * 2 ^ e)%Q as Heq.
    { rewrite Hm', inject_Z_mult, <- pow2_Z by lia.
      rewrite <- Qmult_assoc, <- pow2_add. by replace (e - f + f) with e by lia. }
    assert (Zpos (Pos.size m') = Zpos (Pos.size m) + (e - f)) as Hsize.
    { apply size_unique. rewrite Hm'. pose proof (size_bounds m) as [Hlo Hhi].
      assert (0 < 2 ^ (e - f)) by (apply Z.pow_pos_nonneg; lia).
      replace (Zpos (Pos.size m) + (e - f) - 1)
        with (Zpos (Pos.size m) - 1 + (e - f)) by lia.
      rewrite !Z.pow_add_r by lia. nia. }
    apply (rounds_ext (sgnQ s (inject_Z (Zpos m') * 2 ^ f)));
      [by destruct s; unfold sgnQ; rewrite Heq|].
    apply round_core.
    + rewrite Hsize. replace (Zpos (Pos.size m) + (e - f) + f)
        with (Zpos (Pos.size m) + e) by lia. fold f. lia.
    + apply size_of_value. by rewrite Heq.
  - assert (shl_align m e f = (m, e)) as ->.
    { unfold shl_align. destruct (f - e) eqn:Hd; [done|done|lia]. }
    apply round_core; [done|by apply size_of_value].
Qed.

Lemma binary_normalize_rounds (S e : Z) :
  (Qabs (inject_Z S * 2 ^ e) < 2 ^ 1023)%Q ->
  rounds (inject_Z S * 2 ^ e) (binary_normalize prec emax S e false).
Proof.
  intros Hv. destruct S as [|m|m]; cbn [binary_normalize].
  - apply (rounds_ext 0); [ring|apply rounds_zero].
  - rewrite Qabs_pos in Hv by apply Qlt_le_weak, pos_scaled.
    by apply (binary_round_rounds false).
  - assert (inject_Z (Zneg m) * 2 ^ e == sgnQ true (inject_Z (Zpos m) * 2 ^ e))%Q
      as Heq.
    { change (Zneg m) with (- Zpos m). rewrite inject_Z_opp. unfold sgnQ. ring. }
    rewrite Heq, Qabs_sgnQ in Hv.
    rewrite Qabs_pos in Hv by apply Qlt_le_weak, pos_scaled.
    apply (rounds_ext _ _ _ (Qeq_sym _ _ Heq)).
    by apply binary_round_rounds.
Qed.

Lemma aligned_value (s : bool) (m : positive) (e ez : Z) :
  ez <= e ->
  (inject_Z (cond_Zopp s (Zpos (fst (shl_align m e ez)))) * 2 ^ ez
   == SF2Q (S754_finite s m e))%Q.
Proof.
  intros He. pose proof (shl_align_value m e ez He) as Hal.
  destruct (shl_align m e ez) as [m' e2]. destruct Hal as [_ Hm']. cbn [fst].
  rewrite SF2Q_finite.
  assert (inject_Z (Zpos m') * 2 ^ ez == inject_Z (Zpos m) * 2 ^ e)%Q as Heq.
  { rewrite Hm', inject_Z_mult, <- pow2_Z by lia.
    rewrite <- Qmult_assoc, <- pow2_add. by replace (e - ez + ez) with e by lia. }
  destruct s; unfold sgnQ, cond_Zopp; [|done].
  rewrite inject_Z_opp, <- Heq. ring.
Qed.

Lemma SFadd_rounds (x y : spec_float) :
  SFfinite x = true -> SFfinite y = true ->
  (Qabs (SF2Q x + SF2Q y) < 2 ^ 1023)%Q ->
  rounds (SF2Q x + SF2Q y) (SFadd prec emax x y).
Proof.
  intros Fx Fy Hv.
  destruct x as [sx|sx| |sx mx ex], y as [sy|sy| |sy my ey]; try done.
  - apply (rounds_ext 0); [cbn [SF2Q]; ring|]. cbn [SFadd].
    destruct sx, sy; apply rounds_zero.
  - apply (rounds_ext (SF2Q (S754_finite sy my ey))); [cbn [SF2Q]; ring|].
    by apply rounds_self.
  - apply (rounds_ext (SF2Q (S754_finite sx mx ex))); [cbn [SF2Q]; ring|].
    by apply rounds_self.
  - cbn [SFadd].
    assert (inject_Z (cond_Zopp sx (Zpos (fst (shl_align mx ex (Z.min ex ey))))
                      + cond_Zopp sy (Zpos (fst (shl_align my ey (Z.min ex ey)))))
            * 2 ^ Z.min ex ey
            == SF2Q (S754_finite sx mx ex) + SF2Q (S754_finite sy my ey))%Q as Heq.
    { rewrite inject_Z_plus, Qmult_plus_distr_l.
      rewrite !aligned_value by lia. done. }
    apply (rounds_ext _ _ _ Heq). apply binary_normalize_rounds. by rewrite Heq.
Qed.

Lemma SFsub_rounds (x y : spec_float) :
  SFfinite x = true -> SFfinite y = true ->
  (Qabs (SF2Q x - SF2Q y) < 2 ^ 1023)%Q ->
  rounds (SF2Q x - SF2Q y) (SFsub prec emax x y).
Proof.
  intros Fx Fy Hv.
  destruct x as [sx|sx| |sx mx ex], y as [sy|sy| |sy my ey]; try done.
  - apply (rounds_ext 0); [cbn [SF2Q]; ring|]. cbn [SFsub].
    destruct sx, sy; apply rounds_zero.
  - apply (rounds_ext (SF2Q (S754_finite (negb sy) my ey))).
    { rewrite !SF2Q_finite. cbn [SF2Q]. destruct sy; unfold sgnQ; cbn [negb]; ring. }
    by apply rounds_self.
  - apply (rounds_ext (SF2Q (S754_finite sx mx ex))); [cbn [SF2Q]; ring|].
    by apply rounds_self.
  - cbn [SFsub].
    assert (inject_Z (cond_Zopp sx (Zpos (fst (shl_align mx ex (Z.min ex ey))))
                      - cond_Zopp sy (Zpos (fst (shl_align my ey (Z.min ex ey)))))
            * 2 ^ Z.min ex ey
            == SF2Q (S754_finite sx mx ex) - SF2Q (S754_finite sy my ey))%Q as Heq.
    { unfold Z.sub at 1. rewrite inject_Z_plus, inject_Z_opp.
      setoid_replace ((inject_Z (cond_Zopp sx (Zpos (fst (shl_align mx ex (Z.min ex ey)))))
                       + - inject_Z (cond_Zopp sy (Zpos (fst (shl_align my ey (Z.min ex ey))))))
                      * 2 ^ Z.min ex ey)%Q
        with (inject_Z (cond_Zopp sx (Zpos (fst (shl_align mx ex (Z.min ex ey)))))
                * 2 ^ Z.min ex ey
              - inject_Z (cond_Zopp sy (Zpos (fst (shl_align my ey (Z.min ex ey)))))
                * 2 ^ Z.min ex ey)%Q using relation Qeq by ring.
      rewrite !aligned_value by lia. done. }
    apply (rounds_ext _ _ _ Heq). apply binary_normalize_rounds. by rewrite Heq.
Qed.

(** *** The operations of [PrimFloat] *)

Lemma mul_rounds (x y : float) :
  finite x = true -> finite y = true ->
  (Qabs (F2Q x * F2Q y) < 2 ^ 1023)%Q ->
  rounds (F2Q x * F2Q y) (Prim2SF (x * y)).
Proof.
  intros Fx Fy Hv. rewrite FloatAxioms.mul_spec.
  apply SFmul_rounds; try done; apply Prim2SF_valid.
Qed.

Lemma add_rounds (x y : float) :
  finite x = true -> finite y = true ->
  (Qabs (F2Q x + F2Q y) < 2 ^ 1023)%Q ->
  rounds (F2Q x + F2Q y) (Prim2SF (x + y)).
Proof. intros Fx Fy Hv. rewrite FloatAxioms.add_spec. by apply SFadd_rounds. Qed.

Lemma sub_rounds (x y : float) :
  finite x = true -> finite y = true ->
  (Qabs (F2Q x - F2Q y) < 2 ^ 1023)%Q ->
  rounds (F2Q x - F2Q y) (Prim2SF (x - y)).
Proof. intros Fx Fy Hv. rewrite FloatAxioms.sub_spec. by apply SFsub_rounds. Qed.

Lemma opp_value (x : float) :
  finite (- x) = finite x /\ (F2Q (- x) == - F2Q x)%Q.
Proof.
  unfold finite, F2Q. rewrite FloatAxioms.opp_spec.
  destruct (Prim2SF x) as [s|s| |s m e]; cbn [SFopp SFfinite SF2Q]; try done.
  split; [done|].
  change (SF2Q (S754_finite (negb s) m e) == - SF2Q (S754_finite s m e))%Q.
  rewrite !SF2Q_finite. destruct s; unfold sgnQ; cbn [negb]; ring.
Qed.

Lemma abs_value (x : float) :
  finite (abs x) = finite x /\ (F2Q (abs x) == Qabs (F2Q x))%Q
  /\ signbit (abs x) = false.
Proof.
  unfold finite, F2Q, signbit. rewrite FloatAxioms.abs_spec.
  destruct (Prim2SF x) as [s|s| |s m e]; cbn [SFabs SFfinite SF2Q SFsign];
    try done.
  split; [done|]. split; [|done].
  change (SF2Q (S754_finite false m e) == Qabs (SF2Q (S754_finite s m e)))%Q.
  rewrite !SF2Q_finite, Qabs_sgnQ. unfold sgnQ. symmetry.
  apply Qabs_pos, Qlt_le_weak, pos_scaled.
Qed.

(** *** Integers below 2^53 are computed exactly *)

Lemma representable_Z (n : Z) : Z.abs n < 2 ^ 53 -> representable (inject_Z n).
Proof. intros Hn. exists n, 0. split; [lia|]. split; [done|]. cbn. ring. Qed.

Lemma small_Z (n : Z) : Z.abs n < 2 ^ 53 -> (Qabs (inject_Z n) < 2 ^ 1023)%Q.
Proof.
  intros Hn. change (Qabs (inject_Z n)) with (inject_Z (Z.abs n)).
  eapply Qlt_trans; [rewrite <- Zlt_Qlt; exact Hn|].
  rewrite (pow2_Z 1023) by lia. rewrite <- Zlt_Qlt.
  apply Z.pow_lt_mono_r; lia.
Qed.

Lemma int_mul (x y : float) (a b : Z) :
  isInt x a -> isInt y b -> Z.abs (a * b) < 2 ^ 53 -> isInt (x * y) (a * b).
Proof.
  intros [Fx Vx] [Fy Vy] Hab.
  assert (F2Q x * F2Q y == inject_Z (a * b))%Q as Heq
    by (by rewrite Vx, Vy, inject_Z_mult).
  destruct (mul_rounds x y Fx Fy) as (Hf & _ & Hex & _).
  { rewrite Heq. by apply small_Z. }
  split; [done|]. unfold F2Q. rewrite Hex; [done|].
  apply (representable_ext (inject_Z (a * b))); [by symmetry|].
  by apply representable_Z.
Qed.

Lemma int_add (x y : float) (a b : Z) :
  isInt x a -> isInt y b -> Z.abs (a + b) < 2 ^ 53 -> isInt (x + y) (a + b).
Proof.
  intros [Fx Vx] [Fy Vy] Hab.
  assert (F2Q x + F2Q y == inject_Z (a + b))%Q as Heq
    by (by rewrite Vx, Vy, inject_Z_plus).
  destruct (add_rounds x y Fx Fy) as (Hf & _ & Hex & _).
  { rewrite Heq. by apply small_Z. }
  split; [done|]. unfold F2Q. rewrite Hex; [done|].
  apply (representable_ext (inject_Z (a + b))); [by symmetry|].
  by apply representable_Z.
Qed.

Lemma int_sub (x y : float) (a b : Z) :
  isInt x a -> isInt y b -> Z.abs (a - b) < 2 ^ 53 -> isInt (x - y) (a - b).
Proof.
  intros [Fx Vx] [Fy Vy] Hab.
  assert (F2Q x - F2Q y == inject_Z (a - b))%Q as Heq.
  { rewrite Vx, Vy. unfold Z.sub. by rewrite inject_Z_plus, inject_Z_opp. }
  destruct (sub_rounds x y Fx Fy) as (Hf & _ & Hex & _).
  { rewrite Heq. by apply small_Z. }
  split; [done|]. unfold F2Q. rewrite Hex; [done|].
  apply (representable_ext (inject_Z (a - b))); [by symmetry|].
  by apply representable_Z.
Qed.

Lemma int_opp (x : float) (a : Z) : isInt x a -> isInt (- x) (- a).
Proof.
  intros [Fx Vx]. destruct (opp_value x) as (Hf & Hv).
  split; [congruence|]. by rewrite Hv, Vx, inject_Z_opp.
Qed.

Lemma int_abs (x : float) (a : Z) : isInt x a -> isInt (abs x) (Z.abs a).
Proof.
  intros [Fx Vx]. destruct (abs_value x) as (Hf & Hv & _).
  split; [congruence|]. by rewrite Hv, Vx.
Qed.

Lemma of_pos_int (p : positive) : Zpos p < 2 ^ 53 -> isInt (of_pos p) (Zpos p).
Proof.
  assert (isInt 1 1) as H1 by (split; vm_compute; reflexivity).
  assert (isInt 2 2) as H2 by (split; vm_compute; reflexivity).
  induction p as [p IH|p IH|]; intros Hp; cbn [of_pos].
  - change (Zpos p~1) with (2 * Zpos p + 1).
    apply int_add; [apply int_mul; [done|apply IH; lia|lia]|done|lia].
  - change (Zpos p~0) with (2 * Zpos p).
    apply int_mul; [done|apply IH; lia|lia].
  - done.
Qed.

Lemma of_Z_int (z : Z) : Z.abs z < 2 ^ 53 -> isInt (of_Z z) z.
Proof.
  intros Hz. destruct z as [|p|p]; cbn [of_Z].
  - split; vm_compute; reflexivity.
  - apply of_pos_int. lia.
  - change (Zneg p) with (- Zpos p). apply int_opp, of_pos_int. lia.
Qed.

(** *** A finite binary64 is determined by its sign and its value *)

Lemma canonical_unique (m1 m2 : positive) (e1 e2 : Z) :
  SpecFloat.valid_binary prec emax (S754_finite false m1 e1) = true ->
  SpecFloat.valid_binary prec emax (S754_finite false m2 e2) = true ->
  (inject_Z (Zpos m1) * 2 ^ e1 == inject_Z (Zpos m2) * 2 ^ e2)%Q ->
  m1 = m2 /\ e1 = e2.
Proof.
  intros V1 V2 Heq.
  assert (forall m1 m2 e1 e2,
            SpecFloat.valid_binary prec emax (S754_finite false m1 e1) = true ->
            SpecFloat.valid_binary prec emax (S754_finite false m2 e2) = true ->
            (inject_Z (Zpos m1) * 2 ^ e1 == inject_Z (Zpos m2) * 2 ^ e2)%Q ->
            e1 <= e2 -> m1 = m2 /\ e1 = e2) as Hle.
  { clear. intros m1 m2 e1 e2 V1 V2 Heq Hle.
    assert (Zpos m1 = Zpos m2 * 2 ^ (e2 - e1)) as Hm.
    { apply inject_Z_injective. rewrite inject_Z_mult, <- pow2_Z by lia.
      apply (Qmult_inj_r _ _ (2 ^ e1)); [pose proof (pow2_pos e1); lra|].
      rewrite Heq, <- Qmult_assoc, <- pow2_add.
      by replace (e2 - e1 + e1) with e2 by lia. }
    assert (Zpos (Pos.size m1) = Zpos (Pos.size m2) + (e2 - e1)) as Hsize.
    { apply size_unique. rewrite Hm. pose proof (size_bounds m2) as [Hlo Hhi].
      assert (0 < 2 ^ (e2 - e1)) by (apply Z.pow_pos_nonneg; lia).
      replace (Zpos (Pos.size m2) + (e2 - e1) - 1)
        with (Zpos (Pos.size m2) - 1 + (e2 - e1)) by lia.
      rewrite !Z.pow_add_r by lia. nia. }
    unfold SpecFloat.valid_binary, bounded, canonical_mantissa in V1, V2.
    rewrite digits2_size in V1, V2.
    apply andb_true_iff in V1 as [C1%Z.eqb_eq _], V2 as [C2%Z.eqb_eq _].
    assert (e1 = e2) as -> by (unfold fexp in *; lia).
    split; [|done]. rewrite Z.sub_diag, Z.pow_0_r in Hm. lia. }
  destruct (Z_le_gt_dec e1 e2) as [H|H]; [by apply Hle|].
  destruct (Hle m2 m1 e2 e1) as [-> ->]; [done|done|by symmetry|lia|done].
Qed.

Lemma float_ext (x y : float) :
  finite x = true -> finite y = true -> signbit x = signbit y ->
  (F2Q x == F2Q y)%Q -> x = y.
Proof.
  unfold finite, signbit, F2Q. intros Fx Fy Hs Hv. apply Prim2SF_inj.
  pose proof (Prim2SF_valid x) as Vx. pose proof (Prim2SF_valid y) as Vy.
  destruct (Prim2SF x) as [sx|sx| |sx mx ex], (Prim2SF y) as [sy|sy| |sy my ey];
    try done; cbn [SFsign] in Hs; subst sy.
  - done.
  - exfalso. rewrite SF2Q_finite in Hv. cbn [SF2Q] in Hv.
    pose proof (pos_scaled my ey). destruct sx; unfold sgnQ in Hv; lra.
  - exfalso. rewrite SF2Q_finite in Hv. cbn [SF2Q] in Hv.
    pose proof (pos_scaled mx ex). destruct sx; unfold sgnQ in Hv; lra.
  - rewrite !SF2Q_finite in Hv.
    destruct (canonical_unique mx my ex ey) as [-> ->]; [done|done| |done].
    destruct sx; unfold sgnQ in Hv; lra.
Qed.

Lemma positive_signbit (x : float) :
  finite x = true -> (0 < F2Q x)%Q -> signbit x = false.
Proof.
  intros Fx Hv. apply (rounds_self (Prim2SF x) Fx). exact Hv.
Qed.

(** *** Absolute error of one operation on moderate operands *)

Lemma rounds_near (v : Q) (r : spec_float) :
  rounds v r -> (Qabs v <= 2 ^ 34)%Q -> (Qabs (SF2Q r - v) <= 2 ^ (-18))%Q.
Proof.
  intros (_ & Herr & _) Hv. eapply Qle_trans; [exact Herr|].
  assert (2 ^ (-53) * Qabs v <= 2 ^ (-53) * 2 ^ 34)%Q as H1
    by (apply Qmult_le_l; [apply pow2_pos|done]).
  rewrite <- pow2_add in H1. cbn [Z.add Z.pos_sub Pos.pred_double Z.succ_double
    Z.pred_double Z.double] in H1.
  assert (2 ^ (-53 + 34) + 2 ^ (-1075) <= 2 ^ (-18))%Q as H2.
  { change (-18) with (-19 + 1). rewrite (pow2_succ (-19)).
    change (-53 + 34) with (-19).
    pose proof (pow2_le (-1075) (-19) ltac:(lia)).
    set (a := (2 ^ (-19))%Q) in *. set (b := (2 ^ (-1075))%Q) in *.
    clearbody a b. lra. }
  change (-53 + 34) with (-19) in *.
  set (a := (2 ^ (-19))%Q) in *. set (b := (2 ^ (-1075))%Q) in *.
  set (c := (2 ^ (-18))%Q) in *. set (t := (2 ^ (-53) * Qabs v)%Q) in *.
  clearbody a b c t. lra.
Qed.

Lemma bound_small (v : Q) : (Qabs v <= 2 ^ 34)%Q -> (Qabs v < 2 ^ 1023)%Q.
Proof.
  intros Hv. eapply Qle_lt_trans; [exact Hv|]. by apply pow2_lt.
Qed.

Lemma mul_near (x y : float) :
  finite x = true -> finite y = true -> (Qabs (F2Q x * F2Q y) <= 2 ^ 34)%Q ->
  finite (x * y) = true
  /\ (Qabs (F2Q (x * y) - F2Q x * F2Q y) <= 2 ^ (-18))%Q.
Proof.
  intros Fx Fy Hv. pose proof (mul_rounds x y Fx Fy (bound_small _ Hv)) as Hr.
  split; [apply Hr|by apply rounds_near].
Qed.

Lemma add_near (x y : float) :
  finite x = true -> finite y = true -> (Qabs (F2Q x + F2Q y) <= 2 ^ 34)%Q ->
  finite (x + y) = true
  /\ (Qabs (F2Q (x + y) - (F2Q x + F2Q y)) <= 2 ^ (-18))%Q.
Proof.
  intros Fx Fy Hv. pose proof (add_rounds x y Fx Fy (bound_small _ Hv)) as Hr.
  split; [apply Hr|by apply rounds_near].
Qed.

(** *** The bilinear blend *)

Lemma unitWeight_spec (w : float) :
  unitWeight w = true -> finite w = true /\ (0 <= F2Q w)%Q /\ (F2Q w <= 1)%Q.
Proof.
  unfold unitWeight. intros [[Hf H0%Qle_bool_iff]%andb_true_iff H1%Qle_bool_iff]%andb_true_iff.
  done.
Qed.

Lemma weightPair_spec (u : float) :
  weightPair u = true ->
  unitWeight u = true /\ unitWeight (1 - u) = true
  /\ (1 - 2 ^ (-53) <= F2Q u + F2Q (1 - u))%Q
  /\ (F2Q u + F2Q (1 - u) <= 1 + 2 ^ (-53))%Q.
Proof.
  unfold weightPair.
  intros [[Hu Hu']%andb_true_iff Hs%Qle_bool_iff]%andb_true_iff.
  split; [done|]. split; [done|].
  apply Qabs_Qle_condition in Hs as [Hlo Hhi].
  set (e := (2 ^ (-53))%Q) in *. clearbody e. split; lra.
Qed.

(** One product with a weight of the unit interval. *)
Lemma mul_unit (x a : float) (X : Q) :
  finite x = true -> unitWeight a = true ->
  (Qabs (F2Q x) <= X)%Q -> (X <= 2 ^ 34)%Q ->
  finite (x * a) = true
  /\ (Qabs (F2Q (x * a) - F2Q x * F2Q a) <= 2 ^ (-18))%Q
  /\ (Qabs (F2Q (x * a)) <= X + 2 ^ (-18))%Q.
Proof.
  intros Fx Ha HX HXb. apply unitWeight_spec in Ha as (Fa & Ha0 & Ha1).
  apply Qabs_Qle_condition in HX as [HXl HXh].
  assert (- X <= F2Q x * F2Q a /\ F2Q x * F2Q a <= X)%Q as [Hpl Hph]
    by (split; nra).
  destruct (mul_near x a Fx Fa) as [Hf Herr].
  { apply Qabs_Qle_condition. split; lra. }
  split; [done|]. split; [done|].
  apply Qabs_Qle_condition in Herr as [Hel Heh].
  apply Qabs_Qle_condition.
  set (d := (2 ^ (-18))%Q) in *. clearbody d. split; lra.
Qed.

(** One term [c * a * b] of the blend. *)
Lemma term_near (c a b : float) (K : Q) :
  finite c = true -> unitWeight a = true -> unitWeight b = true ->
  (Qabs (F2Q c) <= K)%Q -> (K <= 2 ^ 31)%Q ->
  finite (c * a * b) = true
  /\ (Qabs (F2Q (c * a * b) - F2Q c * F2Q a * F2Q b) <= 2 * 2 ^ (-18))%Q
  /\ (Qabs (F2Q (c * a * b)) <= K + 2 * 2 ^ (-18))%Q.
Proof.
  intros Fc Ha Hb HK HKb.
  assert (2 ^ 31 + 2 ^ (-18) <= 2 ^ 34)%Q as Hnum by (vm_compute; discriminate).
  destruct (mul_unit c a K Fc Ha HK) as (F1 & E1 & B1);
    [set (k := (2 ^ 34)%Q) in *; set (k' := (2 ^ 31)%Q) in *;
     assert (0 < 2 ^ (-18))%Q by apply pow2_pos;
     set (d := (2 ^ (-18))%Q) in *; clearbody k k' d; lra|].
  destruct (mul_unit (c * a) b (K + 2 ^ (-18)) F1 Hb B1) as (F2 & E2 & B2);
    [set (k := (2 ^ 34)%Q) in *; set (k' := (2 ^ 31)%Q) in *;
     set (d := (2 ^ (-18))%Q) in *; clearbody k k' d; lra|].
  apply unitWeight_spec in Hb as (_ & Hb0 & Hb1).
  split; [done|].
  apply Qabs_Qle_condition in E1 as [E1l E1h], E2 as [E2l E2h].
  set (d := (2 ^ (-18))%Q) in *.
  assert (0 < d)%Q as Hd by apply pow2_pos. clearbody d.
  split; [|lra].
  apply Qabs_Qle_condition.
  set (m := F2Q (c * a)) in *. set (t := F2Q (c * a * b)) in *.
  set (C := F2Q c) in *. set (A := F2Q a) in *. set (B := F2Q b) in *.
  clearbody m t C A B.
  assert (- d <= (m - C * A) * B /\ (m - C * A) * B <= d)%Q as [H1 H2]
    by (split; nra).
  split; lra.
Qed.

Lemma add_bounded (x y : float) (X Y : Q) :
  finite x = true -> finite y = true ->
  (Qabs (F2Q x) <= X)%Q -> (Qabs (F2Q y) <= Y)%Q -> (X + Y <= 2 ^ 34)%Q ->
  finite (x + y) = true
  /\ (Qabs (F2Q (x + y) - (F2Q x + F2Q y)) <= 2 ^ (-18))%Q
  /\ (Qabs (F2Q (x + y)) <= X + Y + 2 ^ (-18))%Q.
Proof.
  intros Fx Fy HX HY Hb.
  apply Qabs_Qle_condition in HX as [HXl HXh], HY as [HYl HYh].
  destruct (add_near x y Fx Fy) as [Hf Herr].
  { apply Qabs_Qle_condition. set (k := (2 ^ 34)%Q) in *. clearbody k. split; lra. }
  split; [done|]. split; [done|].
  apply Qabs_Qle_condition in Herr as [Hel Heh]. apply Qabs_Qle_condition.
  set (d := (2 ^ (-18))%Q) in *. clearbody d. split; lra.
Qed.

(** The blend of lines 498-510 in binary64 is within 2^-14 of the same
    expression on the values of its operands. *)
Lemma bilinear_near (c0 c1 c2 c3 u v : float) :
  finite c0 = true -> finite c1 = true -> finite c2 = true -> finite c3 = true ->
  (Qabs (F2Q c0) <= 2 ^ 31)%Q -> (Qabs (F2Q c1) <= 2 ^ 31)%Q ->
  (Qabs (F2Q c2) <= 2 ^ 31)%Q -> (Qabs (F2Q c3) <= 2 ^ 31)%Q ->
  weightPair u = true -> weightPair v = true ->
  finite (bilinear c0 c1 c2 c3 u v) = true
  /\ (Qabs (F2Q (bilinear c0 c1 c2 c3 u v)
            - (F2Q c0 * F2Q (1 - u) * F2Q (1 - v) + F2Q c1 * F2Q u * F2Q (1 - v)
               + F2Q c2 * F2Q u * F2Q v + F2Q c3 * F2Q (1 - u) * F2Q v))
      <= 2 ^ (-14))%Q.
Proof.
  intros F0 F1 F2 F3 B0 B1 B2 B3 Hu Hv.
  apply weightPair_spec in Hu as (Wu & Wu' & _), Hv as (Wv & Wv' & _).
  assert (2 ^ 31 <= 2 ^ 31)%Q as Hle by apply Qle_refl.
  destruct (term_near c0 (1 - u) (1 - v) _ F0 Wu' Wv' B0 Hle) as (T0f & T0e & T0b).
  destruct (term_near c1 u (1 - v) _ F1 Wu Wv' B1 Hle) as (T1f & T1e & T1b).
  destruct (term_near c2 u v _ F2 Wu Wv B2 Hle) as (T2f & T2e & T2b).
  destruct (term_near c3 (1 - u) v _ F3 Wu' Wv B3 Hle) as (T3f & T3e & T3b).
  assert (0 < 2 ^ (-18) /\ 4 * 2 ^ 31 + 10 * 2 ^ (-18) <= 2 ^ 34
          /\ 11 * 2 ^ (-18) <= 2 ^ (-14))%Q as (Hd & Hk & Hr)
    by (vm_compute; repeat split; discriminate).
  set (d := (2 ^ (-18))%Q) in *. set (k := (2 ^ 31)%Q) in *.
  set (k34 := (2 ^ 34)%Q) in *. set (r := (2 ^ (-14))%Q) in *.
  assert (0 <= k)%Q as Hk0 by (vm_compute; discriminate).
  destruct (add_bounded _ _ _ _ T0f T1f T0b T1b) as (S1f & S1e & S1b);
    [fold d; fold k34; clearbody d k k34 r; lra|].
  destruct (add_bounded _ _ _ _ S1f T2f S1b T2b) as (S2f & S2e & S2b);
    [fold d; fold k34; clearbody d k k34 r; lra|].
  destruct (add_bounded _ _ _ _ S2f T3f S2b T3b) as (S3f & S3e & S3b);
    [fold d; fold k34; clearbody d k k34 r; lra|].
  fold d in S1e, S2e, S3e.
  split; [exact S3f|]. unfold bilinear.
  apply Qabs_Qle_condition in T0e as [? ?], T1e as [? ?], T2e as [? ?],
    T3e as [? ?], S1e as [? ?], S2e as [? ?], S3e as [? ?].
  apply Qabs_Qle_condition. clearbody d k k34 r. split; lra.
Qed.

Lemma weights_sum (u v : float) :
  weightPair u = true -> weightPair v = true ->
  let W := ((F2Q u + F2Q (1 - u)) * (F2Q v + F2Q (1 - v)))%Q in
  (1 - 3 * 2 ^ (-53) <= W)%Q /\ (W <= 1 + 3 * 2 ^ (-53))%Q.
Proof.
  intros Hu Hv W. subst W.
  apply weightPair_spec in Hu as (_ & _ & Hul & Huh), Hv as (_ & _ & Hvl & Hvh).
  assert (0 < 2 ^ (-53) /\ 2 ^ (-53) <= 1 # 2)%Q as [He0 He1]
    by (vm_compute; split; [done|discriminate]).
  set (e := (2 ^ (-53))%Q) in *.
  set (a := (F2Q u + F2Q (1 - u))%Q) in *. set (b := (F2Q v + F2Q (1 - v))%Q) in *.
  clearbody e a b. split; nra.
Qed.

Lemma product_bound (x y X Y : Q) :
  (- X <= x)%Q -> (x <= X)%Q -> (- Y <= y)%Q -> (y <= Y)%Q ->
  (- (X * Y) <= x * y)%Q /\ (x * y <= X * Y)%Q.
Proof.
  intros Hx1 Hx2 Hy1 Hy2. apply Qabs_Qle_condition. rewrite Qabs_Qmult.
  apply Qmult_le_compat_nonneg; (split; [apply Qabs_nonneg|]);
    by apply Qabs_Qle_condition.
Qed.

Lemma round_between (q : Q) (lo hi : Z) :
  (inject_Z lo - (1 # 2) <= q)%Q -> (q < inject_Z hi + (1 # 2))%Q ->
  lo <= Qfloor (q + (1 # 2)) <= hi.
Proof.
  intros Hlo Hhi. split.
  - rewrite <- (Qfloor_Z lo). apply Qfloor_resp_le. lra.
  - pose proof (Qfloor_le (q + (1 # 2))) as Hf.
    assert (inject_Z (Qfloor (q + (1 # 2))) < inject_Z (hi + 1))%Q as Hlt
      by (rewrite inject_Z_plus; change (inject_Z 1) with 1%Q; lra).
    rewrite <- Zlt_Qlt in Hlt. lia.
Qed.

(** The coordinate blended from four integers between [lo] and [hi] rounds to
    an integer between [lo] and [hi]. *)
Lemma bilinear_range (c0 c1 c2 c3 u v : float) (n0 n1 n2 n3 lo hi : Z) :
  isInt c0 n0 -> isInt c1 n1 -> isInt c2 n2 -> isInt c3 n3 ->
  lo <= n0 <= hi -> lo <= n1 <= hi -> lo <= n2 <= hi -> lo <= n3 <= hi ->
  - 2 ^ 31 <= lo -> hi <= 2 ^ 31 ->
  weightPair u = true -> weightPair v = true ->
  exists s, Math_round (bilinear c0 c1 c2 c3 u v) = Some s /\ lo <= s <= hi.
Proof.
  intros [F0 V0] [F1 V1] [F2 V2] [F3 V3] H0 H1 H2 H3 Hlo Hhi Hu Hv.
  assert (forall n, lo <= n <= hi -> (Qabs (inject_Z n) <= 2 ^ 31)%Q) as Hb.
  { intros n Hn. change (Qabs (inject_Z n)) with (inject_Z (Z.abs n)).
    rewrite (pow2_Z 31) by lia. rewrite <- Zle_Qle. lia. }
  destruct (bilinear_near c0 c1 c2 c3 u v) as [Ff Herr]; try done;
    try (rewrite ?V0, ?V1, ?V2, ?V3; by apply Hb).
  unfold Math_round. rewrite Ff. eexists. split; [reflexivity|].
  pose proof (weights_sum u v Hu Hv) as [Wl Wh]. cbv zeta in Wl, Wh.
  apply weightPair_spec in Hu as (Wu & Wu' & _), Hv as (Wv & Wv' & _).
  apply unitWeight_spec in Wu as (_ & U0 & U1), Wu' as (_ & U0' & U1'),
    Wv as (_ & V0' & V1'), Wv' as (_ & V0'' & V1'').
  rewrite V0, V1, V2, V3 in Herr.
  apply Qabs_Qle_condition in Herr as [El Eh].
  set (S := F2Q (bilinear c0 c1 c2 c3 u v)) in *.
  set (U := F2Q u) in *. set (U' := F2Q (1 - u)) in *.
  set (V := F2Q v) in *. set (V' := F2Q (1 - v)) in *.
  enough ((inject_Z lo - (1 # 2) <= S)%Q /\ (S < inject_Z hi + (1 # 2))%Q)
    as [? ?] by (by apply round_between).
  clearbody S U U' V V'.
  assert (0 <= U' * V' /\ 0 <= U * V' /\ 0 <= U * V /\ 0 <= U' * V)%Q
    as (W0 & W1 & W2 & W3)
    by (repeat split; by apply Qmult_le_0_compat).
  assert (forall n : Z, lo <= n <= hi ->
            (0 <= inject_Z n - inject_Z lo)%Q
            /\ (0 <= inject_Z hi - inject_Z n)%Q) as Hn.
  { intros n [Ha Hb']. rewrite Zle_Qle in Ha, Hb'. split; lra. }
  destruct (Hn _ H0) as [A0 B0], (Hn _ H1) as [A1 B1], (Hn _ H2) as [A2 B2],
    (Hn _ H3) as [A3 B3].
  assert (- 2 ^ 31 <= inject_Z lo /\ inject_Z hi <= 2 ^ 31)%Q as [Ll Hh].
  { rewrite (pow2_Z 31) by lia. rewrite <- inject_Z_opp, <- !Zle_Qle. lia. }
  assert (inject_Z lo <= inject_Z hi)%Q as Hlh by (rewrite <- Zle_Qle; lia).
  assert (0 < 2 ^ (-53) /\ 2 ^ (-14) + 3 * 2 ^ (-53) * 2 ^ 31 < 1 # 2)%Q
    as [He Hnum] by (vm_compute; done).
  set (e := (2 ^ (-53))%Q) in *. set (r := (2 ^ (-14))%Q) in *.
  set (k := (2 ^ 31)%Q) in *.
  set (L := inject_Z lo) in *. set (H := inject_Z hi) in *.
  set (N0 := inject_Z n0) in *. set (N1 := inject_Z n1) in *.
  set (N2 := inject_Z n2) in *. set (N3 := inject_Z n3) in *.
  set (P0 := (U' * V')%Q) in *. set (P1 := (U * V')%Q) in *.
  set (P2 := (U * V)%Q) in *. set (P3 := (U' * V)%Q) in *.
  assert ((U + U') * (V + V') == P0 + P1 + P2 + P3)%Q as HW
    by (unfold P0, P1, P2, P3; ring).
  rewrite HW in Wl, Wh.
  assert (N0 * U' * V' + N1 * U * V' + N2 * U * V + N3 * U' * V
          == N0 * P0 + N1 * P1 + N2 * P2 + N3 * P3)%Q as HS
    by (unfold P0, P1, P2, P3; ring).
  rewrite HS in El, Eh.
  clearbody e r k L H N0 N1 N2 N3 P0 P1 P2 P3.
  assert (0 <= (N0 - L) * P0 /\ 0 <= (N1 - L) * P1
          /\ 0 <= (N2 - L) * P2 /\ 0 <= (N3 - L) * P3)%Q as (? & ? & ? & ?)
    by (repeat split; by apply Qmult_le_0_compat).
  assert (0 <= (H - N0) * P0 /\ 0 <= (H - N1) * P1
          /\ 0 <= (H - N2) * P2 /\ 0 <= (H - N3) * P3)%Q as (? & ? & ? & ?)
    by (repeat split; by apply Qmult_le_0_compat).
  set (W := (P0 + P1 + P2 + P3)%Q) in *.
  assert (- (3 * e * k) <= L * (W - 1) /\ H * (W - 1) <= 3 * e * k)%Q as [? ?].
  { clearbody W.
    destruct (product_bound L (W - 1) k (3 * e)) as [? ?]; [lra..|].
    destruct (product_bound H (W - 1) k (3 * e)) as [? ?]; [lra..|].
    split; lra. }
  unfold W in *. split; lra.
Qed.

(** ** Stage 9: rectification *)

Lemma sortCorners_degenerate (p : Point) :
  sortCornersForPerspective [p; p; p; p] = Some [p; p; p; p].
Proof.
  unfold sortCornersForPerspective, topLeftOf, topRightOf, bottomRightOf,
    bottomLeftOf. simpl. by rewrite !Z.ltb_irrefl.
Qed.

Lemma sortCorners_four (corners : list Point) :
  corners <> [] ->
  exists c0 c1 c2 c3, sortCornersForPerspective corners = Some [c0; c1; c2; c3].
Proof.
  destruct corners as [|p rest]; [done|]. intros _.
  unfold sortCornersForPerspective. eauto.
Qed.

Lemma toLong_integer (z : Z) : toLong (inject_Z z) = z.
Proof.
  unfold toLong. destruct (Qle_bool 0 (inject_Z z));
    [apply Qfloor_Z | apply Qceiling_Z].
Qed.

Lemma toLong_outputHeight : toLong (F2Q outputHeight) = 1131.
Proof. vm_compute. reflexivity. Qed.

Lemma Qceiling_outputHeight : Qceiling (F2Q outputHeight) = 1132.
Proof. vm_compute. reflexivity. Qed.

Lemma getImageData_Some (c : Canvas) (sw sh : Q) :
  0 < toLong sw -> 0 < toLong sh ->
  exists d, getImageData c sw sh = Some (mkImageData (toLong sw) (toLong sh) d).
Proof.
  intros Hw Hh. unfold getImageData.
  destruct (Z.leb_spec (toLong sw) 0); [lia|].
  destruct (Z.leb_spec (toLong sh) 0); [lia|].
  simpl. eauto.
Qed.

Lemma getImageData_None (c : Canvas) (sw sh : Q) :
  toLong sw <= 0 \/ toLong sh <= 0 -> getImageData c sw sh = None.
Proof.
  intros Hempty. unfold getImageData.
  destruct (Z.leb_spec (toLong sw) 0); [done|].
  destruct (Z.leb_spec (toLong sh) 0); [done|]. lia.
Qed.

(** [enhanceDocument] succeeds on a non-empty size and keeps the canvas's
    dimensions and the length of its bitmap. *)
Lemma enhanceDocument_Some (ctx : Canvas) (w h : Q) :
  0 < toLong w -> 0 < toLong h ->
  exists out, enhanceDocument ctx w h = Some out
    /\ cwidth out = cwidth ctx /\ cheight out = cheight ctx
    /\ length (bitmap out) = length (bitmap ctx).
Proof.
  intros Hw Hh. unfold enhanceDocument.
  destruct (getImageData_Some ctx w h Hw Hh) as [d ->].
  eexists. split; [done|]. simpl. by rewrite length_imap.
Qed.

Lemma putImageData_shape (c : Canvas) (imageData : ImageData) :
  cwidth (putImageData c imageData) = cwidth c
  /\ cheight (putImageData c imageData) = cheight c
  /\ length (bitmap (putImageData c imageData)) = length (bitmap c).
Proof.
  unfold putImageData. cbn [cwidth cheight bitmap].
  by rewrite length_imap.
Qed.

Lemma createCanvas_shape (w h : Q) :
  cwidth (createCanvas w h) = toLong w
  /\ cheight (createCanvas w h) = toLong h
  /\ length (bitmap (createCanvas w h)) = Z.to_nat (4 * toLong w * toLong h).
Proof.
  unfold createCanvas. cbn [cwidth cheight bitmap].
  by rewrite length_replicate.
Qed.

Lemma applyPerspectiveCorrection_Some (canvas : Canvas) (corners : list Point)
    (destCtx : Canvas) (destWidth : Z) (destHeight : float) :
  0 < cwidth canvas -> 0 < cheight canvas -> corners <> [] ->
  0 < destWidth -> 0 < toLong (F2Q destHeight) ->
  exists out,
    applyPerspectiveCorrection canvas corners destCtx destWidth destHeight = Some out
    /\ cwidth out = cwidth destCtx /\ cheight out = cheight destCtx
    /\ length (bitmap out) = length (bitmap destCtx).
Proof.
  intros Hw Hh Hne Hdw Hdh. unfold applyPerspectiveCorrection.
  destruct (getImageData_Some canvas (inject_Z (cwidth canvas))
              (inject_Z (cheight canvas))) as [d ->];
    [by rewrite toLong_integer..|].
  unfold createImageData. rewrite toLong_integer.
  destruct (Z.leb_spec destWidth 0); [lia|].
  destruct (Z.leb_spec (toLong (F2Q destHeight)) 0); [lia|].
  cbn [orb]. cbv iota.
  destruct (sortCorners_four corners Hne) as (c0 & c1 & c2 & c3 & ->).
  cbv zeta.
  match goal with
  | |- exists out, enhanceDocument ?ctx ?w ?h = _ /\ _ =>
      destruct (enhanceDocument_Some ctx w h) as (out & -> & Hcw & Hch & Hlen)
  end.
  - by rewrite toLong_integer.
  - done.
  - exists out. split; [reflexivity|].
    rewrite Hcw, Hch, Hlen.
    match goal with
    | |- context [putImageData ?c ?i] =>
        destruct (putImageData_shape c i) as (-> & -> & ->)
    end.
    done.
Qed.

(** On a frame without pixels the first [getImageData] throws. *)
Lemma applyPerspectiveCorrection_empty (canvas : Canvas) (corners : list Point)
    (destCtx : Canvas) (destWidth : Z) (destHeight : float) :
  cwidth canvas <= 0 \/ cheight canvas <= 0 ->
  applyPerspectiveCorrection canvas corners destCtx destWidth destHeight = None.
Proof.
  intros Hempty. unfold applyPerspectiveCorrection.
  by rewrite getImageData_None by (by rewrite !toLong_integer).
Qed.

Lemma cropAndCorrectDocument_size (canvas : Canvas) (corners : list Point) :
  0 < cwidth canvas -> 0 < cheight canvas -> corners <> [] ->
  exists out, cropAndCorrectDocument canvas corners = Some out
    /\ cwidth out = 800 /\ cheight out = 1131
    /\ Z.of_nat (length (bitmap out)) = 4 * 800 * 1131.
Proof.
  intros Hw Hh Hne. unfold cropAndCorrectDocument. cbv zeta.
  destruct (createCanvas_shape (inject_Z outputWidth) (F2Q outputHeight))
    as (Hcw & Hch & Hlen).
  rewrite toLong_integer in Hcw, Hlen. rewrite toLong_outputHeight in Hch, Hlen.
  generalize dependent (createCanvas (inject_Z outputWidth) (F2Q outputHeight)).
  intros outputCanvas Hcw Hch Hlen.
  destruct (applyPerspectiveCorrection_Some canvas corners outputCanvas
              outputWidth outputHeight Hw Hh Hne)
    as (out & -> & Hcw' & Hch' & Hlen').
  - reflexivity.
  - rewrite toLong_outputHeight. reflexivity.
  - exists out. split; [reflexivity|]. unfold outputWidth in *. lia.
Qed.

Lemma toLong_800 : toLong 800 = 800.
Proof. reflexivity. Qed.

Lemma toLong_800_by_ratio : toLong (F2Q (800 / aspectRatio)) = 1131.
Proof. vm_compute. reflexivity. Qed.

Section CaptureLemmas.
Variable resample : Canvas -> Q -> Q -> Q -> Q -> Q -> Q -> Z -> Z -> Z -> Z.

Lemma drawImage_Some (ctx image : Canvas) (sx sy sw sh dw dh : Q) :
  0 < cwidth image -> 0 < cheight image ->
  exists out, drawImage resample ctx image sx sy sw sh dw dh = Some out
    /\ cwidth out = cwidth ctx /\ cheight out = cheight ctx
    /\ length (bitmap out) = length (bitmap ctx).
Proof.
  intros Hw Hh. unfold drawImage.
  destruct (Z.leb_spec (cwidth image) 0); [lia|].
  destruct (Z.leb_spec (cheight image) 0); [lia|].
  eexists. split; [reflexivity|]. cbn [cwidth cheight bitmap].
  by rewrite length_imap.
Qed.

Lemma smartCrop_size (canvas : Canvas) :
  0 < cwidth canvas -> 0 < cheight canvas ->
  exists out, smartCrop resample canvas = Some out
    /\ cwidth out = 800 /\ cheight out = 1131
    /\ Z.of_nat (length (bitmap out)) = 4 * 800 * 1131.
Proof.
  intros Hw Hh. unfold smartCrop. cbv zeta.
  destruct (createCanvas_shape 800 (F2Q (800 / aspectRatio))) as (Hcw & Hch & Hlen).
  rewrite toLong_800 in Hcw, Hlen. rewrite toLong_800_by_ratio in Hch, Hlen.
  generalize dependent (createCanvas 800 (F2Q (800 / aspectRatio))).
  intros croppedCanvas Hcw Hch Hlen.
  match goal with
  | |- context [drawImage _ ?ctx ?img ?sx ?sy ?sw ?sh ?dw ?dh] =>
      destruct (drawImage_Some ctx img sx sy sw sh dw dh Hw Hh)
        as (ctx' & -> & Hcw' & Hch' & Hlen')
  end.
  destruct (enhanceDocument_Some ctx' (inject_Z (cwidth croppedCanvas))
              (inject_Z (cheight croppedCanvas)))
    as (out & -> & Hcw'' & Hch'' & Hlen'').
  - rewrite toLong_integer. lia.
  - rewrite toLong_integer. lia.
  - exists out. split; [reflexivity|]. lia.
Qed.

(** On a frame without pixels [drawImage] throws. *)
Lemma smartCrop_empty (canvas : Canvas) :
  cwidth canvas <= 0 \/ cheight canvas <= 0 -> smartCrop resample canvas = None.
Proof.
  intros Hempty. unfold smartCrop, drawImage. cbv zeta.
  destruct (Z.leb_spec (cwidth canvas) 0); [done|].
  destruct (Z.leb_spec (cheight canvas) 0); [done|]. lia.
Qed.

Lemma rectify_size (canvas : Canvas) (quad : option (list Point)) :
  0 < cwidth canvas -> 0 < cheight canvas ->
  match quad with Some corners => length corners = 4%nat | None => True end ->
  exists out, rectify resample canvas quad = Some out
    /\ cwidth out = 800 /\ cheight out = 1131
    /\ Z.of_nat (length (bitmap out)) = 4 * 800 * 1131.
Proof.
  intros Hw Hh Hquad. destruct quad as [corners|]; simpl.
  - apply cropAndCorrectDocument_size; [done..|].
    by destruct corners.
  - by apply smartCrop_size.
Qed.

Lemma rectify_empty (canvas : Canvas) (quad : option (list Point)) :
  cwidth canvas <= 0 \/ cheight canvas <= 0 ->
  rectify resample canvas quad = None.
Proof.
  intros Hempty. destruct quad as [corners|]; simpl.
  - by apply applyPerspectiveCorrection_empty.
  - by apply smartCrop_empty.
Qed.

End CaptureLemmas.

(** C3, as the code has it.  On a frame with pixels, with a quadrilateral of
    four points or none, [rectify] succeeds, and its output is 800 pixels
    wide and 1131 pixels high, 1131 being the integer part of
    800 / (210 / 297); its bitmap holds 4 bytes for each of these pixels. *)
Theorem rectify_output_size
    (resample : Canvas -> Q -> Q -> Q -> Q -> Q -> Q -> Z -> Z -> Z -> Z)
    (canvas : Canvas) (quad : option (list Point)) :
  0 < cwidth canvas -> 0 < cheight canvas ->
  match quad with Some corners => length corners = 4%nat | None => True end ->
  exists out,
    rectify resample canvas quad = Some out
    /\ cwidth out = outputWidth
    /\ cheight out = toLong (F2Q (of_Z outputWidth / aspectRatio))
    /\ cheight out = 1131
    /\ Z.of_nat (length (bitmap out)) = 4 * (cwidth out * cheight out).
Proof.
  intros Hw Hh Hquad.
  destruct (rectify_size resample canvas quad Hw Hh Hquad)
    as (out & Hout & Hcw & Hch & Hlen).
  exists out. rewrite Hcw, Hch, Hlen.
  change (of_Z outputWidth / aspectRatio)%float with outputHeight.
  rewrite toLong_outputHeight. unfold outputWidth.
  split; [exact Hout|]. repeat split; lia.
Qed.

Lemma rectify_output_size_witness :
  let canvas := mkCanvas 2 1 [10; 20; 30; 255; 40; 50; 60; 255] in
  let quad := Some [mkPoint 0 0; mkPoint 1 0; mkPoint 1 0; mkPoint 0 0] in
  exists out,
    rectify (fun _ _ _ _ _ _ _ _ _ _ => 0) canvas quad = Some out
    /\ cwidth out = outputWidth
    /\ cheight out = toLong (F2Q (of_Z outputWidth / aspectRatio))
    /\ cheight out = 1131
    /\ Z.of_nat (length (bitmap out)) = 4 * (cwidth out * cheight out).
Proof.
  apply rectify_output_size; reflexivity.
Defined.

(** C3, as stated, fails on a frame without pixels, which [captureDocument]
    hands over when the video has no frame yet: [getImageData] throws on the
    path of a detected quadrilateral and [drawImage] on the fallback path, so
    [rectify] returns no buffer. *)
Lemma rectify_empty_frame :
  let canvas := mkCanvas 0 0 [] in
  let quad := Some [mkPoint 0 0; mkPoint 1 0; mkPoint 1 1; mkPoint 0 1] in
  rectify (fun _ _ _ _ _ _ _ _ _ _ => 0) canvas quad = None
  /\ rectify (fun _ _ _ _ _ _ _ _ _ _ => 0) canvas None = None.
Proof. split; apply rectify_empty; left; simpl; lia. Qed.

(** ** binary64: comparisons and NaN *)

Lemma SFcompare_refl (s : spec_float) :
  SFcompare s s = Some Eq \/ SFcompare s s = None.
Proof.
  destruct s as [[]|[]| |[] m e]; simpl; auto;
    rewrite Z.compare_refl, Pos.compare_cont_refl; auto.
Qed.

Lemma is_nan_Prim2SF (x : float) : is_nan x = true <-> Prim2SF x = S754_nan.
Proof.
  unfold is_nan. rewrite FloatAxioms.eqb_spec. unfold SFeqb. split.
  - destruct (Prim2SF x) as [[]|[]| |[] m e]; simpl; try done;
      rewrite Z.compare_refl, Pos.compare_cont_refl; done.
  - intros ->. reflexivity.
Qed.

Lemma ltb_irrefl (x : float) : (x <? x)%float = false.
Proof.
  rewrite FloatAxioms.ltb_spec. unfold SFltb.
  by destruct (SFcompare_refl (Prim2SF x)) as [-> | ->].
Qed.

Lemma ltb_leb (x y : float) : (x <? y)%float = true -> (x <=? y)%float = true.
Proof.
  rewrite FloatAxioms.ltb_spec, FloatAxioms.leb_spec. unfold SFltb, SFleb.
  by destruct (SFcompare (Prim2SF x) (Prim2SF y)) as [[]|].
Qed.

Lemma is_nan_mul_l (x y : float) : is_nan x = true -> is_nan (x * y) = true.
Proof. rewrite !is_nan_Prim2SF, FloatAxioms.mul_spec. by intros ->. Qed.

Lemma is_nan_div_l (x y : float) : is_nan x = true -> is_nan (x / y) = true.
Proof. rewrite !is_nan_Prim2SF, FloatAxioms.div_spec. by intros ->. Qed.

Lemma is_nan_sub_l (x y : float) : is_nan x = true -> is_nan (x - y) = true.
Proof. rewrite !is_nan_Prim2SF, FloatAxioms.sub_spec. by intros ->. Qed.

Lemma is_nan_abs (x : float) : is_nan x = true -> is_nan (abs x) = true.
Proof. rewrite !is_nan_Prim2SF, FloatAxioms.abs_spec. by intros ->. Qed.

Lemma ltb_nan_l (x y : float) : is_nan x = true -> (x <? y)%float = false.
Proof. rewrite is_nan_Prim2SF, FloatAxioms.ltb_spec. by intros ->. Qed.

(** 0 / (0 * f) and 0 / (f * 0) are NaN whatever [f] is. *)
Lemma zero_div_zero_mul (f : float) :
  is_nan (0 / (0 * f)) = true /\ is_nan (0 / (f * 0)) = true.
Proof.
  rewrite !is_nan_Prim2SF, !FloatAxioms.div_spec, !FloatAxioms.mul_spec.
  change (Prim2SF 0) with (S754_zero false).
  by destruct (Prim2SF f) as [[]|[]| |[] m e].
Qed.

(** ** Stage 7: the geometric validator *)

Lemma acosArgument_of_nan (p1 p2 p3 : Point) :
  is_nan (cosine p1 p2 p3) = true -> acosArgument p1 p2 p3 = nan.
Proof.
  intros H. unfold acosArgument, Math_min. rewrite H.
  change (is_nan 1) with false. reflexivity.
Qed.

Lemma acosArgument_in_range (p1 p2 p3 : Point) :
  is_nan (cosine p1 p2 p3) = false ->
  (-1 <=? acosArgument p1 p2 p3)%float = true
  /\ (acosArgument p1 p2 p3 <=? 1)%float = true.
Proof.
  intros H. unfold acosArgument, Math_min. rewrite H.
  change (is_nan 1) with false. cbn [orb].
  destruct (cosine p1 p2 p3 <? 1)%float eqn:Hhi; [|by vm_compute].
  unfold Math_max. rewrite H. change (is_nan (-1)) with false. cbn [orb].
  destruct (-1 <? cosine p1 p2 p3)%float eqn:Hlo; [|by vm_compute].
  split; by apply ltb_leb.
Qed.

Lemma cosine_degenerate (p1 p2 p3 : Point) :
  p1 = p2 \/ p3 = p2 -> is_nan (cosine p1 p2 p3) = true.
Proof.
  unfold cosine. intros [-> | ->]; cbv zeta; rewrite !Z.sub_diag.
  - change (of_Z (0 * (px p3 - px p2) + 0 * (py p3 - py p2))) with 0%float.
    change (PrimFloat.sqrt (of_Z (0 * 0 + 0 * 0))) with 0%float.
    apply zero_div_zero_mul.
  - rewrite !Z.mul_0_r.
    change (of_Z (0 + 0)) with 0%float.
    change (PrimFloat.sqrt 0) with 0%float.
    apply zero_div_zero_mul.
Qed.

Section ValidatorLemmas.
Variable Math_acos : float -> float.
Hypothesis acos_nan : is_nan (Math_acos nan) = true.

Lemma calculateAngle_degenerate (p1 p2 p3 : Point) :
  p1 = p2 \/ p3 = p2 ->
  is_nan (calculateAngle Math_acos p1 p2 p3) = true
  /\ angleOk (calculateAngle Math_acos p1 p2 p3) = false.
Proof.
  intros Hdeg%cosine_degenerate.
  assert (is_nan (calculateAngle Math_acos p1 p2 p3) = true) as Hnan.
  { unfold calculateAngle. rewrite (acosArgument_of_nan _ _ _ Hdeg).
    by apply is_nan_div_l, is_nan_mul_l. }
  split; [done|]. unfold angleOk.
  by apply ltb_nan_l, is_nan_abs, is_nan_sub_l.
Qed.

Lemma cornerAngles_four (a b c d : Point) :
  cornerAngles Math_acos [a; b; c; d]
  = [calculateAngle Math_acos a b c; calculateAngle Math_acos b c d;
     calculateAngle Math_acos c d a; calculateAngle Math_acos d a b].
Proof. reflexivity. Qed.

Lemma isValidRectangle_degenerate (a b c d : Point) :
  a = b \/ b = c \/ c = d \/ d = a ->
  isValidRectangle Math_acos [a; b; c; d] = false.
Proof.
  intros H. unfold isValidRectangle. cbn [length Nat.eqb negb].
  rewrite cornerAngles_four. cbn [forallb].
  destruct H as [H | [H | [H | H]]].
  - destruct (calculateAngle_degenerate a b c) as [_ ->]; [by left|].
    reflexivity.
  - destruct (calculateAngle_degenerate b c d) as [_ ->]; [by left|].
    by rewrite andb_false_r.
  - destruct (calculateAngle_degenerate c d a) as [_ ->]; [by left|].
    by rewrite !andb_false_r.
  - destruct (calculateAngle_degenerate d a b) as [_ ->]; [by left|].
    by rewrite !andb_false_r.
Qed.

End ValidatorLemmas.

(** C9, as the code has it.  The cosine goes through
    [Math.max(-1, Math.min(1, cos))]: when it is a number, the argument of
    [Math.acos] lies in [-1, 1].  When an edge at the vertex has zero length
    the quotient is 0/0, the clamp leaves the NaN in place, the angle is NaN,
    the tolerance comparison on it is false, and the validator rejects the
    quadrilateral. *)
Theorem acosArgument_clamped_or_nan (Math_acos : float -> float) (a b c d : Point) :
  is_nan (Math_acos nan) = true ->
  (is_nan (cosine a b c) = false ->
     (-1 <=? acosArgument a b c)%float = true
     /\ (acosArgument a b c <=? 1)%float = true)
  /\ (a = b \/ c = b ->
        is_nan (acosArgument a b c) = true
        /\ is_nan (calculateAngle Math_acos a b c) = true
        /\ angleOk (calculateAngle Math_acos a b c) = false)
  /\ (a = b \/ b = c \/ c = d \/ d = a ->
        isValidRectangle Math_acos [a; b; c; d] = false).
Proof.
  intros Hacos. split; [|split].
  - apply acosArgument_in_range.
  - intros Hdeg. split.
    + by rewrite (acosArgument_of_nan _ _ _ (cosine_degenerate _ _ _ Hdeg)).
    + by apply calculateAngle_degenerate.
  - by apply isValidRectangle_degenerate.
Qed.

Lemma acosArgument_clamped_or_nan_witness :
  let a := mkPoint 0 0 in
  let b := mkPoint 10 0 in
  let c := mkPoint 10 10 in
  (is_nan (cosine a b c) = false ->
     (-1 <=? acosArgument a b c)%float = true
     /\ (acosArgument a b c <=? 1)%float = true)
  /\ (a = b \/ c = b ->
        is_nan (acosArgument a b c) = true
        /\ is_nan (calculateAngle MathRef.acos a b c) = true
        /\ angleOk (calculateAngle MathRef.acos a b c) = false)
  /\ (a = b \/ b = c \/ c = c \/ c = a ->
        isValidRectangle MathRef.acos [a; b; c; c] = false).
Proof.
  apply (acosArgument_clamped_or_nan MathRef.acos
           (mkPoint 0 0) (mkPoint 10 0) (mkPoint 10 10) (mkPoint 10 10)).
  vm_compute. reflexivity.
Defined.

(** The clamp at work on collinear vertices: the quotient computed for the
    edge vector (2, 3) against itself exceeds 1, against its opposite it is
    below -1, and the argument of [Math.acos] is 1 and -1. *)
Example clamp_collinear :
  let o := mkPoint 0 0 in
  let p := mkPoint 2 3 in
  let q := mkPoint (-2) (-3) in
  (1 <? cosine p o p)%float = true /\ acosArgument p o p = 1%float
  /\ (cosine p o q <? -1)%float = true /\ acosArgument p o q = (-1)%float.
Proof. repeat split; vm_compute; reflexivity. Qed.

(** C9, as stated, fails: at a repeated vertex the argument of [Math.acos]
    is NaN, not a value of [-1, 1], and the angle that reaches the tolerance
    comparison is NaN. *)
Lemma acosArgument_nan_at_repeated_vertex :
  let p := mkPoint 0 0 in
  let q := mkPoint 10 0 in
  is_nan (acosArgument p p q) = true
  /\ ((-1 <=? acosArgument p p q) && (acosArgument p p q <=? 1))%float = false
  /\ is_nan (calculateAngle MathRef.acos p p q) = true.
Proof. repeat split; vm_compute; reflexivity. Qed.



Lemma shoelace_four (a b c d : Point) :
  shoelace [a; b; c; d]
  = (px a * py b - px b * py a) + (px b * py c - px c * py b)
    + (px c * py d - px d * py c) + (px d * py a - px a * py d).
Proof.
  assert (shoelace [a; b; c; d]
          = 0 + px a * py b - px b * py a + px b * py c - px c * py b
            + px c * py d - px d * py c + px d * py a - px a * py d) as ->
    by reflexivity.
  ring.
Qed.


Lemma foldl_rel {A B I} (R : nat -> A -> B -> Prop) (f : A -> I -> A)
    (g : B -> I -> B) (l : list I) (a : A) (b : B) :
  R 0%nat a b ->
  (forall k i a b, l !! k = Some i -> R k a b -> R (S k) (f a i) (g b i)) ->
  R (length l) (foldl f a l) (foldl g b l).
Proof.
  revert R a b. induction l as [|x l IH]; intros R a b H0 Hstep; [done|].
  cbn [foldl length]. apply (IH (fun k => R (S k))).
  - by apply (Hstep 0%nat).
  - intros k i a' b' Hk. by apply (Hstep (S k)).
Qed.

Lemma length_range1 (n : Z) : 0 <= n -> length (range 0 n 1) = Z.to_nat n.
Proof.
  intros Hn. unfold range. rewrite length_fmap, length_seqZ.
  f_equal. rewrite Z.div_1_r. lia.
Qed.

(** Below 2^53 the binary64 sum of [calculatePolygonArea] is the shoelace sum
    over the integers. *)
Lemma shoelaceSum_int (points : list Point) (B : Z) :
  (forall p, p ∈ points -> Z.abs (px p) <= B /\ Z.abs (py p) <= B) ->
  2 * Z.of_nat (length points) * (B * B) < 2 ^ 53 ->
  isInt (shoelaceSum points) (shoelace points)
  /\ Z.abs (shoelace points) < 2 ^ 53.
Proof.
  intros Hb Hn. unfold shoelaceSum, shoelace, for_. cbv zeta.
  set (n := Z.of_nat (length points)) in *.
  pose proof (foldl_rel
    (fun k (acc : float) (z : Z) =>
       isInt acc z /\ Z.abs z <= 2 * Z.of_nat k * (B * B))
    (fun area i =>
       match aget points i, aget points ((i + 1) mod n) with
       | Some pi, Some pj =>
         (area + of_Z (px pi) * of_Z (py pj) - of_Z (px pj) * of_Z (py pi))%float
       | _, _ => area
       end)
    (fun area i =>
       match aget points i, aget points ((i + 1) mod n) with
       | Some pi, Some pj => area + px pi * py pj - px pj * py pi
       | _, _ => area
       end)
    (range 0 n 1) 0%float 0) as Hfold.
  rewrite length_range1 in Hfold by lia.
  destruct Hfold as [Hint Hbound].
  - split; [split; vm_compute; reflexivity|lia].
  - intros k i acc z Hk [Hacc Hz].
    apply lookup_lt_Some in Hk. rewrite length_range1 in Hk by lia.
    assert (Z.of_nat k + 1 <= n) as Hkn by lia.
    assert (0 <= B * B) as HBB by nia.
    assert (2 * (Z.of_nat k + 1) * (B * B) < 2 ^ 53) as Hk'.
    { eapply Z.le_lt_trans; [|exact Hn].
      apply Z.mul_le_mono_nonneg_r; [done|lia]. }
    destruct (aget points i) as [pi|] eqn:Hi; [|split; [done|lia]].
    destruct (aget points ((i + 1) mod n)) as [pj|] eqn:Hj; [|split; [done|lia]].
    assert (forall p j, aget points j = Some p -> p ∈ points) as Hmem.
    { intros p j. unfold aget. destruct (j <? 0); [done|].
      apply list_elem_of_lookup_2. }
    destruct (Hb pi (Hmem _ _ Hi)) as [Hix Hiy].
    destruct (Hb pj (Hmem _ _ Hj)) as [Hjx Hjy].
    assert (0 <= B) as HB by lia.
    assert (Z.abs (px pi * py pj) <= B * B /\ Z.abs (px pj * py pi) <= B * B)
      as [Hp1 Hp2] by (rewrite !Z.abs_mul; split; nia).
    assert (B < 2 ^ 53) as HB53 by nia.
    assert (isInt (of_Z (px pi) * of_Z (py pj)) (px pi * py pj)) as I1
      by (apply int_mul; [apply of_Z_int; lia..|lia]).
    assert (isInt (of_Z (px pj) * of_Z (py pi)) (px pj * py pi)) as I2
      by (apply int_mul; [apply of_Z_int; lia..|lia]).
    split; [|lia].
    apply int_sub; [apply int_add; [done|done|lia]|done|lia].
  - split; [done|]. unfold n in *. lia.
Qed.

Lemma of_Z_signbit (z : Z) : 0 <= z < 2 ^ 53 -> signbit (of_Z z) = false.
Proof.
  intros Hz. destruct (Z.eq_dec z 0) as [->|Hne]; [reflexivity|].
  destruct (of_Z_int z ltac:(lia)) as [Hf Hv].
  apply positive_signbit; [done|]. rewrite Hv.
  change 0%Q with (inject_Z 0). rewrite <- Zlt_Qlt. lia.
Qed.

Lemma abs_shoelaceSum_exact (points : list Point) (B : Z) :
  (forall p, p ∈ points -> Z.abs (px p) <= B /\ Z.abs (py p) <= B) ->
  2 * Z.of_nat (length points) * (B * B) < 2 ^ 53 ->
  abs (shoelaceSum points) = of_Z (Z.abs (shoelace points)).
Proof.
  intros Hb Hn. destruct (shoelaceSum_int points B Hb Hn) as [Hint Hlt].
  destruct (int_abs _ _ Hint) as [Hf Hv].
  destruct (of_Z_int (Z.abs (shoelace points)) ltac:(lia)) as [Hf' Hv'].
  apply float_ext; [done|done| |by rewrite Hv, Hv'].
  rewrite of_Z_signbit by lia. apply abs_value.
Qed.

Lemma area_four (a b c d : Point) :
  smallPoint a -> smallPoint b -> smallPoint c -> smallPoint d ->
  calculatePolygonArea [a; b; c; d]
  = (of_Z (Z.abs (shoelace [a; b; c; d])) / 2)%float.
Proof.
  intros Ha Hb Hc Hd. unfold calculatePolygonArea. cbn [length Nat.ltb Nat.leb].
  rewrite (abs_shoelaceSum_exact _ (2 ^ 24)); [done| |done].
  intros p Hp. rewrite !elem_of_cons, elem_of_nil in Hp.
  destruct Hp as [->|[->|[->|[->|[]]]]]; done.
Qed.


(** At the threshold: in a 100 x 100 image the 25 x 40 rectangle has four
    right angles and area 1000, which is the value computed for 10% of the
    image; it is rejected. *)
Example validator_at_threshold :
  let corners := [mkPoint 0 0; mkPoint 25 0; mkPoint 25 40; mkPoint 0 40] in
  calculatePolygonArea corners = (of_Z (100 * 100) * 0.1)%float
  /\ forallb angleOk (cornerAngles MathRef.acos corners) = true
  /\ acceptsCandidate MathRef.acos 100 100 corners = false.
Proof. repeat split; vm_compute; reflexivity. Qed.

(** ** Stage 4: the contour tracer *)

Lemma length_pushNeighbours (x y : Z) (stack : list Point) :
  length (pushNeighbours x y stack) = (8 + length stack)%nat.
Proof. reflexivity. Qed.

(** The loop leaves by its own test when the fuel exceeds the measure. *)
Lemma traceLoop_exits (edges : list Z) (w h : Z) (fuel : nat) :
  forall stack contour visited,
    (length stack + 8 * (1000 - length contour) < fuel)%nat ->
    let r := traceLoop fuel edges w h stack contour visited in
    r.1.1 = [] \/ (1000 <= length r.1.2)%nat.
Proof.
  induction fuel as [|fuel IH]; intros stack contour visited Hfuel; [lia|].
  simpl. destruct stack as [|p stack']; [by left|].
  destruct (Nat.ltb_spec (length contour) 1000) as [Hlt|Hge]; [|by right].
  destruct (skipPixel edges visited w h (px p) (py p)).
  - apply IH. simpl in Hfuel. lia.
  - apply IH. rewrite length_pushNeighbours, length_app. simpl in *. lia.
Qed.

Lemma traceLoop_cap (edges : list Z) (w h : Z) (fuel : nat) :
  forall stack contour visited,
    (length contour <= 1000)%nat ->
    (length (traceLoop fuel edges w h stack contour visited).1.2 <= 1000)%nat.
Proof.
  induction fuel as [|fuel IH]; intros stack contour visited Hlen; [done|].
  simpl. destruct stack as [|p stack']; [done|].
  destruct (Nat.ltb_spec (length contour) 1000) as [Hlt|Hge]; [|done].
  destruct (skipPixel edges visited w h (px p) (py p)).
  - by apply IH.
  - apply IH. rewrite length_app. simpl. lia.
Qed.

Lemma skipPixel_false (edges : list Z) (visited : list bool) (w h : Z) (p : Point) :
  skipPixel edges visited w h (px p) (py p) = false ->
  inBounds w h p /\ edgeOn edges w p /\ ~ marked visited w p.
Proof.
  unfold skipPixel, inBounds, edgeOn, marked, pixelIndex. cbv zeta.
  rewrite !orb_false_iff.
  intros [[[[[Hx0 Hxw] Hy0] Hyh] Hvis] Hedge].
  apply Z.ltb_ge in Hx0, Hy0. apply Z.leb_gt in Hxw, Hyh.
  split; [lia|]. split.
  - intros Heq. rewrite Heq in Hedge. by apply Z.eqb_neq in Hedge.
  - intros Heq. by rewrite Heq in Hvis.
Qed.

Lemma collectedInv_push (edges : list Z) (w h : Z) (visited : list bool)
    (collected : list Point) (p : Point) :
  collectedInv edges w h visited collected ->
  inBounds w h p -> edgeOn edges w p -> ~ marked visited w p ->
  collectedInv edges w h (aset visited (pixelIndex w p) true) (collected ++ [p]).
Proof.
  intros (Hlen & Hnd & Hall) Hin Hon Hnew.
  assert (0 <= pixelIndex w p < Z.of_nat (length visited)) as Hidx.
  { rewrite Hlen. unfold inBounds, pixelIndex in *. nia. }
  split; [|split].
  - by rewrite length_aset.
  - apply NoDup_app. split; [done|]. split; [|apply NoDup_singleton].
    intros q Hq ->%list_elem_of_singleton.
    rewrite Forall_forall in Hall. by destruct (Hall _ Hq) as (_ & _ & ?).
  - apply Forall_app. split.
    + eapply Forall_impl; [exact Hall|]. intros q (? & ? & Hq).
      split; [done|]. split; [done|]. unfold marked in *.
      destruct (Z.eq_dec (pixelIndex w p) (pixelIndex w q)) as [Heq|Hne].
      * rewrite <- Heq. by apply aget_aset_eq.
      * by rewrite aget_aset_ne.
    + apply Forall_singleton. split; [done|]. split; [done|].
      by apply aget_aset_eq.
Qed.

(** The invariant of the pass is kept by the loop, which only appends to the
    contour. *)
Lemma traceLoop_inv (edges : list Z) (w h : Z) (fuel : nat) :
  forall stack contour visited prior,
    collectedInv edges w h visited (prior ++ contour) ->
    let r := traceLoop fuel edges w h stack contour visited in
    exists new, r.1.2 = contour ++ new
      /\ collectedInv edges w h r.2 (prior ++ contour ++ new).
Proof.
  induction fuel as [|fuel IH]; intros stack contour visited prior Hinv.
  { exists []. by rewrite app_nil_r. }
  simpl. destruct stack as [|p stack'].
  { exists []. by rewrite app_nil_r. }
  destruct (length contour <? 1000)%nat.
  2: { exists []. by rewrite app_nil_r. }
  destruct (skipPixel edges visited w h (px p) (py p)) eqn:Hskip.
  - by apply IH.
  - apply skipPixel_false in Hskip as (Hin & Hon & Hnew).
    destruct (IH (pushNeighbours (px p) (py p) stack') (contour ++ [p])
                (aset visited (py p * w + px p) true) prior)
      as (new & Hcontour & Hinv').
    { rewrite app_assoc. by apply collectedInv_push. }
    exists (p :: new). rewrite Hcontour. split.
    + by rewrite <- app_assoc.
    + by rewrite <- app_assoc in Hinv'.
Qed.

Lemma traceContour_inv (edges : list Z) (w h x y : Z) (visited : list bool)
    (prior : list Point) :
  collectedInv edges w h visited prior ->
  let r := traceContour edges w h x y visited in
  collectedInv edges w h r.2 (prior ++ r.1) /\ (length r.1 <= 1000)%nat.
Proof.
  intros Hinv. unfold traceContour. cbv zeta. cbn [fst snd]. split.
  - destruct (traceLoop_inv edges w h (traceFuel [mkPoint x y] [])
                [mkPoint x y] [] visited prior) as (new & -> & Hinv').
    + by rewrite app_nil_r.
    + done.
  - apply traceLoop_cap. simpl. lia.
Qed.

(** ** Stages 5-6: the hull and the fit only select among their points *)

Lemma foldl_select {A} (f : A -> A -> A) (l : list A) (a : A) :
  (forall x y, f x y = x \/ f x y = y) -> foldl f a l ∈ a :: l.
Proof.
  intros Hf. revert a. induction l as [|b l IH]; intros a; simpl; [left|].
  destruct (Hf a b) as [-> | ->].
  - specialize (IH a). apply elem_of_cons in IH as [Heq | Hin].
    + rewrite Heq. left.
    + right. by right.
  - right. apply IH.
Qed.

Lemma insertBy_elem {A} (cmp : A -> A -> float) (x y : A) (l : list A) :
  y ∈ insertBy cmp x l <-> y = x \/ y ∈ l.
Proof.
  induction l as [|z l IH]; simpl.
  - rewrite list_elem_of_singleton, elem_of_nil. tauto.
  - destruct (0 <? cmp x z)%float.
    + rewrite !elem_of_cons, IH. tauto.
    + rewrite !elem_of_cons. tauto.
Qed.

Lemma sortBy_elem {A} (cmp : A -> A -> float) (y : A) (l : list A) :
  y ∈ sortBy cmp l <-> y ∈ l.
Proof.
  unfold sortBy. induction l as [|x l IH]; simpl; [done|].
  rewrite insertBy_elem, IH, elem_of_cons. tauto.
Qed.

Lemma popNonLeft_subset (hull : list Point) (point p : Point) :
  p ∈ popNonLeft hull point -> p ∈ hull.
Proof.
  induction hull as [|a rest IH]; simpl; [done|].
  destruct rest as [|o rest']; [done|].
  destruct (crossProduct o a point <=? 0); [|done].
  intros Hp. right. by apply IH.
Qed.

Lemma graham_subset (sorted hull : list Point) (p : Point) :
  p ∈ foldl (fun hull point => point :: popNonLeft hull point) hull sorted ->
  p ∈ hull \/ p ∈ sorted.
Proof.
  revert hull. induction sorted as [|q sorted IH]; intros hull; simpl; [by left|].
  intros [[->|Hp%popNonLeft_subset]%elem_of_cons | Hp]%IH.
  - right. left.
  - by left.
  - right. by right.
Qed.

Lemma topLeftOf_select x y : topLeftOf x y = x \/ topLeftOf x y = y.
Proof. unfold topLeftOf. case_match; auto. Qed.
Lemma topRightOf_select x y : topRightOf x y = x \/ topRightOf x y = y.
Proof. unfold topRightOf. case_match; auto. Qed.
Lemma bottomRightOf_select x y : bottomRightOf x y = x \/ bottomRightOf x y = y.
Proof. unfold bottomRightOf. case_match; auto. Qed.
Lemma bottomLeftOf_select x y : bottomLeftOf x y = x \/ bottomLeftOf x y = y.
Proof. unfold bottomLeftOf. case_match; auto. Qed.
Lemma lowest_select x y : lowest x y = x \/ lowest x y = y.
Proof. unfold lowest. case_match; auto. Qed.

Lemma approximateToQuadrilateral_subset (hull : list Point) (p : Point) :
  p ∈ approximateToQuadrilateral hull -> p ∈ hull.
Proof.
  unfold approximateToQuadrilateral.
  destruct (length hull <=? 4)%nat; [done|].
  destruct hull as [|q rest]; [done|].
  intros Hp. rewrite !elem_of_cons, elem_of_nil in Hp.
  destruct Hp as [-> | [-> | [-> | [-> | []]]]]; apply foldl_select;
    auto using topLeftOf_select, topRightOf_select, bottomRightOf_select,
      bottomLeftOf_select.
Qed.

Section DetectionLemmas.
Variable Math_atan2 : float -> float -> float.
Variable Math_acos : float -> float.

Lemma convexHull_subset (points : list Point) (p : Point) :
  p ∈ convexHull Math_atan2 points -> p ∈ points.
Proof.
  unfold convexHull. destruct (length points <? 3)%nat; [done|].
  destruct points as [|q rest]; [done|]. cbn [reduce1].
  assert (foldl lowest q rest ∈ q :: rest) as Hstart
    by (apply foldl_select, lowest_select).
  set (start := foldl lowest q rest) in *.
  cbv zeta. intros Hp. apply list_elem_of_In, in_rev, list_elem_of_In in Hp.
  apply graham_subset in Hp as [->%list_elem_of_singleton | Hp]; [done|].
  apply sortBy_elem, list_elem_of_filter in Hp. tauto.
Qed.

Lemma findRectangleCorners_subset (contour corners : list Point) (p : Point) :
  findRectangleCorners Math_atan2 contour = Some corners ->
  p ∈ corners -> p ∈ contour.
Proof.
  unfold findRectangleCorners.
  destruct (length contour <? 4)%nat; [done|].
  destruct (length (convexHull Math_atan2 contour) <? 4)%nat; [done|].
  intros [= <-] Hp%approximateToQuadrilateral_subset.
  by apply convexHull_subset.
Qed.

(** What a detection pass maintains: the tracer's invariant on the pixels
    of all contours traced so far, the cap on each contour, and corners
    inside the image for every retained rectangle. *)
Lemma scanSeeds_inv (edges : list Z) (w h : Z) :
  let s := scanSeeds Math_atan2 Math_acos edges w h in
  collectedInv edges w h (visited s) (mjoin (traced s))
  /\ Forall (fun contour => (length contour <= 1000)%nat) (traced s)
  /\ Forall (fun corners => length corners = 4%nat
                            /\ Forall (inBounds w h) corners) (rectangles s).
Proof.
  unfold scanSeeds. cbv zeta.
  apply (for_invariant (fun s =>
    collectedInv edges w h (visited s) (mjoin (traced s))
    /\ Forall (fun contour => (length contour <= 1000)%nat) (traced s)
    /\ Forall (fun corners => length corners = 4%nat
                              /\ Forall (inBounds w h) corners) (rectangles s))).
  { simpl. repeat split; try constructor. by rewrite length_replicate. }
  intros y s _ Hs. apply for_invariant; [done|]. clear s Hs.
  intros x s _ (Hinv & Hcap & Hrect). unfold scanSeed. cbv zeta.
  destruct (_ && _); [|done].
  pose proof (traceContour_inv edges w h x y (visited s) (mjoin (traced s)) Hinv)
    as [Hinv' Hlen].
  destruct (traceContour edges w h x y (visited s)) as [contour visited'].
  cbn [fst snd] in Hinv', Hlen. cbn [visited traced rectangles].
  assert (Forall (inBounds w h) contour) as Hcontour.
  { destruct Hinv' as (_ & _ & Hall). apply Forall_app in Hall as [_ Hall].
    eapply Forall_impl; [exact Hall|]. by intros p (? & _). }
  split; [|split].
  - rewrite join_app. change (mjoin [contour]) with (contour ++ []).
    by rewrite app_nil_r.
  - apply Forall_app. split; [done|]. by apply Forall_singleton.
  - destruct (50 <? length contour)%nat; [|done].
    destruct (findRectangleCorners Math_atan2 contour) as [corners|] eqn:Hc;
      [|done].
    destruct (_ && _) eqn:Hok; [|done].
    apply andb_true_iff in Hok as [Hfour%Nat.eqb_eq _].
    apply Forall_app. split; [done|]. apply Forall_singleton.
    split; [done|].
    rewrite Forall_forall in Hcontour. apply Forall_forall. intros p Hp.
    by eapply Hcontour, findRectangleCorners_subset.
Qed.

End DetectionLemmas.

(** C5.  In a detection pass the pixels collected into contours are
    pairwise distinct over the whole pass; each of them is inside the image,
    on in the edge mask and marked in the visited array; no contour has more
    than 1000 points; and each call of the tracer leaves its loop by the
    loop's own test (empty stack or full contour) within the iterations that
    bound it, whatever the edge mask holds. *)
Theorem trace_visits_each_pixel_once
    (Math_atan2 : float -> float -> float) (Math_acos : float -> float)
    (edges : list Z) (w h : Z) :
  let s := scanSeeds Math_atan2 Math_acos edges w h in
  NoDup (mjoin (traced s))
  /\ Forall (fun p => inBounds w h p /\ edgeOn edges w p /\ marked (visited s) w p)
       (mjoin (traced s))
  /\ Forall (fun contour => (length contour <= 1000)%nat) (traced s)
  /\ forall x y visited,
       let r := traceLoop (traceFuel [mkPoint x y] []) edges w h
                  [mkPoint x y] [] visited in
       r.1.1 = [] \/ length r.1.2 = 1000%nat.
Proof.
  intros s.
  destruct (scanSeeds_inv Math_atan2 Math_acos edges w h)
    as ((_ & Hnd & Hall) & Hcap & _).
  split; [done|]. split; [done|]. split; [done|].
  intros x y visited r.
  assert (r.1.1 = [] \/ (1000 <= length r.1.2)%nat) as Hexit.
  { apply traceLoop_exits. unfold traceFuel. cbn [length]. lia. }
  assert (length r.1.2 <= 1000)%nat as Hle.
  { apply traceLoop_cap. cbn [length]. lia. }
  destruct Hexit as [?|?]; [by left|right; lia].
Qed.

(** C10.  The corners of a detected quadrilateral are pixels of the frame:
    integer coordinates with [0 <= x < width] and [0 <= y < height]. *)
Theorem detected_corners_in_bounds
    (Math_atan2 : float -> float -> float) (Math_acos : float -> float)
    (imageData : ImageData) (corners : list Point) :
  detectDocumentEdges Math_atan2 Math_acos imageData = Some corners ->
  length corners = 4%nat
  /\ Forall (inBounds (width imageData) (height imageData)) corners.
Proof.
  unfold detectDocumentEdges, findDocumentRectangles. cbv zeta.
  intros Hhead%head_Some_elem_of. apply sortBy_elem in Hhead.
  set (edges := sobelEdgeDetection _ _ _) in *.
  destruct (scanSeeds_inv Math_atan2 Math_acos edges
              (width imageData) (height imageData)) as (_ & _ & Hrect).
  rewrite Forall_forall in Hrect. by apply Hrect.
Qed.

Lemma detected_corners_in_bounds_witness :
  let corners := [mkPoint 8 9; mkPoint 15 8; mkPoint 16 15; mkPoint 9 16] in
  length corners = 4%nat /\ Forall (inBounds 21 21) corners.
Proof.
  apply (detected_corners_in_bounds MathRef.atan2 MathRef.acos
           (squareFrame 21 10 14)).
  vm_compute. reflexivity.
Defined.

(** A white square of 12 x 12 pixels in a 32 x 32 frame is detected. *)
Example detect_square :
  detectDocumentEdges MathRef.atan2 MathRef.acos (squareFrame 32 10 21)
  = Some [mkPoint 8 9; mkPoint 22 8; mkPoint 23 22; mkPoint 9 23].
Proof. vm_compute. reflexivity. Qed.

(** On an edge mask that is on everywhere the tracer stops at the cap: in a
    40 x 40 mask the contour of the first seed has 1000 points, 1000 pixels
    are marked, and the stack is not empty when the loop is left.  In a
    24 x 24 mask every pixel is collected once. *)
Example trace_full_mask :
  let r := traceLoop (traceFuel [mkPoint 10 10] []) (replicate 1600 255) 40 40
             [mkPoint 10 10] [] (replicate 1600 false) in
  length r.1.2 = 1000%nat
  /\ length (List.filter id r.2) = 1000%nat
  /\ r.1.1 <> []
  /\ length (traceContour (replicate 576 255) 24 24 10 10
               (replicate 576 false)).1 = 576%nat.
Proof. vm_compute. repeat split; discriminate. Qed.

(** ** A frame of one colour *)

Lemma aget_of_nat {A} (l : list A) (i : nat) : aget l (Z.of_nat i) = l !! i.
Proof.
  unfold aget. destruct (Z.ltb_spec (Z.of_nat i) 0) as [|_]; [lia|].
  by rewrite Nat2Z.id.
Qed.

Lemma aget_constant_data (n : nat) (r g b a k j : Z) :
  0 <= k < Z.of_nat n -> 0 <= j < 4 ->
  aget (mjoin (replicate n [r; g; b; a])) (4 * k + j) = aget [r; g; b; a] j.
Proof.
  intros Hk Hj.
  replace (4 * k + j) with (Z.of_nat (Z.to_nat k * 4 + Z.to_nat j)) by lia.
  replace j with (Z.of_nat (Z.to_nat j)) at 2 by lia.
  rewrite !aget_of_nat.
  destruct ([r; g; b; a] !! Z.to_nat j) as [v|] eqn:Hv.
  - apply (join_lookup_Some_same_length' 4); [|lia|].
    + apply Forall_forall. by intros l ->%elem_of_replicate_inv.
    + exists [r; g; b; a]. split; [|done]. apply lookup_replicate_2. lia.
  - apply lookup_ge_None in Hv. simpl in Hv. lia.
Qed.

Lemma grayscale_constant (w h r g b a : Z) :
  convertToGrayscale (constantFrame w h r g b a)
  = replicate (Z.to_nat (w * h)) (ToUint8Clamp (luma r g b)).
Proof.
  apply list_eq. intros i.
  destruct (decide (i < Z.to_nat (w * h))%nat) as [Hi|Hi].
  - rewrite lookup_replicate_2 by done. rewrite <- aget_of_nat.
    rewrite grayscale_lookup; cbn [width height data constantFrame]; [|lia|].
    + f_equal. f_equal. unfold luminance, luma, read.
      replace (4 * Z.of_nat i) with (4 * Z.of_nat i + 0) at 1 by lia.
      by rewrite !aget_constant_data by lia.
    + assert (forall n (l : list Z), length (mjoin (replicate n l))
                = (n * length l)%nat) as Hjoin.
      { intros n l. induction n as [|n IH]; [done|].
        change (mjoin (replicate (S n) l)) with (l ++ mjoin (replicate n l)).
        rewrite length_app, IH. lia. }
      rewrite Hjoin. cbn [length]. lia.
  - rewrite !lookup_ge_None_2; [done| |].
    + rewrite length_replicate. lia.
    + rewrite length_grayscale. cbn [width height constantFrame]. lia.
Qed.

Lemma blur_of_constant_byte (c : Z) :
  isByte c ->
  ToUint8Clamp
    ((0 + of_Z c * 1 + of_Z c * 2 + of_Z c * 1 + of_Z c * 2 + of_Z c * 4
        + of_Z c * 2 + of_Z c * 1 + of_Z c * 2 + of_Z c * 1) / 16)%float = c.
Proof.
  intros Hc. apply Z.eqb_eq.
  apply (forall_bytes (fun c =>
    ToUint8Clamp
      ((0 + of_Z c * 1 + of_Z c * 2 + of_Z c * 1 + of_Z c * 2 + of_Z c * 4
          + of_Z c * 2 + of_Z c * 1 + of_Z c * 2 + of_Z c * 1) / 16)%float
    =? c)); [|done].
  vm_compute. reflexivity.
Qed.

(** The Sobel test on a neighbourhood whose nine pixels hold the same byte. *)
Lemma sobel_of_constant_byte (c : Z) :
  isByte c ->
  let v := of_Z c in
  let gx := (0 + v * -1 + v * 0 + v * 1 + v * -2 + v * 0 + v * 2
               + v * -1 + v * 0 + v * 1)%float in
  let gy := (0 + v * -1 + v * -2 + v * -1 + v * 0 + v * 0 + v * 0
               + v * 1 + v * 2 + v * 1)%float in
  (50 <? PrimFloat.sqrt (gx * gx + gy * gy))%float = false.
Proof.
  intros Hc. cbv zeta. apply negb_true_iff.
  apply (forall_bytes (fun c =>
    let v := of_Z c in
    let gx := (0 + v * -1 + v * 0 + v * 1 + v * -2 + v * 0 + v * 2
                 + v * -1 + v * 0 + v * 1)%float in
    let gy := (0 + v * -1 + v * -2 + v * -1 + v * 0 + v * 0 + v * 0
                 + v * 1 + v * 2 + v * 1)%float in
    negb (50 <? PrimFloat.sqrt (gx * gx + gy * gy))%float)); [|done].
  vm_compute. reflexivity.
Qed.

Lemma tap_constant (data : list Z) (w x y dx dy c : Z) :
  aget data ((y + dy) * w + (x + dx)) = Some c ->
  tap data w x y dx dy = of_Z c.
Proof. intros H. unfold tap, read. by rewrite H. Qed.

Lemma blurAt_flat (data : list Z) (w x y c : Z) :
  isByte c ->
  (forall dx dy, -1 <= dx <= 1 -> -1 <= dy <= 1 ->
     aget data ((y + dy) * w + (x + dx)) = Some c) ->
  blurAt data w x y = c.
Proof.
  intros Hc Hflat. rewrite blurAt_gaussianSum. unfold gaussianSum.
  rewrite !(tap_constant data w x y _ _ c) by (apply Hflat; lia).
  by apply blur_of_constant_byte.
Qed.

Lemma sobelAt_flat (data : list Z) (w x y c : Z) :
  isByte c ->
  (forall dx dy, -1 <= dx <= 1 -> -1 <= dy <= 1 ->
     aget data ((y + dy) * w + (x + dx)) = Some c) ->
  sobelAt data w x y = 0.
Proof.
  intros Hc Hflat. unfold sobelAt. rewrite !convolve3_unfold.
  rewrite !(tap_constant data w x y _ _ c) by (apply Hflat; lia).
  cbv zeta.
  change (read sobelX 0) with (-1)%float. change (read sobelX 1) with 0%float.
  change (read sobelX 2) with 1%float. change (read sobelX 3) with (-2)%float.
  change (read sobelX 4) with 0%float. change (read sobelX 5) with 2%float.
  change (read sobelX 6) with (-1)%float. change (read sobelX 7) with 0%float.
  change (read sobelX 8) with 1%float.
  change (read sobelY 0) with (-1)%float. change (read sobelY 1) with (-2)%float.
  change (read sobelY 2) with (-1)%float. change (read sobelY 3) with 0%float.
  change (read sobelY 4) with 0%float. change (read sobelY 5) with 0%float.
  change (read sobelY 6) with 1%float. change (read sobelY 7) with 2%float.
  change (read sobelY 8) with 1%float.
  by rewrite (sobel_of_constant_byte c Hc).
Qed.

(** The blur of a flat buffer is flat inside and 0 on the border ring; its
    Sobel mask is 0 on the border ring and wherever the 3x3 neighbourhood
    stays clear of that ring. *)
Lemma blur_flat_interior (w h c x y : Z) :
  isByte c -> 1 <= x < w - 1 -> 1 <= y < h - 1 ->
  aget (gaussianBlur (replicate (Z.to_nat (w * h)) c) w h) (y * w + x) = Some c.
Proof.
  intros Hc Hx Hy.
  rewrite gaussianBlur_interior; [|done..|rewrite length_replicate; nia].
  f_equal. apply blurAt_flat; [done|]. intros dx dy Hdx Hdy.
  apply aget_replicate. nia.
Qed.

Lemma sobel_flat_zero (w h c x y : Z) :
  isByte c -> 0 <= x < w -> 0 <= y < h ->
  (x = 0 \/ x = w - 1 \/ y = 0 \/ y = h - 1)
  \/ (2 <= x <= w - 3 /\ 2 <= y <= h - 3) ->
  aget (sobelEdgeDetection
          (gaussianBlur (replicate (Z.to_nat (w * h)) c) w h) w h)
       (y * w + x) = Some 0.
Proof.
  intros Hc Hx Hy Hpos. unfold sobelEdgeDetection.
  set (blurred := gaussianBlur _ w h).
  assert (length blurred = Z.to_nat (w * h)) as Hlen.
  { unfold blurred. rewrite length_gaussianBlur. apply length_replicate. }
  destruct Hpos as [Hborder | [Hx2 Hy2]].
  - rewrite (raster_border (fun x y => sobelAt blurred w x y)) by done.
    apply aget_replicate. rewrite Hlen. nia.
  - rewrite (raster_interior (fun x y => sobelAt blurred w x y));
      [|lia|lia|rewrite length_replicate, Hlen; nia].
    f_equal. apply (sobelAt_flat _ _ _ _ c); [done|].
    intros dx dy Hdx Hdy. unfold blurred.
    apply blur_flat_interior; [done|lia|lia].
Qed.

Section ConstantFrame.
Variable Math_atan2 : float -> float -> float.
Variable Math_acos : float -> float.

Lemma scanSeeds_without_seed (edges : list Z) (w h : Z) :
  (forall x y, 10 <= x < w - 10 -> 10 <= y < h - 10 ->
     aget edges (y * w + x) = Some 0) ->
  rectangles (scanSeeds Math_atan2 Math_acos edges w h) = [].
Proof.
  intros Hoff. unfold scanSeeds. cbv zeta.
  rewrite for_unchanged; [done|]. intros y Hy%elem_of_range; [|lia].
  apply for_unchanged. intros x Hx%elem_of_range; [|lia].
  unfold scanSeed. cbv zeta.
  destruct Hy as (jy & ? & -> & ?). destruct Hx as (jx & ? & -> & ?).
  by rewrite Hoff by lia.
Qed.

Lemma detect_without_seed (imageData : ImageData) :
  (forall x y,
     10 <= x < width imageData - 10 -> 10 <= y < height imageData - 10 ->
     aget (sobelEdgeDetection
             (gaussianBlur (convertToGrayscale imageData)
                (width imageData) (height imageData))
             (width imageData) (height imageData))
          (y * width imageData + x) = Some 0) ->
  detectDocumentEdges Math_atan2 Math_acos imageData = None.
Proof.
  intros Hoff. unfold detectDocumentEdges, findDocumentRectangles. cbv zeta.
  by rewrite scanSeeds_without_seed.
Qed.

End ConstantFrame.

(** C1, as the code has it.  For a frame of one colour the grayscale buffer
    is constant, equal to the luma of that colour stored as a byte; the edge
    mask is 0 on the border ring and at every pixel at least two pixels away
    from the border; and [detect] returns none.  (The ring of pixels next to
    the border is left out: the blur leaves the border at 0, and the step from
    0 to the grey level is an edge there.) *)
Theorem constant_frame_no_detection
    (Math_atan2 : float -> float -> float) (Math_acos : float -> float)
    (w h r g b a : Z) :
  let frame := constantFrame w h r g b a in
  let edges :=
    sobelEdgeDetection (gaussianBlur (convertToGrayscale frame) w h) w h in
  convertToGrayscale frame
  = replicate (Z.to_nat (w * h)) (ToUint8Clamp (luma r g b))
  /\ (forall x y,
        0 <= x < w -> 0 <= y < h ->
        (x = 0 \/ x = w - 1 \/ y = 0 \/ y = h - 1)
        \/ (2 <= x <= w - 3 /\ 2 <= y <= h - 3) ->
        aget edges (y * w + x) = Some 0)
  /\ detectDocumentEdges Math_atan2 Math_acos frame = None.
Proof.
  intros frame edges.
  assert (forall x y,
            0 <= x < w -> 0 <= y < h ->
            (x = 0 \/ x = w - 1 \/ y = 0 \/ y = h - 1)
            \/ (2 <= x <= w - 3 /\ 2 <= y <= h - 3) ->
            aget edges (y * w + x) = Some 0) as Hedges.
  { intros x y Hx Hy Hpos. subst edges frame. rewrite grayscale_constant.
    apply sobel_flat_zero; [apply ToUint8Clamp_byte|done..]. }
  split; [apply grayscale_constant|]. split; [done|].
  apply detect_without_seed. cbn [width height frame constantFrame].
  intros x y Hx Hy. apply Hedges; [lia..|]. right. lia.
Qed.

(** C1, as stated, fails: in the white 5 x 5 frame the pixel (1, 1) of the
    edge mask is 255. *)
Lemma constant_frame_has_edges :
  let frame := constantFrame 5 5 255 255 255 255 in
  aget (sobelEdgeDetection (gaussianBlur (convertToGrayscale frame) 5 5) 5 5)
       (1 * 5 + 1) = Some 255.
Proof. vm_compute. reflexivity. Qed.

(** ** More on stages 5-6: the pivot, the turns and the extremes *)

Lemma notBelow_refl (p : Point) : notBelow p p.
Proof. unfold notBelow. lia. Qed.

Lemma notBelow_trans (p q r : Point) : notBelow r q -> notBelow q p -> notBelow r p.
Proof. unfold notBelow. lia. Qed.

Lemma lowest_notBelow (m p : Point) :
  notBelow (lowest m p) m /\ notBelow (lowest m p) p.
Proof.
  unfold lowest, notBelow.
  destruct (Z.ltb_spec (py m) (py p)); simpl; [lia|].
  destruct (Z.eqb_spec (py p) (py m)); simpl; [|lia].
  destruct (Z.ltb_spec (px p) (px m)); lia.
Qed.

Lemma foldl_lowest_notBelow (l : list Point) (a p : Point) :
  p ∈ a :: l -> notBelow (foldl lowest a l) p.
Proof.
  revert a p. induction l as [|b l IH]; intros a p Hp; simpl.
  - apply list_elem_of_singleton in Hp as ->. apply notBelow_refl.
  - destruct (lowest_notBelow a b) as [Ha Hb].
    apply elem_of_cons in Hp as [-> | Hp].
    + eapply notBelow_trans; [|exact Ha]. apply IH. left.
    + apply elem_of_cons in Hp as [-> | Hp].
      * eapply notBelow_trans; [|exact Hb]. apply IH. left.
      * apply IH. by right.
Qed.

(** What the inner loop of the scan leaves: a suffix of the stack, not empty
    unless the stack was, whose two top points turn left with the new one. *)
Lemma popNonLeft_spec (hull : list Point) (point : Point) :
  exists k, popNonLeft hull point = drop k hull
    /\ (hull <> [] -> popNonLeft hull point <> [])
    /\ match popNonLeft hull point with
       | a :: o :: _ => 0 < crossProduct o a point
       | _ => True
       end.
Proof.
  induction hull as [|a rest IH]; simpl.
  { exists 0%nat. done. }
  destruct rest as [|o rest'].
  { exists 0%nat. done. }
  destruct (Z.leb_spec (crossProduct o a point) 0) as [Hle|Hgt].
  - destruct IH as (k & Hk & Hne & Hturn). exists (S k).
    split; [done|]. split; [|done]. intros _. by apply Hne.
  - exists 0%nat. done.
Qed.

Lemma last_drop_nonempty {A} (l : list A) (k : nat) :
  drop k l <> [] -> last (drop k l) = last l.
Proof.
  revert l. induction k as [|k IH]; intros l Hne; [done|].
  destruct l as [|x l]; [done|]. simpl in *.
  rewrite IH by done. destruct l as [|y l]; [by destruct k|done].
Qed.

Lemma graham_last (sorted hull : list Point) :
  hull <> [] ->
  last (foldl (fun hull point => point :: popNonLeft hull point) hull sorted)
  = last hull.
Proof.
  revert hull. induction sorted as [|q sorted IH]; intros hull Hne; [done|].
  simpl. rewrite IH by done.
  destruct (popNonLeft_spec hull q) as (k & Hk & Hne' & _).
  specialize (Hne' Hne).
  destruct (popNonLeft hull q) as [|a l] eqn:Hpop; [done|].
  rewrite last_cons_cons, Hk. apply last_drop_nonempty.
  by rewrite <- Hk.
Qed.

Lemma head_rev {A} (l : list A) : head (rev l) = last l.
Proof.
  induction l as [|x l IH]; [done|]. simpl.
  destruct l as [|y l]; [done|].
  rewrite last_cons_cons, <- IH. simpl. by destruct (rev l).
Qed.

Lemma stackTurns_push (stack : list Point) (point : Point) :
  leftTurns (rev stack) -> leftTurns (rev (point :: popNonLeft stack point)).
Proof.
  intros Hinv.
  destruct (popNonLeft_spec stack point) as (k & Hk & _ & Htop).
  assert (forall st : list Point,
            leftTurns (rev st) <->
            forall i c b a, st !! i = Some c -> st !! S i = Some b ->
                            st !! S (S i) = Some a -> 0 < crossProduct a b c)
    as Hstack.
  { intros st. unfold leftTurns.
    assert (rev st = reverse st) as ->.
    { induction st as [|x st IH]; [done|]. simpl. by rewrite IH, reverse_cons. }
    split.
    - intros H i c b a Hc Hb Ha.
      pose proof (lookup_lt_Some _ _ _ Ha) as Hlt.
      apply (H (length st - S (S (S i)))%nat a b c).
      + rewrite reverse_lookup by lia. rewrite <- Ha. f_equal. lia.
      + rewrite reverse_lookup by lia. rewrite <- Hb. f_equal. lia.
      + rewrite reverse_lookup by lia. rewrite <- Hc. f_equal. lia.
    - intros H i o a b Ho Ha Hb.
      pose proof (lookup_lt_Some _ _ _ Hb) as Hlt. rewrite length_reverse in Hlt.
      rewrite reverse_lookup in Ho, Ha, Hb by lia.
      apply (H (length st - S (S (S i)))%nat b a o).
      + rewrite <- Hb. f_equal.
      + rewrite <- Ha. f_equal. lia.
      + rewrite <- Ho. f_equal. lia. }
  rewrite Hstack in Hinv. apply Hstack.
  intros i c b a Hc Hb Ha. destruct i as [|i].
  - simpl in Hc, Hb, Ha. injection Hc as <-.
    destruct (popNonLeft stack point) as [|b' [|a' l]]; try done.
    simpl in Hb, Ha. by injection Hb as <-; injection Ha as <-.
  - simpl in Hc, Hb, Ha. rewrite Hk in Hc, Hb, Ha.
    rewrite lookup_drop in Hc, Hb, Ha.
    apply (Hinv (k + i)%nat); [done| |].
    + rewrite <- Hb. f_equal. lia.
    + rewrite <- Ha. f_equal. lia.
Qed.

Lemma graham_leftTurns (sorted stack : list Point) :
  leftTurns (rev stack) ->
  leftTurns (rev (foldl (fun hull point => point :: popNonLeft hull point)
                    stack sorted)).
Proof.
  revert stack. induction sorted as [|q sorted IH]; intros stack Hinv; [done|].
  simpl. by apply IH, stackTurns_push.
Qed.

Lemma insertBy_Permutation {A} (cmp : A -> A -> float) (x : A) (l : list A) :
  insertBy cmp x l ≡ₚ x :: l.
Proof.
  induction l as [|y l IH]; simpl; [done|].
  destruct (0 <? cmp x y)%float; [|done].
  rewrite IH. apply Permutation_swap.
Qed.

Lemma sortBy_Permutation {A} (cmp : A -> A -> float) (l : list A) :
  sortBy cmp l ≡ₚ l.
Proof.
  unfold sortBy. induction l as [|x l IH]; simpl; [done|].
  by rewrite insertBy_Permutation, IH.
Qed.

Lemma graham_NoDup (sorted stack : list Point) :
  NoDup (stack ++ sorted) ->
  NoDup (foldl (fun hull point => point :: popNonLeft hull point) stack sorted).
Proof.
  revert stack. induction sorted as [|q sorted IH]; intros stack Hnd; simpl.
  { by rewrite app_nil_r in Hnd. }
  apply IH.
  destruct (popNonLeft_spec stack q) as (k & -> & _).
  apply NoDup_app in Hnd as (Hst & Hdisj & Hsorted).
  apply NoDup_cons in Hsorted as [Hq Hsorted].
  assert (forall x, x ∈ drop k stack -> x ∈ stack) as Hsub.
  { intros x Hx. rewrite <- (take_drop k stack). apply elem_of_app. by right. }
  change (NoDup ((q :: drop k stack) ++ sorted)).
  apply NoDup_app. split; [|split; [|done]].
  - apply NoDup_cons. split.
    + intros Hin%Hsub. apply (Hdisj q Hin). left.
    + rewrite <- (take_drop k stack) in Hst. by apply NoDup_app in Hst as (_ & _ & ?).
  - intros x [-> | Hx%Hsub]%elem_of_cons; [done|].
    intros Hin. apply (Hdisj x Hx). by right.
Qed.

Section HullProperties.
Variable Math_atan2 : float -> float -> float.

(** X1.  For at least three points the hull starts with the pivot: a point
    of the input with the largest [y] and, among those, the smallest [x]. *)
Theorem convexHull_starts_at_pivot (points : list Point) :
  (3 <= length points)%nat ->
  exists start,
    head (convexHull Math_atan2 points) = Some start
    /\ start ∈ points
    /\ forall p, p ∈ points ->
         py p <= py start /\ (py p = py start -> px start <= px p).
Proof.
  intros Hlen. unfold convexHull.
  destruct (Nat.ltb_spec (length points) 3) as [|_]; [lia|].
  destruct points as [|q rest]; [simpl in Hlen; lia|]. cbn [reduce1].
  exists (foldl lowest q rest). split; [|split].
  - cbv zeta. rewrite head_rev. by rewrite graham_last.
  - apply foldl_select, lowest_select.
  - intros p Hp. pose proof (foldl_lowest_notBelow rest q p Hp) as H.
    unfold notBelow in H. lia.
Qed.

(** X2.  For at least three points, any three consecutive points of the hull
    make a strict left turn ([crossProduct] positive): the scan pops every
    point that would make a right turn or lie on a line. *)
Theorem convexHull_turns_left (points : list Point) :
  (3 <= length points)%nat -> leftTurns (convexHull Math_atan2 points).
Proof.
  intros Hlen. unfold convexHull.
  destruct (Nat.ltb_spec (length points) 3) as [|_]; [lia|].
  destruct (reduce1 lowest points) as [start|] eqn:Hstart.
  - cbv zeta. apply graham_leftTurns.
    intros i o a b Ho Ha. by destruct i.
  - destruct points; [simpl in Hlen; lia|done].
Qed.

(** X3.  The hull of pairwise distinct points consists of pairwise distinct
    points of the input. *)
Theorem convexHull_NoDup (points : list Point) :
  NoDup points ->
  NoDup (convexHull Math_atan2 points)
  /\ forall p, p ∈ convexHull Math_atan2 points -> p ∈ points.
Proof.
  intros Hnd. split; [|intros p; apply convexHull_subset].
  unfold convexHull. destruct (length points <? 3)%nat; [done|].
  destruct (reduce1 lowest points) as [start|]; [|done]. cbv zeta.
  apply NoDup_ListNoDup, List.NoDup_rev, NoDup_ListNoDup, graham_NoDup.
  change ([start] ++ ?l) with (start :: l).
  apply NoDup_cons. split.
  - rewrite sortBy_elem, list_elem_of_filter. tauto.
  - rewrite sortBy_Permutation. by apply NoDup_filter.
Qed.

End HullProperties.

Lemma convexHull_starts_at_pivot_witness :
  (3 <= length [mkPoint 0 0; mkPoint 4 0; mkPoint 4 4; mkPoint 0 4; mkPoint 2 2])%nat
  /\ exists start,
    head (convexHull MathRef.atan2
            [mkPoint 0 0; mkPoint 4 0; mkPoint 4 4; mkPoint 0 4; mkPoint 2 2])
    = Some start
    /\ start ∈ [mkPoint 0 0; mkPoint 4 0; mkPoint 4 4; mkPoint 0 4; mkPoint 2 2]
    /\ forall p,
         p ∈ [mkPoint 0 0; mkPoint 4 0; mkPoint 4 4; mkPoint 0 4; mkPoint 2 2] ->
         py p <= py start /\ (py p = py start -> px start <= px p).
Proof.
  split; [simpl; lia|].
  apply (convexHull_starts_at_pivot MathRef.atan2); simpl; lia.
Defined.

Lemma convexHull_turns_left_witness :
  (3 <= length [mkPoint 0 0; mkPoint 4 0; mkPoint 4 4; mkPoint 0 4; mkPoint 2 2])%nat
  /\ leftTurns (convexHull MathRef.atan2
                  [mkPoint 0 0; mkPoint 4 0; mkPoint 4 4; mkPoint 0 4; mkPoint 2 2]).
Proof.
  split; [simpl; lia|].
  apply (convexHull_turns_left MathRef.atan2); simpl; lia.
Defined.

Lemma convexHull_NoDup_witness :
  NoDup [mkPoint 0 0; mkPoint 4 0; mkPoint 4 4; mkPoint 0 4; mkPoint 2 2]
  /\ NoDup (convexHull MathRef.atan2
              [mkPoint 0 0; mkPoint 4 0; mkPoint 4 4; mkPoint 0 4; mkPoint 2 2])
  /\ forall p,
       p ∈ convexHull MathRef.atan2
             [mkPoint 0 0; mkPoint 4 0; mkPoint 4 4; mkPoint 0 4; mkPoint 2 2] ->
       p ∈ [mkPoint 0 0; mkPoint 4 0; mkPoint 4 4; mkPoint 0 4; mkPoint 2 2].
Proof.
  assert (NoDup [mkPoint 0 0; mkPoint 4 0; mkPoint 4 4; mkPoint 0 4; mkPoint 2 2])
    as Hnd by (apply (bool_decide_unpack _); vm_compute; exact I).
  split; [exact Hnd|].
  exact (convexHull_NoDup MathRef.atan2 _ Hnd).
Defined.

Example convexHull_sample :
  convexHull MathRef.atan2
    [mkPoint 0 0; mkPoint 4 0; mkPoint 4 4; mkPoint 0 4; mkPoint 2 2]
  = [mkPoint 0 4; mkPoint 0 0; mkPoint 4 0; mkPoint 4 4].
Proof. vm_compute. reflexivity. Qed.

(** A selecting fold returns an element that is extreme for every preorder
    the selector respects. *)
Lemma foldl_extreme {A} (R : A -> A -> Prop) (f : A -> A -> A)
    (l : list A) (a p : A) :
  (forall x, R x x) -> (forall x y z, R x y -> R y z -> R x z) ->
  (forall m q, R (f m q) m /\ R (f m q) q) ->
  p ∈ a :: l -> R (foldl f a l) p.
Proof.
  intros Hrefl Htrans Hf. revert a p.
  induction l as [|b l IH]; intros a p Hp; simpl.
  - apply list_elem_of_singleton in Hp as ->. apply Hrefl.
  - destruct (Hf a b) as [Ha Hb].
    apply elem_of_cons in Hp as [-> | Hp].
    + eapply Htrans; [|exact Ha]. apply IH. left.
    + apply elem_of_cons in Hp as [-> | Hp].
      * eapply Htrans; [|exact Hb]. apply IH. left.
      * apply IH. by right.
Qed.

Lemma quad_extremes (q : Point) (rest : list Point) (p : Point) :
  p ∈ q :: rest ->
  px (foldl topLeftOf q rest) + py (foldl topLeftOf q rest) <= px p + py p
  /\ px p - py p <= px (foldl topRightOf q rest) - py (foldl topRightOf q rest)
  /\ px p + py p <= px (foldl bottomRightOf q rest) + py (foldl bottomRightOf q rest)
  /\ px (foldl bottomLeftOf q rest) - py (foldl bottomLeftOf q rest) <= px p - py p.
Proof.
  intros Hp. repeat split.
  - apply (foldl_extreme (fun m p => px m + py m <= px p + py p) topLeftOf);
      [lia|lia| |done].
    intros m r. unfold topLeftOf. destruct (Z.ltb_spec (px r + py r) (px m + py m)); lia.
  - apply (foldl_extreme (fun m p => px p - py p <= px m - py m) topRightOf);
      [lia|lia| |done].
    intros m r. unfold topRightOf. destruct (Z.ltb_spec (px m - py m) (px r - py r)); lia.
  - apply (foldl_extreme (fun m p => px p + py p <= px m + py m) bottomRightOf);
      [lia|lia| |done].
    intros m r. unfold bottomRightOf.
    destruct (Z.ltb_spec (px m + py m) (px r + py r)); lia.
  - apply (foldl_extreme (fun m p => px m - py m <= px p - py p) bottomLeftOf);
      [lia|lia| |done].
    intros m r. unfold bottomLeftOf.
    destruct (Z.ltb_spec (px r - py r) (px m - py m)); lia.
Qed.

Lemma quad_members (q : Point) (rest : list Point) :
  foldl topLeftOf q rest ∈ q :: rest
  /\ foldl topRightOf q rest ∈ q :: rest
  /\ foldl bottomRightOf q rest ∈ q :: rest
  /\ foldl bottomLeftOf q rest ∈ q :: rest.
Proof.
  repeat split; apply foldl_select;
    [apply topLeftOf_select | apply topRightOf_select
     | apply bottomRightOf_select | apply bottomLeftOf_select].
Qed.

(** X4.  A hull of more than four points is reduced to four of its points:
    the one with the least [x + y], the one with the greatest [x - y], the
    one with the greatest [x + y] and the one with the least [x - y], in
    this order. *)
Theorem approximateToQuadrilateral_extremes (hull : list Point) :
  (4 < length hull)%nat ->
  exists tl tr br bl,
    approximateToQuadrilateral hull = [tl; tr; br; bl]
    /\ (tl ∈ hull /\ tr ∈ hull /\ br ∈ hull /\ bl ∈ hull)
    /\ forall p, p ∈ hull ->
         px tl + py tl <= px p + py p
         /\ px p - py p <= px tr - py tr
         /\ px p + py p <= px br + py br
         /\ px bl - py bl <= px p - py p.
Proof.
  intros Hlen. unfold approximateToQuadrilateral.
  destruct (Nat.leb_spec (length hull) 4) as [|_]; [lia|].
  destruct hull as [|q rest]; [simpl in Hlen; lia|]. cbv zeta.
  eexists _, _, _, _. split; [reflexivity|].
  split; [apply quad_members|]. apply quad_extremes.
Qed.

Lemma approximateToQuadrilateral_extremes_witness :
  (4 < length [mkPoint 2 0; mkPoint 4 2; mkPoint 3 4; mkPoint 1 4; mkPoint 0 2])%nat
  /\ exists tl tr br bl,
    approximateToQuadrilateral
      [mkPoint 2 0; mkPoint 4 2; mkPoint 3 4; mkPoint 1 4; mkPoint 0 2]
    = [tl; tr; br; bl]
    /\ (tl ∈ [mkPoint 2 0; mkPoint 4 2; mkPoint 3 4; mkPoint 1 4; mkPoint 0 2]
        /\ tr ∈ [mkPoint 2 0; mkPoint 4 2; mkPoint 3 4; mkPoint 1 4; mkPoint 0 2]
        /\ br ∈ [mkPoint 2 0; mkPoint 4 2; mkPoint 3 4; mkPoint 1 4; mkPoint 0 2]
        /\ bl ∈ [mkPoint 2 0; mkPoint 4 2; mkPoint 3 4; mkPoint 1 4; mkPoint 0 2])
    /\ forall p,
         p ∈ [mkPoint 2 0; mkPoint 4 2; mkPoint 3 4; mkPoint 1 4; mkPoint 0 2] ->
         px tl + py tl <= px p + py p
         /\ px p - py p <= px tr - py tr
         /\ px p + py p <= px br + py br
         /\ px bl - py bl <= px p - py p.
Proof.
  split; [simpl; lia|].
  apply approximateToQuadrilateral_extremes. simpl. lia.
Defined.

(** X5.  The corners of an axis-aligned rectangle, given in any order, are
    put in the order top-left, top-right, bottom-right, bottom-left. *)
Theorem sortCorners_axis_aligned (x0 y0 x1 y1 : Z) (corners : list Point) :
  x0 < x1 -> y0 < y1 ->
  corners ≡ₚ [mkPoint x0 y0; mkPoint x1 y0; mkPoint x1 y1; mkPoint x0 y1] ->
  sortCornersForPerspective corners
  = Some [mkPoint x0 y0; mkPoint x1 y0; mkPoint x1 y1; mkPoint x0 y1].
Proof.
  intros Hx Hy Hperm.
  destruct corners as [|q rest]; [by apply Permutation_nil_l in Hperm|].
  unfold sortCornersForPerspective. cbv zeta.
  destruct (quad_members q rest) as (Htl & Htr & Hbr & Hbl).
  pose proof (quad_extremes q rest) as Hext.
  assert (forall p, p ∈ q :: rest <->
            p = mkPoint x0 y0 \/ p = mkPoint x1 y0
            \/ p = mkPoint x1 y1 \/ p = mkPoint x0 y1) as Hin.
  { intros p. rewrite Hperm, !elem_of_cons, elem_of_nil. tauto. }
  assert (H00 := Hext (mkPoint x0 y0)). assert (H10 := Hext (mkPoint x1 y0)).
  assert (H11 := Hext (mkPoint x1 y1)). assert (H01 := Hext (mkPoint x0 y1)).
  rewrite Hin in H00, H10, H11, H01.
  specialize (H00 ltac:(tauto)). specialize (H10 ltac:(tauto)).
  specialize (H11 ltac:(tauto)). specialize (H01 ltac:(tauto)).
  clear Hext. cbn [px py] in *.
  apply Hin in Htl, Htr, Hbr, Hbl.
  assert (foldl topLeftOf q rest = mkPoint x0 y0) as Etl.
  { destruct Htl as [E | [E | [E | E]]]; [done|..];
      rewrite E in *; cbn [px py] in *; lia. }
  assert (foldl topRightOf q rest = mkPoint x1 y0) as Etr.
  { destruct Htr as [E | [E | [E | E]]]; [|done|..];
      rewrite E in *; cbn [px py] in *; lia. }
  assert (foldl bottomRightOf q rest = mkPoint x1 y1) as Ebr.
  { destruct Hbr as [E | [E | [E | E]]]; [| |done|];
      rewrite E in *; cbn [px py] in *; lia. }
  assert (foldl bottomLeftOf q rest = mkPoint x0 y1) as Ebl.
  { destruct Hbl as [E | [E | [E | E]]]; [| | |done];
      rewrite E in *; cbn [px py] in *; lia. }
  by rewrite Etl, Etr, Ebr, Ebl.
Qed.

Lemma sortCorners_axis_aligned_witness :
  3 < 40 /\ 5 < 25
  /\ [mkPoint 40 25; mkPoint 3 5; mkPoint 3 25; mkPoint 40 5]
     ≡ₚ [mkPoint 3 5; mkPoint 40 5; mkPoint 40 25; mkPoint 3 25]
  /\ sortCornersForPerspective [mkPoint 40 25; mkPoint 3 5; mkPoint 3 25; mkPoint 40 5]
     = Some [mkPoint 3 5; mkPoint 40 5; mkPoint 40 25; mkPoint 3 25].
Proof.
  assert ([mkPoint 40 25; mkPoint 3 5; mkPoint 3 25; mkPoint 40 5]
          ≡ₚ [mkPoint 3 5; mkPoint 40 5; mkPoint 40 25; mkPoint 3 25]) as Hperm.
  { etransitivity; [apply Permutation_swap|]. apply Permutation_skip.
    etransitivity; [apply Permutation_skip, Permutation_swap|].
    apply Permutation_swap. }
  split; [lia|]. split; [lia|]. split; [exact Hperm|].
  apply (sortCorners_axis_aligned 3 5 40 25); [lia|lia|exact Hperm].
Defined.

(** ** More on stage 7: the area and the validator under relabelling *)

Lemma shoelace_rotate (a b c d : Point) :
  shoelace [b; c; d; a] = shoelace [a; b; c; d].
Proof. rewrite !shoelace_four. ring. Qed.

Lemma area_rotate (a b c d : Point) :
  smallPoint a -> smallPoint b -> smallPoint c -> smallPoint d ->
  calculatePolygonArea [b; c; d; a] = calculatePolygonArea [a; b; c; d].
Proof. intros Ha Hb Hc Hd. by rewrite !area_four, shoelace_rotate. Qed.

(** X6.  For corners with coordinates below 2^24, where every sum of the
    area computation is exact in binary64, the area of a quadrilateral does
    not depend on the corner the list starts with, on the direction in which
    the corners are listed, or on where the quadrilateral lies (as long as
    the moved corners stay below 2^24); for an axis-aligned rectangle of
    sides [w] and [h] it is computed from twice [w * h]. *)
Theorem quad_area_invariant (a b c d : Point) (dx dy x y w h : Z) :
  smallPoint a -> smallPoint b -> smallPoint c -> smallPoint d ->
  Forall smallPoint ((fun p => mkPoint (px p + dx) (py p + dy)) <$> [a; b; c; d]) ->
  smallPoint (mkPoint x y) -> smallPoint (mkPoint (x + w) (y + h)) ->
  calculatePolygonArea [b; c; d; a] = calculatePolygonArea [a; b; c; d]
  /\ calculatePolygonArea [d; c; b; a] = calculatePolygonArea [a; b; c; d]
  /\ calculatePolygonArea
       ((fun p => mkPoint (px p + dx) (py p + dy)) <$> [a; b; c; d])
     = calculatePolygonArea [a; b; c; d]
  /\ calculatePolygonArea
       [mkPoint x y; mkPoint (x + w) y; mkPoint (x + w) (y + h); mkPoint x (y + h)]
     = (of_Z (2 * Z.abs (w * h)) / 2)%float.
Proof.
  intros Ha Hb Hc Hd Hmoved Hxy Hwh.
  split; [by apply area_rotate|]. split; [|split].
  - rewrite !area_four, !shoelace_four by done.
    replace (px d * py c - px c * py d + (px c * py b - px b * py c)
             + (px b * py a - px a * py b) + (px a * py d - px d * py a))
      with (- (px a * py b - px b * py a + (px b * py c - px c * py b)
               + (px c * py d - px d * py c) + (px d * py a - px a * py d)))
      by ring.
    by rewrite Z.abs_opp.
  - cbn [fmap list_fmap] in *.
    apply Forall_cons in Hmoved as [Ha' Hmoved].
    apply Forall_cons in Hmoved as [Hb' Hmoved].
    apply Forall_cons in Hmoved as [Hc' Hmoved].
    apply Forall_cons in Hmoved as [Hd' _].
    rewrite !area_four, !shoelace_four by done. cbn [px py].
    do 3 f_equal. ring.
  - rewrite area_four, shoelace_four;
      [|destruct Hxy, Hwh; split; cbn [px py] in *; done..].
    cbn [px py].
    replace (2 * Z.abs (w * h)) with (Z.abs (2 * (w * h)))
      by (by rewrite Z.abs_mul).
    do 3 f_equal. ring.
Qed.

Lemma quad_area_invariant_witness :
  let a := mkPoint 1 2 in
  let b := mkPoint 11 3 in
  let c := mkPoint 12 9 in
  let d := mkPoint 0 8 in
  calculatePolygonArea [b; c; d; a] = calculatePolygonArea [a; b; c; d]
  /\ calculatePolygonArea [d; c; b; a] = calculatePolygonArea [a; b; c; d]
  /\ calculatePolygonArea
       ((fun p => mkPoint (px p + 100) (py p + 200)) <$> [a; b; c; d])
     = calculatePolygonArea [a; b; c; d]
  /\ calculatePolygonArea
       [mkPoint 5 7; mkPoint (5 + 30) 7; mkPoint (5 + 30) (7 + 40);
        mkPoint 5 (7 + 40)]
     = (of_Z (2 * Z.abs (30 * 40)) / 2)%float.
Proof.
  apply (quad_area_invariant (mkPoint 1 2) (mkPoint 11 3) (mkPoint 12 9)
           (mkPoint 0 8) 100 200 5 7 30 40);
    first [ by repeat constructor; unfold smallPoint; cbn [px py]; lia
          | unfold smallPoint; cbn [px py]; lia ].
Defined.

(** Beyond the bound the binary64 sum loses the small products: the unit
    square moved by 10^8 has a computed area of 0. *)
Example area_of_far_square :
  calculatePolygonArea
    [mkPoint 100000000 100000000; mkPoint 100000001 100000000;
     mkPoint 100000001 100000001; mkPoint 100000000 100000001] = 0%float
  /\ calculatePolygonArea
       [mkPoint 0 0; mkPoint 1 0; mkPoint 1 1; mkPoint 0 1] = 1%float.
Proof. split; vm_compute; reflexivity. Qed.

Section RelabelLemmas.
Variable Math_acos : float -> float.

(** X7.  Whether a candidate of four corners with coordinates below 2^24 is
    accepted does not depend on the corner the list starts with. *)
Theorem acceptsCandidate_rotate (width height : Z) (a b c d : Point) :
  smallPoint a -> smallPoint b -> smallPoint c -> smallPoint d ->
  acceptsCandidate Math_acos width height [b; c; d; a]
  = acceptsCandidate Math_acos width height [a; b; c; d].
Proof.
  intros Ha Hb Hc Hd.
  unfold acceptsCandidate. cbv zeta. rewrite area_rotate by done. f_equal.
  unfold isValidRectangle. cbn [length Nat.eqb negb].
  rewrite !cornerAngles_four. cbn [forallb].
  destruct (angleOk (calculateAngle Math_acos a b c)),
           (angleOk (calculateAngle Math_acos b c d)),
           (angleOk (calculateAngle Math_acos c d a)),
           (angleOk (calculateAngle Math_acos d a b)); reflexivity.
Qed.

End RelabelLemmas.

Lemma acceptsCandidate_rotate_witness :
  acceptsCandidate MathRef.acos 100 100
    [mkPoint 60 10; mkPoint 60 70; mkPoint 10 70; mkPoint 10 10]
  = acceptsCandidate MathRef.acos 100 100
      [mkPoint 10 10; mkPoint 60 10; mkPoint 60 70; mkPoint 10 70].
Proof.
  apply (acceptsCandidate_rotate MathRef.acos 100 100
           (mkPoint 10 10) (mkPoint 60 10) (mkPoint 60 70) (mkPoint 10 70));
    unfold smallPoint; cbn [px py]; lia.
Defined.

(** ** More on stage 8: which rectangles a pass retains *)

Section SelectionLemmas.
Variable Math_atan2 : float -> float -> float.
Variable Math_acos : float -> float.

(** The test of lines 229-242 on a traced contour. *)
Let retained (w h : Z) (contour corners : list Point) : Prop :=
  (50 < length contour)%nat
  /\ findRectangleCorners Math_atan2 contour = Some corners
  /\ length corners = 4%nat
  /\ acceptsCandidate Math_acos w h corners = true.

Lemma scanSeeds_rectangles (edges : list Z) (w h : Z) (corners : list Point) :
  let s := scanSeeds Math_atan2 Math_acos edges w h in
  corners ∈ rectangles s
  <-> exists contour, contour ∈ traced s /\ retained w h contour corners.
Proof.
  cbv zeta. revert corners. unfold scanSeeds. cbv zeta.
  apply (for_invariant (fun s => forall corners,
    corners ∈ rectangles s
    <-> exists contour, contour ∈ traced s /\ retained w h contour corners)).
  { intros corners. simpl. split; [by intros ?%elem_of_nil|].
    by intros (? & ?%elem_of_nil & _). }
  intros y s _ Hs. apply for_invariant; [done|]. clear s Hs.
  intros x s _ Hs corners. unfold scanSeed. cbv zeta.
  destruct (_ && _); [|done].
  destruct (traceContour edges w h x y (visited s)) as [contour visited'].
  cbn [visited traced rectangles].
  assert ((exists contour0, contour0 ∈ traced s ++ [contour]
                            /\ retained w h contour0 corners)
          <-> corners ∈ rectangles s \/ retained w h contour corners) as ->.
  { rewrite Hs. split.
    - intros (c0 & [Hin | ->%list_elem_of_singleton]%elem_of_app & Hret);
        [left; eauto | by right].
    - intros [(c0 & Hin & Hret) | Hret].
      + exists c0. split; [|done]. apply elem_of_app. by left.
      + exists contour. split; [|done]. apply elem_of_app. right. left. }
  unfold retained.
  destruct (Nat.ltb_spec 50 (length contour)) as [Hlen|Hlen];
    [|split; [tauto|intros [?|[? _]]; [done|lia]]].
  destruct (findRectangleCorners Math_atan2 contour) as [c0|] eqn:Hc;
    [|split; [tauto|by intros [?|(_ & ? & _)]]].
  destruct (Nat.eqb_spec (length c0) 4) as [Hfour|Hfour]; cbn [andb];
    [|split; [tauto|intros [?|(_ & [= <-] & ? & _)]; done]].
  destruct (acceptsCandidate Math_acos w h c0) eqn:Hok.
  - rewrite elem_of_app, list_elem_of_singleton. split.
    + intros [?| ->]; [by left|by right].
    + intros [?|(_ & [= <-] & _)]; [by left|by right].
  - split; [tauto|]. intros [?|(_ & [= <-] & _ & Hacc)]; [done|congruence].
Qed.

(** X8.  What a detection returns is the four corners fitted to one of the
    traced contours: a contour of more than 50 points whose fit has four
    corners and passes the area and angle test.  Nothing is returned only
    when no traced contour of more than 50 points has such a fit. *)
Theorem detectDocumentEdges_sound (imageData : ImageData) :
  let w := width imageData in
  let h := height imageData in
  let edges :=
    sobelEdgeDetection (gaussianBlur (convertToGrayscale imageData) w h) w h in
  let contours := traced (scanSeeds Math_atan2 Math_acos edges w h) in
  match detectDocumentEdges Math_atan2 Math_acos imageData with
  | Some corners =>
    exists contour,
      contour ∈ contours
      /\ (50 < length contour)%nat
      /\ findRectangleCorners Math_atan2 contour = Some corners
      /\ length corners = 4%nat
      /\ acceptsCandidate Math_acos w h corners = true
  | None =>
    forall contour corners,
      contour ∈ contours -> (50 < length contour)%nat ->
      findRectangleCorners Math_atan2 contour = Some corners ->
      length corners = 4%nat ->
      acceptsCandidate Math_acos w h corners = false
  end.
Proof.
  cbv zeta. unfold detectDocumentEdges, findDocumentRectangles. cbv zeta.
  set (edges := sobelEdgeDetection _ _ _).
  pose proof (scanSeeds_rectangles edges (width imageData) (height imageData))
    as Hrect. cbv zeta in Hrect.
  set (s := scanSeeds Math_atan2 Math_acos edges _ _) in *.
  destruct (head (sortBy _ (rectangles s))) as [corners|] eqn:Hhead.
  - apply head_Some_elem_of, sortBy_elem, Hrect in Hhead. exact Hhead.
  - intros contour corners Hin Hlen Hfit Hfour.
    destruct (acceptsCandidate Math_acos _ _ corners) eqn:Hok; [|done].
    assert (corners ∈ rectangles s) as Hc.
    { apply Hrect. exists contour. by repeat split. }
    apply head_None in Hhead. eapply sortBy_elem in Hc.
    erewrite Hhead in Hc. by apply elem_of_nil in Hc.
Qed.

End SelectionLemmas.

(** ** More on stage 4: how a contour grows and where it stops *)

Lemma pushNeighbours_eq (x y : Z) (stack : list Point) :
  pushNeighbours x y stack
  = [mkPoint (x + 1) (y + 1); mkPoint (x + 0) (y + 1); mkPoint (x + -1) (y + 1);
     mkPoint (x + 1) (y + 0); mkPoint (x + -1) (y + 0);
     mkPoint (x + 1) (y + -1); mkPoint (x + 0) (y + -1);
     mkPoint (x + -1) (y + -1)] ++ stack.
Proof. reflexivity. Qed.

Lemma elem_of_pushNeighbours (p q : Point) (stack : list Point) :
  q ∈ pushNeighbours (px p) (py p) stack <-> adjacent p q \/ q ∈ stack.
Proof.
  rewrite pushNeighbours_eq, elem_of_app. destruct p as [x y], q as [qx qy].
  unfold adjacent. cbn [px py].
  assert (forall dx dy, -1 <= dx <= 1 -> -1 <= dy <= 1 -> dx <> 0 \/ dy <> 0 ->
            mkPoint qx qy = mkPoint (x + dx) (y + dy) ->
            Z.abs (qx - x) <= 1 /\ Z.abs (qy - y) <= 1
            /\ mkPoint qx qy <> mkPoint x y) as Hadj.
  { intros dx dy Hdx Hdy Hne [= -> ->]. split; [lia|]. split; [lia|].
    intros [= ? ?]. lia. }
  split.
  - intros [Hin | Hin]; [left|by right].
    rewrite !elem_of_cons, elem_of_nil in Hin.
    destruct Hin as [H|[H|[H|[H|[H|[H|[H|[H|[]]]]]]]]];
      (eapply Hadj; [| | |exact H]; lia).
  - intros [(Hx & Hy & Hne) | Hin]; [left|by right].
    assert (qx = x + 1 \/ qx = x + 0 \/ qx = x + -1) as Hqx by lia.
    assert (qy = y + 1 \/ qy = y + 0 \/ qy = y + -1) as Hqy by lia.
    rewrite !elem_of_cons.
    destruct Hqx as [-> | [-> | ->]], Hqy as [-> | [-> | ->]];
      try tauto.
    exfalso. apply Hne. f_equal; lia.
Qed.

(** An invariant of the loop of [traceContour] holds when the loop is left
    if the two ways through an iteration keep it. *)
Lemma traceLoop_ind (P : list Point -> list Point -> list bool -> Prop)
    (edges : list Z) (w h : Z) :
  (forall p stack contour visited,
     P (p :: stack) contour visited -> (length contour < 1000)%nat ->
     skipPixel edges visited w h (px p) (py p) = true ->
     P stack contour visited) ->
  (forall p stack contour visited,
     P (p :: stack) contour visited -> (length contour < 1000)%nat ->
     skipPixel edges visited w h (px p) (py p) = false ->
     P (pushNeighbours (px p) (py p) stack) (contour ++ [p])
       (aset visited (py p * w + px p) true)) ->
  forall fuel stack contour visited,
    P stack contour visited ->
    let r := traceLoop fuel edges w h stack contour visited in
    P r.1.1 r.1.2 r.2.
Proof.
  intros Hskip Hpush.
  induction fuel as [|fuel IH]; intros stack contour visited HP; [done|].
  simpl. destruct stack as [|p stack']; [done|].
  destruct (Nat.ltb_spec (length contour) 1000) as [Hlt|Hge]; [|done].
  destruct (skipPixel edges visited w h (px p) (py p)) eqn:Hsk.
  - apply IH. by eapply Hskip.
  - apply IH. by eapply Hpush.
Qed.

Lemma skipPixel_marked (edges : list Z) (visited : list bool) (w h x y : Z) :
  aget visited (y * w + x) = Some true -> skipPixel edges visited w h x y = true.
Proof.
  intros Hm. unfold skipPixel. cbv zeta. rewrite Hm. simpl.
  by rewrite !orb_true_r.
Qed.

Lemma skipPixel_mono (edges : list Z) (visited visited' : list bool)
    (w h x y : Z) :
  (forall i, aget visited i = Some true -> aget visited' i = Some true) ->
  skipPixel edges visited w h x y = true ->
  skipPixel edges visited' w h x y = true.
Proof.
  intros Hmono. unfold skipPixel. cbv zeta.
  set (outside := (x <? 0) || (w <=? x) || (y <? 0) || (h <=? y)).
  destruct outside; [done|].
  destruct (match aget edges (y * w + x) with Some v => v =? 0 | None => false end);
    [by rewrite !orb_true_r|].
  simpl. rewrite !orb_false_r.
  destruct (aget visited (y * w + x)) as [[|]|] eqn:Hv; [|done|done].
  by rewrite (Hmono _ Hv).
Qed.

Lemma skipPixel_true_inside (edges : list Z) (visited : list bool) (w h : Z)
    (q : Point) :
  skipPixel edges visited w h (px q) (py q) = true ->
  inBounds w h q -> edgeOn edges w q -> marked visited w q.
Proof.
  unfold skipPixel, inBounds, edgeOn, marked, pixelIndex. cbv zeta.
  intros Hskip [Hx Hy] Hon.
  destruct (Z.ltb_spec (px q) 0); [lia|].
  destruct (Z.leb_spec w (px q)); [lia|].
  destruct (Z.ltb_spec (py q) 0); [lia|].
  destruct (Z.leb_spec h (py q)); [lia|]. simpl in Hskip.
  destruct (aget visited (py q * w + px q)) as [[|]|]; [done|..];
    simpl in Hskip;
    (destruct (aget edges (py q * w + px q)) as [v|]; [|done];
     apply Z.eqb_eq in Hskip as ->; done).
Qed.

Lemma grown_snoc (contour : list Point) (q : Point) :
  grown contour -> (exists p, p ∈ contour /\ adjacent p q) ->
  grown (contour ++ [q]).
Proof.
  intros Hg (p & Hp & Hadj) i r Hr.
  destruct (decide (S i < length contour)%nat) as [Hlt|Hge].
  - rewrite lookup_app_l in Hr by done.
    destruct (Hg i r Hr) as (j & p' & Hj & Hp' & Hadj').
    exists j, p'. split; [done|]. split; [|done].
    rewrite lookup_app_l; [done|lia].
  - pose proof (lookup_lt_Some _ _ _ Hr) as Hlen.
    rewrite length_app in Hlen. simpl in Hlen.
    assert (S i = length contour) as Hi by lia.
    rewrite Hi, list_lookup_middle in Hr by done. injection Hr as <-.
    apply list_elem_of_lookup in Hp as [j Hj].
    pose proof (lookup_lt_Some _ _ _ Hj).
    exists j, p. split; [lia|]. split; [|done].
    rewrite lookup_app_l; [done|lia].
Qed.

Section TraceLemmas.
Variables (edges : list Z) (w h : Z) (seed : Point) (visited0 : list bool).

(** What the loop of [traceContour] keeps when started on the stack
    [[seed]] with the array [visited0]. *)
Let traceInv (stack contour : list Point) (visited : list bool) : Prop :=
  length visited = Z.to_nat (w * h)
  /\ ((contour = [] /\ (stack = [seed] \/ stack = []))
      \/ (head contour = Some seed /\ grown contour
          /\ forall q, q ∈ stack -> exists p, p ∈ contour /\ adjacent p q))
  /\ (forall p q, p ∈ contour -> adjacent p q ->
        q ∈ stack \/ skipPixel edges visited w h (px q) (py q) = true)
  /\ (forall i, aget visited i = Some true <->
        aget visited0 i = Some true
        \/ exists p, p ∈ contour /\ pixelIndex w p = i).

Lemma traceInv_skip (p : Point) (stack contour : list Point)
    (visited : list bool) :
  traceInv (p :: stack) contour visited -> (length contour < 1000)%nat ->
  skipPixel edges visited w h (px p) (py p) = true ->
  traceInv stack contour visited.
Proof.
  intros (Hlen & Hgrow & Hclosed & Hmarks) _ Hskip.
  split; [done|]. split; [|split; [|done]].
  - destruct Hgrow as [[-> Hst] | (Hhead & Hg & Hst)].
    + left. split; [done|]. right. by destruct Hst as [[= _ ->] | ?].
    + right. split; [done|]. split; [done|]. intros q Hq. apply Hst. by right.
  - intros p0 q Hp0 Hadj.
    destruct (Hclosed p0 q Hp0 Hadj) as [[-> | Hq]%elem_of_cons | Hq];
      [by right | by left | by right].
Qed.

Lemma traceInv_push (p : Point) (stack contour : list Point)
    (visited : list bool) :
  traceInv (p :: stack) contour visited -> (length contour < 1000)%nat ->
  skipPixel edges visited w h (px p) (py p) = false ->
  traceInv (pushNeighbours (px p) (py p) stack) (contour ++ [p])
    (aset visited (py p * w + px p) true).
Proof.
  intros (Hlen & Hgrow & Hclosed & Hmarks) _ Hskip.
  apply skipPixel_false in Hskip as (Hin & Hon & Hnew).
  assert (0 <= pixelIndex w p < Z.of_nat (length visited)) as Hidx.
  { rewrite Hlen. unfold inBounds, pixelIndex in *. nia. }
  fold (pixelIndex w p).
  assert (forall i, aget visited i = Some true ->
                    aget (aset visited (pixelIndex w p) true) i = Some true)
    as Hmono.
  { intros i Hi. destruct (decide (pixelIndex w p = i)) as [<- | Hne].
    - by apply aget_aset_eq.
    - by rewrite aget_aset_ne. }
  split; [by rewrite length_aset|]. split; [|split].
  - right. destruct Hgrow as [[-> Hst] | (Hhead & Hg & Hst)].
    + destruct Hst as [[= -> ->] | ?]; [|done].
      split; [done|]. split.
      * intros i q Hq. by destruct i.
      * intros q [Hq | Hq%elem_of_nil]%elem_of_pushNeighbours; [|done].
        exists seed. split; [left|done].
    + split; [by destruct contour|]. split.
      * apply grown_snoc; [done|]. apply Hst. left.
      * intros q [Hq | Hq]%elem_of_pushNeighbours.
        -- exists p. split; [|done]. apply elem_of_app. right. left.
        -- destruct (Hst q) as (p' & Hp' & Hadj); [by right|].
           exists p'. split; [|done]. apply elem_of_app. by left.
  - intros p0 q [Hp0 | ->%list_elem_of_singleton]%elem_of_app Hadj.
    + destruct (Hclosed p0 q Hp0 Hadj) as [[-> | Hq]%elem_of_cons | Hq].
      * right. apply skipPixel_marked. by apply aget_aset_eq.
      * left. apply elem_of_pushNeighbours. by right.
      * right. by eapply skipPixel_mono.
    + left. apply elem_of_pushNeighbours. by left.
  - intros i. destruct (decide (pixelIndex w p = i)) as [<- | Hne].
    + rewrite aget_aset_eq by done. split; [|done]. intros _. right.
      exists p. split; [|done]. apply elem_of_app. right. left.
    + rewrite aget_aset_ne by done. rewrite Hmarks. split.
      * intros [?|(p' & Hp' & Hi)]; [by left|right].
        exists p'. split; [|done]. apply elem_of_app. by left.
      * intros [?|(p' & [Hp' | ->%list_elem_of_singleton]%elem_of_app & Hi)];
          [by left| |done].
        right. by exists p'.
Qed.

Lemma traceLoop_traceInv (fuel : nat) (stack contour : list Point)
    (visited : list bool) :
  traceInv stack contour visited ->
  let r := traceLoop fuel edges w h stack contour visited in
  traceInv r.1.1 r.1.2 r.2.
Proof.
  apply (traceLoop_ind traceInv); [apply traceInv_skip | apply traceInv_push].
Qed.

Lemma traceLoop_appends (fuel : nat) :
  forall stack contour visited,
    exists new,
      (traceLoop fuel edges w h stack contour visited).1.2 = contour ++ new.
Proof.
  induction fuel as [|fuel IH]; intros stack contour visited.
  { exists []. by rewrite app_nil_r. }
  simpl. destruct stack as [|p stack'].
  { exists []. by rewrite app_nil_r. }
  destruct (length contour <? 1000)%nat.
  2: { exists []. by rewrite app_nil_r. }
  destruct (skipPixel edges visited w h (px p) (py p)); [apply IH|].
  destruct (IH (pushNeighbours (px p) (py p) stack') (contour ++ [p])
              (aset visited (py p * w + px p) true)) as [new ->].
  exists (p :: new). by rewrite <- app_assoc.
Qed.

(** What one call of [traceContour] on a [visited] array of the size of the
    image returns. *)
Lemma traceContour_spec :
  length visited0 = Z.to_nat (w * h) ->
  let r := traceContour edges w h (px seed) (py seed) visited0 in
  length r.2 = Z.to_nat (w * h)
  /\ (skipPixel edges visited0 w h (px seed) (py seed) = false ->
      head r.1 = Some seed)
  /\ grown r.1
  /\ ((length r.1 < 1000)%nat ->
      forall p q, p ∈ r.1 -> adjacent p q ->
        skipPixel edges r.2 w h (px q) (py q) = true)
  /\ (forall i, aget r.2 i = Some true <->
        aget visited0 i = Some true \/ exists p, p ∈ r.1 /\ pixelIndex w p = i).
Proof.
  intros Hlen. unfold traceContour. cbv zeta. cbn [fst snd].
  assert (mkPoint (px seed) (py seed) = seed) as -> by by destruct seed.
  pose proof (traceLoop_traceInv (traceFuel [seed] []) [seed] [] visited0)
    as Hinv.
  assert (let r := traceLoop (traceFuel [seed] []) edges w h [seed] [] visited0
          in r.1.1 = [] \/ (1000 <= length r.1.2)%nat) as Hexit.
  { apply traceLoop_exits. unfold traceFuel. cbn [length]. lia. }
  assert (skipPixel edges visited0 w h (px seed) (py seed) = false ->
          exists new,
            (traceLoop (traceFuel [seed] []) edges w h [seed] [] visited0).1.2
            = seed :: new) as Hfirst.
  { intros Hskip. unfold traceFuel. cbn [traceLoop length Nat.ltb Nat.leb].
    rewrite Hskip. apply (traceLoop_appends _ _ [seed]). }
  cbv zeta in Hinv, Hexit.
  destruct (traceLoop (traceFuel [seed] []) edges w h [seed] [] visited0)
    as [[stack contour] visited].
  cbn [fst snd] in *.
  destruct Hinv as (Hlen' & Hgrow & Hclosed & Hmarks).
  { split; [done|]. split; [left; split; [done|by left]|]. split.
    - by intros p q ?%elem_of_nil.
    - intros i. split; [by left|]. by intros [?|(? & ?%elem_of_nil & _)]. }
  split; [done|]. split; [|split; [|split; [|done]]].
  - intros Hskip. destruct (Hfirst Hskip) as [new ->]. done.
  - destruct Hgrow as [[-> _] | (_ & Hg & _)]; [|done].
    intros i q Hq. done.
  - intros Hcap p q Hp Hadj. destruct Hexit as [-> | ?]; [|lia].
    destruct (Hclosed p q Hp Hadj) as [?%elem_of_nil | ?]; done.
Qed.

End TraceLemmas.

Lemma onSeedGrid_range (size k : Z) : k ∈ range 10 (size - 10) 5 -> onSeedGrid size k.
Proof.
  intros (j & Hj & -> & Hlt)%elem_of_range; [|lia]. split; [lia|].
  replace (10 + 5 * j - 10) with (j * 5) by lia. apply Z_mod_mult.
Qed.

Lemma seed_not_skipped (edges : list Z) (visited : list bool) (w h x y : Z) :
  onSeedGrid w x -> onSeedGrid h y ->
  match aget edges (y * w + x) with Some v => 0 <? v | None => false end
  && negb (default false (aget visited (y * w + x))) = true ->
  skipPixel edges visited w h x y = false.
Proof.
  intros [Hx _] [Hy _] [Hon Hnew]%andb_true_iff. unfold skipPixel. cbv zeta.
  destruct (Z.ltb_spec x 0); [lia|]. destruct (Z.leb_spec w x); [lia|].
  destruct (Z.ltb_spec y 0); [lia|]. destruct (Z.leb_spec h y); [lia|].
  apply negb_true_iff in Hnew. rewrite Hnew. simpl.
  destruct (aget edges (y * w + x)) as [v|]; [|done].
  apply Z.ltb_lt in Hon. apply Z.eqb_neq. lia.
Qed.

Section PassLemmas.
Variable Math_atan2 : float -> float -> float.
Variable Math_acos : float -> float.

(** What a detection pass keeps about the contours it traces. *)
Lemma scanSeeds_traced (edges : list Z) (w h : Z) :
  let s := scanSeeds Math_atan2 Math_acos edges w h in
  length (visited s) = Z.to_nat (w * h)
  /\ (forall i, aget (visited s) i = Some true <->
        exists p, p ∈ mjoin (traced s) /\ pixelIndex w p = i)
  /\ Forall (fun contour =>
       exists x y, onSeedGrid w x /\ onSeedGrid h y
         /\ head contour = Some (mkPoint x y) /\ grown contour) (traced s)
  /\ Forall (fun contour =>
       (length contour < 1000)%nat ->
       forall p q, p ∈ contour -> adjacent p q ->
         skipPixel edges (visited s) w h (px q) (py q) = true) (traced s).
Proof.
  unfold scanSeeds. cbv zeta.
  apply (for_invariant (fun s =>
    length (visited s) = Z.to_nat (w * h)
    /\ (forall i, aget (visited s) i = Some true <->
          exists p, p ∈ mjoin (traced s) /\ pixelIndex w p = i)
    /\ Forall (fun contour =>
         exists x y, onSeedGrid w x /\ onSeedGrid h y
           /\ head contour = Some (mkPoint x y) /\ grown contour) (traced s)
    /\ Forall (fun contour =>
         (length contour < 1000)%nat ->
         forall p q, p ∈ contour -> adjacent p q ->
           skipPixel edges (visited s) w h (px q) (py q) = true) (traced s))).
  { cbn [visited traced]. split; [by rewrite length_replicate|].
    split; [|by split; constructor].
    intros i. split.
    - unfold aget. destruct (i <? 0); [done|].
      by intros [[=] _]%lookup_replicate.
    - by intros (? & ?%elem_of_nil & _). }
  intros y s Hy%onSeedGrid_range Hs. apply for_invariant; [done|]. clear s Hs.
  intros x s Hx%onSeedGrid_range (Hlen & Hmarks & Hgrown & Hclosed).
  unfold scanSeed. cbv zeta.
  destruct (_ && _) eqn:Hseed; [|done].
  apply (seed_not_skipped edges (visited s) w h x y Hx Hy) in Hseed.
  pose proof (traceContour_spec edges w h (mkPoint x y) (visited s) Hlen)
    as (Hlen' & Hhead & Hg & Hc & Hm).
  cbn [px py] in Hlen', Hhead, Hg, Hc, Hm.
  destruct (traceContour edges w h x y (visited s)) as [contour visited'].
  cbn [fst snd] in Hlen', Hhead, Hg, Hc, Hm. cbn [visited traced rectangles].
  assert (forall i, aget (visited s) i = Some true -> aget visited' i = Some true)
    as Hmono by (intros i Hi; apply Hm; by left).
  split; [done|]. split; [|split].
  - intros i. rewrite Hm, Hmarks, join_app.
    change (mjoin [contour]) with (contour ++ []). rewrite app_nil_r. split.
    + intros [(p & Hp & Hi) | (p & Hp & Hi)]; exists p;
        (split; [apply elem_of_app; tauto | done]).
    + intros (p & [Hp | Hp]%elem_of_app & Hi); [left|right]; by exists p.
  - apply Forall_app. split; [done|]. apply Forall_singleton.
    exists x, y. split; [done|]. split; [done|]. split; [by apply Hhead|done].
  - apply Forall_app. split.
    + eapply Forall_impl; [exact Hclosed|]. cbv beta.
      intros contour0 H0 Hcap p q Hp Hadj. eapply skipPixel_mono; [exact Hmono|].
      by eapply H0.
    + by apply Forall_singleton.
Qed.

(** X9.  Every contour traced in a detection pass is not empty and starts
    with its seed, a point of the grid 10, 15, 20, ... that stays 10 pixels
    away from the right and bottom borders; each later point of the contour
    is one of the eight neighbours of an earlier one. *)
Theorem traced_contours_grow_from_seed (edges : list Z) (w h : Z) :
  Forall (fun contour =>
    exists x y,
      onSeedGrid w x /\ onSeedGrid h y
      /\ head contour = Some (mkPoint x y)
      /\ grown contour)
    (traced (scanSeeds Math_atan2 Math_acos edges w h)).
Proof.
  by destruct (scanSeeds_traced edges w h) as (_ & _ & ? & _).
Qed.

(** X10.  After a detection pass the entries of the visited array that hold
    [true] are exactly the indices of the pixels collected into contours. *)
Theorem visited_iff_collected (edges : list Z) (w h i : Z) :
  let s := scanSeeds Math_atan2 Math_acos edges w h in
  aget (visited s) i = Some true
  <-> exists p, p ∈ mjoin (traced s) /\ pixelIndex w p = i.
Proof.
  cbv zeta. by destruct (scanSeeds_traced edges w h) as (_ & H & _).
Qed.

(** X11.  A contour that stays under the cap of 1000 points is a whole
    connected component of what was still free: every neighbour of one of
    its points that lies inside the image and is on in the edge mask has been
    collected into a contour of the pass. *)
Theorem traced_contours_closed (edges : list Z) (w h : Z) :
  let s := scanSeeds Math_atan2 Math_acos edges w h in
  Forall (fun contour =>
    (length contour < 1000)%nat ->
    forall p q,
      p ∈ contour -> adjacent p q -> inBounds w h q -> edgeOn edges w q ->
      q ∈ mjoin (traced s))
    (traced s).
Proof.
  cbv zeta.
  destruct (scanSeeds_traced edges w h) as (_ & Hmarks & _ & Hclosed).
  eapply Forall_impl; [exact Hclosed|]. cbv beta.
  intros contour H Hcap p q Hp Hadj Hin Hon.
  pose proof (skipPixel_true_inside _ _ _ _ _ (H Hcap p q Hp Hadj) Hin Hon)
    as Hq.
  apply Hmarks in Hq as (q' & Hq' & Hidx).
  destruct (scanSeeds_inv Math_atan2 Math_acos edges w h)
    as ((_ & _ & Hall) & _ & _).
  rewrite Forall_forall in Hall. destruct (Hall q' Hq') as (Hin' & _).
  unfold pixelIndex, inBounds in *.
  destruct (index_inj w (px q') (py q') (px q) (py q)) as [Ex Ey]; [lia..|].
  destruct q, q'. cbn [px py] in Ex, Ey. by subst.
Qed.

End PassLemmas.

(** On the 21 x 21 test frame a pass traces one contour, of 76 points, from
    the seed (10, 10), and retains its fit. *)
Example trace_square_frame :
  let edges :=
    sobelEdgeDetection
      (gaussianBlur (convertToGrayscale (squareFrame 21 10 14)) 21 21) 21 21 in
  let s := scanSeeds MathRef.atan2 MathRef.acos edges 21 21 in
  (fun contour => (length contour, head contour)) <$> traced s
  = [(76%nat, Some (mkPoint 10 10))]
  /\ length (rectangles s) = 1%nat.
Proof. vm_compute. split; reflexivity. Qed.

(** ** Loops that rewrite an RGBA buffer pixel by pixel *)

Lemma aget_None_ge {A} (a : list A) (i : Z) :
  Z.of_nat (length a) <= i -> aget a i = None.
Proof.
  intros Hi. unfold aget. destruct (i <? 0); [done|].
  apply lookup_ge_None. lia.
Qed.

Lemma NoDup_range (lo hi step : Z) : 0 < step -> NoDup (range lo hi step).
Proof.
  intros Hstep. unfold range. apply NoDup_fmap_2; [|apply NoDup_seqZ].
  intros j k Heq. nia.
Qed.

(** Three stores into the colour bytes of the pixel at [i]. *)
Lemma aget_paint (d : list Z) (i v0 v1 v2 j : Z) :
  aget (aset (aset (aset d i v0) (i + 1) v1) (i + 2) v2) j
  = match aget d j with
    | Some old =>
      Some (if j =? i then v0 else if j =? i + 1 then v1
            else if j =? i + 2 then v2 else old)
    | None => None
    end.
Proof.
  destruct (aget d j) as [old|] eqn:Hj.
  - pose proof (aget_Some_lt _ _ _ Hj) as Hlt.
    destruct (Z.eqb_spec j i) as [->|Hi].
    { rewrite !aget_aset_ne by lia. by apply aget_aset_eq. }
    destruct (Z.eqb_spec j (i + 1)) as [->|Hi1].
    { rewrite aget_aset_ne by lia. apply aget_aset_eq. by rewrite length_aset. }
    destruct (Z.eqb_spec j (i + 2)) as [->|Hi2].
    { apply aget_aset_eq. by rewrite !length_aset. }
    by rewrite !aget_aset_ne by lia.
  - unfold aget in *. destruct (j <? 0); [done|].
    apply lookup_ge_None. rewrite !length_aset. by apply lookup_ge_None.
Qed.

Section PixelLoop.
Variable body : Z -> list Z -> list Z.
Hypothesis body_length : forall i d, length (body i d) = length d.
Hypothesis body_other :
  forall i d j, ~ (i <= j < i + 4) -> aget (body i d) j = aget d j.
Hypothesis body_local :
  forall i d d' j,
    (forall k, i <= k < i + 4 -> aget d k = aget d' k) -> i <= j < i + 4 ->
    aget (body i d) j = aget (body i d') j.

Lemma length_pixels (l : list Z) (d : list Z) : length (for_ l body d) = length d.
Proof.
  apply (for_invariant (fun d' => length d' = length d)); [done|].
  intros i d' _ <-. apply body_length.
Qed.

Lemma pixels_miss (l : list Z) (d : list Z) (j : Z) :
  (forall i, i ∈ l -> ~ (i <= j < i + 4)) -> aget (for_ l body d) j = aget d j.
Proof.
  revert d. induction l as [|a l IH]; intros d Hl; [done|].
  unfold for_ in *. simpl. rewrite IH.
  - apply body_other, Hl. left.
  - intros i Hi. apply Hl. by right.
Qed.

Lemma pixels_hit (l : list Z) (d : list Z) (i0 j : Z) :
  NoDup l -> (forall i, i ∈ l -> exists k, i = 4 * k) ->
  i0 ∈ l -> i0 <= j < i0 + 4 ->
  aget (for_ l body d) j = aget (body i0 d) j.
Proof.
  revert d. induction l as [|a l IH]; intros d Hnd Hmul Hin Hj.
  { by apply elem_of_nil in Hin. }
  apply NoDup_cons in Hnd as [Ha Hnd].
  destruct (Hmul a) as [ka Hka]; [left|].
  destruct (Hmul i0 Hin) as [k0 Hk0].
  change (for_ (a :: l) body d) with (for_ l body (body a d)).
  destruct (decide (i0 = a)) as [->|Hne].
  - apply pixels_miss. intros i Hi Hij.
    destruct (Hmul i) as [ki Hki]; [by right|].
    assert (i = a) as -> by lia. done.
  - apply elem_of_cons in Hin as [?|Hin]; [done|].
    rewrite IH; [|done| |done|done].
    + apply body_local; [|done]. intros k Hk. apply body_other. lia.
    + intros i Hi. apply Hmul. by right.
Qed.

Lemma pixel_loop (d : list Z) (j : Z) :
  aget (for_ (range 0 (Z.of_nat (length d)) 4) body d) j
  = aget (body (4 * (j / 4)) d) j.
Proof.
  destruct (Z.ltb_spec j 0) as [Hneg|Hpos].
  { unfold aget. by destruct (Z.ltb_spec j 0); [|lia]. }
  destruct (Z.leb_spec (Z.of_nat (length d)) j) as [Hge|Hlt].
  { rewrite !aget_None_ge; [done|..].
    - by rewrite body_length.
    - by rewrite length_pixels. }
  pose proof (Z.div_mod j 4 ltac:(lia)) as Hdm.
  pose proof (Z.mod_pos_bound j 4 ltac:(lia)) as Hmod.
  apply pixels_hit.
  - apply NoDup_range. lia.
  - intros i (k & _ & -> & _)%elem_of_range; [|lia]. exists k. lia.
  - apply elem_of_range; [lia|]. exists (j / 4).
    split; [apply Z.div_pos; lia|]. lia.
  - lia.
Qed.

End PixelLoop.

(** A body that stores three values computed from the colour bytes of its
    pixel into these bytes. *)
Section PaintLoop.
Variable colour : float -> float -> float -> Z * Z * Z.

Let paint (i : Z) (d : list Z) : list Z :=
  let c := colour (read d i) (read d (i + 1)) (read d (i + 2)) in
  aset (aset (aset d i c.1.1) (i + 1) c.1.2) (i + 2) c.2.

Lemma paint_loop (d : list Z) (k r g b a : Z) :
  pixelAt d k = Some (r, g, b, a) ->
  pixelAt (for_ (range 0 (Z.of_nat (length d)) 4) paint d) k
  = Some ((colour (of_Z r) (of_Z g) (of_Z b)).1.1,
          (colour (of_Z r) (of_Z g) (of_Z b)).1.2,
          (colour (of_Z r) (of_Z g) (of_Z b)).2, a).
Proof.
  unfold pixelAt.
  destruct (aget d (4 * k)) as [r'|] eqn:Hr; [|done].
  destruct (aget d (4 * k + 1)) as [g'|] eqn:Hg; [|done].
  destruct (aget d (4 * k + 2)) as [b'|] eqn:Hb; [|done].
  destruct (aget d (4 * k + 3)) as [a'|] eqn:Ha; [|done].
  intros [= -> -> -> ->].
  assert (forall c, 0 <= c < 4 -> 4 * ((4 * k + c) / 4) = 4 * k) as Hdiv.
  { intros c Hc. f_equal. rewrite Z.mul_comm, Z.div_add_l by lia.
    rewrite (Z.div_small c 4) by lia. lia. }
  assert (forall c, 0 <= c < 4 ->
            aget (for_ (range 0 (Z.of_nat (length d)) 4) paint d) (4 * k + c)
            = aget (paint (4 * k) d) (4 * k + c)) as Hloop.
  { intros c Hc. rewrite (pixel_loop paint).
    - by rewrite (Hdiv c Hc).
    - intros i d'. unfold paint. by rewrite !length_aset.
    - intros i d' j Hj. unfold paint. cbv zeta. rewrite aget_paint.
      destruct (aget d' j); [|done]. f_equal.
      destruct (Z.eqb_spec j i); [lia|]. destruct (Z.eqb_spec j (i + 1)); [lia|].
      by destruct (Z.eqb_spec j (i + 2)); [lia|].
    - intros i d1 d2 j Hagree Hj. unfold paint, read. cbv zeta.
      rewrite !aget_paint.
      rewrite (Hagree i), (Hagree (i + 1)), (Hagree (i + 2)), (Hagree j) by lia.
      done. }
  assert (paint (4 * k) d
          = let c := colour (of_Z r) (of_Z g) (of_Z b) in
            aset (aset (aset d (4 * k) c.1.1) (4 * k + 1) c.1.2) (4 * k + 2) c.2)
    as Hpaint.
  { unfold paint, read. by rewrite Hr, Hg, Hb. }
  replace (4 * k) with (4 * k + 0) at 1 by lia.
  rewrite !Hloop by lia. rewrite Hpaint. cbv zeta. rewrite !aget_paint.
  replace (4 * k + 0) with (4 * k) by lia. rewrite Hr, Hg, Hb, Ha.
  rewrite Z.eqb_refl.
  destruct (Z.eqb_spec (4 * k + 1) (4 * k)); [lia|]. rewrite Z.eqb_refl.
  destruct (Z.eqb_spec (4 * k + 2) (4 * k)); [lia|].
  destruct (Z.eqb_spec (4 * k + 2) (4 * k + 1)); [lia|]. rewrite Z.eqb_refl.
  destruct (Z.eqb_spec (4 * k + 3) (4 * k)); [lia|].
  destruct (Z.eqb_spec (4 * k + 3) (4 * k + 1)); [lia|].
  by destruct (Z.eqb_spec (4 * k + 3) (4 * k + 2)); [lia|].
Qed.

Lemma length_paint_loop (d : list Z) :
  length (for_ (range 0 (Z.of_nat (length d)) 4) paint d) = length d.
Proof.
  apply length_pixels. intros i d'. unfold paint. by rewrite !length_aset.
Qed.

End PaintLoop.

(** ** Stage 3 again: the edge mask *)

Lemma Forall_aset {A} (P : A -> Prop) (a : list A) (i : Z) (v : A) :
  Forall P a -> P v -> Forall P (aset a i v).
Proof.
  intros Ha Hv. unfold aset. destruct (i <? 0); [done|].
  by apply Forall_insert.
Qed.

(** X12.  The edge mask has one entry per entry of its input; every entry
    is 0 or 255; and the entries of the 1-pixel border ring are 0. *)
Theorem sobel_mask_binary (data : list Z) (w h : Z) :
  length (sobelEdgeDetection data w h) = length data
  /\ Forall (fun v => v = 0 \/ v = 255) (sobelEdgeDetection data w h)
  /\ (forall x y,
        0 <= x < w -> 0 <= y < h ->
        x = 0 \/ x = w - 1 \/ y = 0 \/ y = h - 1 ->
        y * w + x < Z.of_nat (length data) ->
        aget (sobelEdgeDetection data w h) (y * w + x) = Some 0).
Proof.
  split; [|split].
  - unfold sobelEdgeDetection. rewrite length_raster. apply length_replicate.
  - unfold sobelEdgeDetection. cbv zeta.
    apply (for_invariant (Forall (fun v => v = 0 \/ v = 255))).
    { apply Forall_replicate. by left. }
    intros y edges _ Hedges. apply for_invariant; [done|].
    intros x edges' _ Hedges'. apply Forall_aset; [done|].
    unfold sobelAt. cbv zeta. case_match; auto.
  - intros x y Hx Hy Hb Hlen. unfold sobelEdgeDetection.
    rewrite (raster_border (fun x y => sobelAt data w x y)) by done.
    apply aget_replicate. nia.
Qed.

(** ** Stage 1 again: pixels that are grey already *)

Lemma gray_fixpoint (v : Z) : isByte v -> ToUint8Clamp (luma v v v) = v.
Proof.
  intros Hv. apply Z.eqb_eq.
  apply (forall_bytes (fun v => ToUint8Clamp (luma v v v) =? v)); [|done].
  vm_compute. reflexivity.
Qed.

(** X13.  A pixel whose red, green and blue bytes are equal keeps that
    value in the grayscale image: the three weights sum to 1 up to a
    rounding that the conversion to a byte absorbs. *)
Theorem grayscale_of_gray_pixel (imageData : ImageData) (k v : Z) :
  0 <= k < width imageData * height imageData ->
  isByte v ->
  aget (data imageData) (4 * k) = Some v ->
  aget (data imageData) (4 * k + 1) = Some v ->
  aget (data imageData) (4 * k + 2) = Some v ->
  aget (convertToGrayscale imageData) k = Some v.
Proof.
  intros Hk Hv Hr Hg Hb.
  rewrite grayscale_lookup; [|done|apply aget_Some_lt in Hr; lia].
  unfold luminance, read. rewrite Hr, Hg, Hb. f_equal.
  by apply gray_fixpoint.
Qed.

Lemma grayscale_of_gray_pixel_witness :
  aget (convertToGrayscale (mkImageData 2 1 [9; 9; 9; 255; 77; 77; 77; 0])) 1
  = Some 77.
Proof.
  apply (grayscale_of_gray_pixel (mkImageData 2 1 [9; 9; 9; 255; 77; 77; 77; 0]) 1 77);
    [simpl; lia | unfold isByte; lia | reflexivity..].
Defined.

(** ** Stage 10 again: what the tone enhancer does to each byte *)

Lemma enhanceData_paint (contrast brightness : float) (d : list Z) :
  enhanceData contrast brightness d
  = for_ (range 0 (Z.of_nat (length d)) 4) (fun i d =>
      let c :=
        (fun r g b : float =>
           (ToUint8Clamp (Math_min 255 (Math_max 0
              ((r - 128) * contrast + 128 + brightness)))%float,
            ToUint8Clamp (Math_min 255 (Math_max 0
              ((g - 128) * contrast + 128 + brightness)))%float,
            ToUint8Clamp (Math_min 255 (Math_max 0
              ((b - 128) * contrast + 128 + brightness)))%float))
          (read d i) (read d (i + 1)) (read d (i + 2)) in
      aset (aset (aset d i c.1.1) (i + 1) c.1.2) (i + 2) c.2) d.
Proof.
  unfold enhanceData. apply for_ext. intros i s _. cbv zeta beta.
  cbn [fst snd]. unfold enhanceChannel, read.
  by rewrite !aget_aset_ne by lia.
Qed.

(** X14.  The tone enhancer keeps the length of the buffer and works byte
    by byte: the red, green and blue bytes of every pixel go through the tone
    curve [clamp ((v - 128) * contrast + 128 + brightness)], each on its own,
    and the alpha byte stays. *)
Theorem enhanceData_pointwise (contrast brightness : float) (data : list Z)
    (k r g b a : Z) :
  pixelAt data k = Some (r, g, b, a) ->
  length (enhanceData contrast brightness data) = length data
  /\ pixelAt (enhanceData contrast brightness data) k
     = Some (toneCurve contrast brightness r, toneCurve contrast brightness g,
             toneCurve contrast brightness b, a).
Proof.
  intros Hpix. rewrite enhanceData_paint. split.
  - apply (length_paint_loop (fun r g b : float =>
      (ToUint8Clamp (Math_min 255 (Math_max 0
         ((r - 128) * contrast + 128 + brightness)))%float,
       ToUint8Clamp (Math_min 255 (Math_max 0
         ((g - 128) * contrast + 128 + brightness)))%float,
       ToUint8Clamp (Math_min 255 (Math_max 0
         ((b - 128) * contrast + 128 + brightness)))%float))).
  - by rewrite (paint_loop (fun r g b : float =>
      (ToUint8Clamp (Math_min 255 (Math_max 0
         ((r - 128) * contrast + 128 + brightness)))%float,
       ToUint8Clamp (Math_min 255 (Math_max 0
         ((g - 128) * contrast + 128 + brightness)))%float,
       ToUint8Clamp (Math_min 255 (Math_max 0
         ((b - 128) * contrast + 128 + brightness)))%float)) data k r g b a Hpix).
Qed.

Lemma enhanceData_pointwise_witness :
  pixelAt [128; 133; 0; 255; 1; 2; 3; 4] 1 = Some (1, 2, 3, 4)
  /\ length (enhanceData contrast brightness [128; 133; 0; 255; 1; 2; 3; 4])
     = length [128; 133; 0; 255; 1; 2; 3; 4]
  /\ pixelAt (enhanceData contrast brightness [128; 133; 0; 255; 1; 2; 3; 4]) 1
     = Some (toneCurve contrast brightness 1, toneCurve contrast brightness 2,
             toneCurve contrast brightness 3, 4).
Proof.
  split; [reflexivity|].
  apply (enhanceData_pointwise contrast brightness
           [128; 133; 0; 255; 1; 2; 3; 4] 1 1 2 3 4).
  reflexivity.
Defined.

Lemma monotone_by_steps (f : Z -> Z) (hi : Z) :
  (forall v, 0 <= v < hi -> f v <= f (v + 1)) ->
  forall u v, 0 <= u -> u <= v -> v <= hi -> f u <= f v.
Proof.
  intros Hstep u v Hu Huv Hv.
  replace v with (u + Z.of_nat (Z.to_nat (v - u))) in * by lia.
  induction (Z.to_nat (v - u)) as [|n IH].
  - replace (u + Z.of_nat 0) with u by lia. lia.
  - etransitivity; [apply IH; lia|].
    replace (u + Z.of_nat (S n)) with (u + Z.of_nat n + 1) by lia.
    apply Hstep. lia.
Qed.

(** X15.  With the constants of the source (contrast 1.3, brightness 15)
    the tone curve never reverses the order of two bytes; it sends the bytes
    up to 18, and only these, to 0, and the bytes from 214 on, and only
    these, to 255. *)
Theorem toneCurve_shape (u v : Z) :
  isByte u -> isByte v -> u <= v ->
  toneCurve contrast brightness u <= toneCurve contrast brightness v
  /\ (toneCurve contrast brightness v = 0 <-> v <= 18)
  /\ (toneCurve contrast brightness v = 255 <-> 214 <= v).
Proof.
  intros Hu Hv Huv.
  assert (forall x, isByte x ->
            ((x =? 255) || (toneCurve contrast brightness x
                            <=? toneCurve contrast brightness (x + 1)))
            && Bool.eqb (toneCurve contrast brightness x =? 0) (x <=? 18)
            && Bool.eqb (toneCurve contrast brightness x =? 255) (214 <=? x)
            = true) as Hall.
  { apply forall_bytes. vm_compute. reflexivity. }
  split; [|split].
  - unfold isByte in *.
    apply (monotone_by_steps (toneCurve contrast brightness) 255); [|lia..].
    intros x Hx. specialize (Hall x ltac:(unfold isByte; lia)).
    apply andb_true_iff in Hall as [[Hs _]%andb_true_iff _].
    apply orb_true_iff in Hs as [?%Z.eqb_eq | ?%Z.leb_le]; [lia|done].
  - specialize (Hall v Hv).
    apply andb_true_iff in Hall as [[_ H0%eqb_prop]%andb_true_iff _].
    rewrite <- Z.eqb_eq, <- Z.leb_le, H0. done.
  - specialize (Hall v Hv).
    apply andb_true_iff in Hall as [_ H255%eqb_prop].
    rewrite <- Z.eqb_eq, <- Z.leb_le, H255. done.
Qed.

Lemma toneCurve_shape_witness :
  isByte 100 /\ isByte 200 /\ 100 <= 200
  /\ toneCurve contrast brightness 100 <= toneCurve contrast brightness 200
  /\ (toneCurve contrast brightness 200 = 0 <-> 200 <= 18)
  /\ (toneCurve contrast brightness 200 = 255 <-> 214 <= 200).
Proof.
  split; [unfold isByte; lia|]. split; [unfold isByte; lia|]. split; [lia|].
  apply (toneCurve_shape 100 200); unfold isByte; lia.
Defined.

(** ** The capture filters *)

Lemma pixelAt_Some (l : list Z) (k r g b a : Z) :
  pixelAt l k = Some (r, g, b, a)
  <-> aget l (4 * k) = Some r /\ aget l (4 * k + 1) = Some g
      /\ aget l (4 * k + 2) = Some b /\ aget l (4 * k + 3) = Some a.
Proof.
  unfold pixelAt.
  destruct (aget l (4 * k)), (aget l (4 * k + 1)), (aget l (4 * k + 2)),
    (aget l (4 * k + 3)); split;
    first [done | by intros [= -> -> -> ->] | intros (? & ? & ? & ?); congruence].
Qed.

Lemma full_pixel (l : list Z) (j : Z) :
  Z.of_nat (length l) mod 4 = 0 -> 0 <= j < Z.of_nat (length l) ->
  exists r g b a, pixelAt l (j / 4) = Some (r, g, b, a).
Proof.
  intros Hmod Hj.
  pose proof (Z.div_mod j 4 ltac:(lia)) as Hdm.
  pose proof (Z.mod_pos_bound j 4 ltac:(lia)) as Hjm.
  pose proof (Z.div_mod (Z.of_nat (length l)) 4 ltac:(lia)) as Hlm.
  assert (forall c, 0 <= c < 4 -> exists v, aget l (4 * (j / 4) + c) = Some v)
    as Hget.
  { intros c Hc. unfold aget.
    destruct (Z.ltb_spec (4 * (j / 4) + c) 0); [lia|].
    apply lookup_lt_is_Some. lia. }
  destruct (Hget 0) as [r Hr]; [lia|]. destruct (Hget 1) as [g Hg]; [lia|].
  destruct (Hget 2) as [b Hb]; [lia|]. destruct (Hget 3) as [a Ha]; [lia|].
  exists r, g, b, a. apply pixelAt_Some.
  by rewrite Z.add_0_r in Hr.
Qed.

(** A filter that maps every pixel through [P] and keeps the length is
    idempotent on RGBA buffers when [P] is. *)
Lemma filter_idempotent (F : list Z -> list Z)
    (P : Z * Z * Z * Z -> Z * Z * Z * Z) :
  (forall d, length (F d) = length d) ->
  (forall d k p, pixelAt d k = Some p -> pixelAt (F d) k = Some (P p)) ->
  (forall p, P (P p) = P p) ->
  forall d, Z.of_nat (length d) mod 4 = 0 -> F (F d) = F d.
Proof.
  intros Hlen Hpix Hidem d Hmod. apply list_eq. intros j.
  destruct (decide (j < length d)%nat) as [Hlt|Hge].
  - destruct (full_pixel d (Z.of_nat j) Hmod) as (r & g & b & a & Hp); [lia|].
    pose proof (Hpix _ _ _ Hp) as Hp1. pose proof (Hpix _ _ _ Hp1) as Hp2.
    rewrite Hidem in Hp2. destruct (P (r, g, b, a)) as [[[r' g'] b'] a'].
    apply pixelAt_Some in Hp1 as (H0 & H1 & H2 & H3).
    apply pixelAt_Some in Hp2 as (H0' & H1' & H2' & H3').
    pose proof (Z.div_mod (Z.of_nat j) 4 ltac:(lia)) as Hdm.
    pose proof (Z.mod_pos_bound (Z.of_nat j) 4 ltac:(lia)) as Hjm.
    rewrite <- !aget_of_nat.
    assert (Z.of_nat j = 4 * (Z.of_nat j / 4)
            \/ Z.of_nat j = 4 * (Z.of_nat j / 4) + 1
            \/ Z.of_nat j = 4 * (Z.of_nat j / 4) + 2
            \/ Z.of_nat j = 4 * (Z.of_nat j / 4) + 3) as Hcase by lia.
    destruct Hcase as [-> | [-> | [-> | ->]]]; congruence.
  - rewrite !lookup_ge_None_2; [done|..]; rewrite ?Hlen; lia.
Qed.

Lemma applyGrayscale_pixel (data : list Z) (k r g b a : Z) :
  pixelAt data k = Some (r, g, b, a) ->
  pixelAt (applyGrayscale data) k
  = Some (ToUint8Clamp (luma r g b), ToUint8Clamp (luma r g b),
          ToUint8Clamp (luma r g b), a).
Proof.
  intros Hpix.
  exact (paint_loop (fun r g b : float =>
           let y := ToUint8Clamp (r * 0.299 + g * 0.587 + b * 0.114)%float in
           (y, y, y)) data k r g b a Hpix).
Qed.

Lemma applyBlackWhite_pixel (data : list Z) (k r g b a : Z) :
  pixelAt data k = Some (r, g, b, a) ->
  pixelAt (applyBlackWhite data) k
  = Some (blackWhite (luma r g b), blackWhite (luma r g b),
          blackWhite (luma r g b), a).
Proof.
  intros Hpix.
  exact (paint_loop (fun r g b : float =>
           let bw := blackWhite (r * 0.299 + g * 0.587 + b * 0.114)%float in
           (bw, bw, bw)) data k r g b a Hpix).
Qed.

Lemma applyEnhancement_pixel (data : list Z) (k r g b a : Z) :
  pixelAt data k = Some (r, g, b, a) ->
  pixelAt (applyEnhancement data) k
  = Some (ToUint8Clamp (enhanced (luma r g b)),
          ToUint8Clamp (enhanced (luma r g b)),
          ToUint8Clamp (enhanced (luma r g b)), a).
Proof.
  intros Hpix.
  exact (paint_loop (fun r g b : float =>
           let e := ToUint8Clamp
                      (enhanced (r * 0.299 + g * 0.587 + b * 0.114)%float) in
           (e, e, e)) data k r g b a Hpix).
Qed.

Lemma length_filterData (f : Filter) (data : list Z) :
  length (filterData f data) = length data.
Proof.
  destruct f; [done|..].
  - exact (length_paint_loop (fun r g b : float =>
      let y := ToUint8Clamp (r * 0.299 + g * 0.587 + b * 0.114)%float in
      (y, y, y)) data).
  - exact (length_paint_loop (fun r g b : float =>
      let bw := blackWhite (r * 0.299 + g * 0.587 + b * 0.114)%float in
      (bw, bw, bw)) data).
  - exact (length_paint_loop (fun r g b : float =>
      let e := ToUint8Clamp
                 (enhanced (r * 0.299 + g * 0.587 + b * 0.114)%float) in
      (e, e, e)) data).
Qed.

Lemma blackWhite_fixpoint (gray : float) :
  blackWhite (luma (blackWhite gray) (blackWhite gray) (blackWhite gray))
  = blackWhite gray.
Proof.
  unfold blackWhite at 2 3 4 5. cbv zeta.
  destruct (128 <? gray)%float; vm_compute; reflexivity.
Qed.

(** X16.  The grayscale filter gives the red, green and blue bytes of every
    pixel the rounded luma of the pixel and keeps its alpha byte; applied to
    its own output it changes nothing. *)
Theorem applyGrayscale_spec (data : list Z) :
  Z.of_nat (length data) mod 4 = 0 ->
  length (applyGrayscale data) = length data
  /\ (forall k r g b a,
        pixelAt data k = Some (r, g, b, a) ->
        pixelAt (applyGrayscale data) k
        = Some (ToUint8Clamp (luma r g b), ToUint8Clamp (luma r g b),
                ToUint8Clamp (luma r g b), a))
  /\ applyGrayscale (applyGrayscale data) = applyGrayscale data.
Proof.
  intros Hmod. split; [apply (length_filterData Grayscale)|].
  split; [apply applyGrayscale_pixel|].
  apply (filter_idempotent applyGrayscale
           (fun p => (ToUint8Clamp (luma p.1.1.1 p.1.1.2 p.1.2),
                      ToUint8Clamp (luma p.1.1.1 p.1.1.2 p.1.2),
                      ToUint8Clamp (luma p.1.1.1 p.1.1.2 p.1.2), p.2)));
    [apply (length_filterData Grayscale)| | |done].
  - intros d k [[[r g] b] a]. apply applyGrayscale_pixel.
  - intros [[[r g] b] a]. cbn [fst snd].
    by rewrite gray_fixpoint by apply ToUint8Clamp_byte.
Qed.

Lemma applyGrayscale_spec_witness :
  Z.of_nat (length [200; 100; 50; 255; 10; 20; 30; 0]) mod 4 = 0
  /\ length (applyGrayscale [200; 100; 50; 255; 10; 20; 30; 0])
     = length [200; 100; 50; 255; 10; 20; 30; 0]
  /\ (forall k r g b a,
        pixelAt [200; 100; 50; 255; 10; 20; 30; 0] k = Some (r, g, b, a) ->
        pixelAt (applyGrayscale [200; 100; 50; 255; 10; 20; 30; 0]) k
        = Some (ToUint8Clamp (luma r g b), ToUint8Clamp (luma r g b),
                ToUint8Clamp (luma r g b), a))
  /\ applyGrayscale (applyGrayscale [200; 100; 50; 255; 10; 20; 30; 0])
     = applyGrayscale [200; 100; 50; 255; 10; 20; 30; 0].
Proof.
  split; [reflexivity|].
  apply (applyGrayscale_spec [200; 100; 50; 255; 10; 20; 30; 0]). reflexivity.
Defined.

(** X17.  The black-and-white filter gives the red, green and blue bytes of
    every pixel the same value, 255 when the luma of the pixel is above 128
    and 0 otherwise, and keeps its alpha byte; applied to its own output it
    changes nothing. *)
Theorem applyBlackWhite_spec (data : list Z) :
  Z.of_nat (length data) mod 4 = 0 ->
  length (applyBlackWhite data) = length data
  /\ (forall k r g b a,
        pixelAt data k = Some (r, g, b, a) ->
        exists bw,
          pixelAt (applyBlackWhite data) k = Some (bw, bw, bw, a)
          /\ bw = (if (128 <? luma r g b)%float then 255 else 0))
  /\ applyBlackWhite (applyBlackWhite data) = applyBlackWhite data.
Proof.
  intros Hmod. split; [apply (length_filterData BlackWhite)|]. split.
  - intros k r g b a Hpix. exists (blackWhite (luma r g b)).
    split; [by apply applyBlackWhite_pixel|done].
  - apply (filter_idempotent applyBlackWhite
             (fun p => (blackWhite (luma p.1.1.1 p.1.1.2 p.1.2),
                        blackWhite (luma p.1.1.1 p.1.1.2 p.1.2),
                        blackWhite (luma p.1.1.1 p.1.1.2 p.1.2), p.2)));
      [apply (length_filterData BlackWhite)| | |done].
    + intros d k [[[r g] b] a]. apply applyBlackWhite_pixel.
    + intros [[[r g] b] a]. cbn [fst snd]. by rewrite blackWhite_fixpoint.
Qed.

Lemma applyBlackWhite_spec_witness :
  Z.of_nat (length [200; 100; 50; 255; 250; 220; 130; 0]) mod 4 = 0
  /\ length (applyBlackWhite [200; 100; 50; 255; 250; 220; 130; 0])
     = length [200; 100; 50; 255; 250; 220; 130; 0]
  /\ (forall k r g b a,
        pixelAt [200; 100; 50; 255; 250; 220; 130; 0] k = Some (r, g, b, a) ->
        exists bw,
          pixelAt (applyBlackWhite [200; 100; 50; 255; 250; 220; 130; 0]) k
          = Some (bw, bw, bw, a)
          /\ bw = (if (128 <? luma r g b)%float then 255 else 0))
  /\ applyBlackWhite (applyBlackWhite [200; 100; 50; 255; 250; 220; 130; 0])
     = applyBlackWhite [200; 100; 50; 255; 250; 220; 130; 0].
Proof.
  split; [reflexivity|].
  apply (applyBlackWhite_spec [200; 100; 50; 255; 250; 220; 130; 0]).
  reflexivity.
Defined.

(** X18.  Whatever filter is selected, the filtered data has the length of
    the input and every pixel keeps its alpha byte; with every filter but
    the default one the red, green and blue bytes of a pixel come out
    equal. *)
Theorem filterData_keeps_alpha (currentFilter : Filter) (data : list Z)
    (k r g b a : Z) :
  pixelAt data k = Some (r, g, b, a) ->
  length (filterData currentFilter data) = length data
  /\ exists r' g' b',
       pixelAt (filterData currentFilter data) k = Some (r', g', b', a)
       /\ (currentFilter <> Original -> r' = g' /\ g' = b').
Proof.
  intros Hpix. split; [apply length_filterData|].
  destruct currentFilter; cbn [filterData].
  - exists r, g, b. by split.
  - eexists _, _, _. split; [by apply applyGrayscale_pixel|done].
  - eexists _, _, _. split; [by apply applyBlackWhite_pixel|done].
  - eexists _, _, _. split; [by apply applyEnhancement_pixel|done].
Qed.

Lemma filterData_keeps_alpha_witness :
  pixelAt [200; 100; 50; 77] 0 = Some (200, 100, 50, 77)
  /\ length (filterData Enhance [200; 100; 50; 77]) = length [200; 100; 50; 77]
  /\ exists r' g' b',
       pixelAt (filterData Enhance [200; 100; 50; 77]) 0 = Some (r', g', b', 77)
       /\ (Enhance <> Original -> r' = g' /\ g' = b').
Proof.
  split; [reflexivity|].
  apply (filterData_keeps_alpha Enhance [200; 100; 50; 77] 0 200 100 50 77).
  reflexivity.
Defined.

(** ** Stage 9 again: what each pixel of the rectified page receives *)

Lemma foldl_filter {S B} (c : B -> bool) (g : S -> B -> S) (l : list B) (s : S) :
  foldl (fun s b => if c b then g s b else s) s l
  = foldl g s (List.filter c l).
Proof.
  revert s. induction l as [|b l IH]; intros s; [done|].
  simpl. destruct (c b); simpl; apply IH.
Qed.

(** The value the rectifier stores into channel [k] of a sampled pixel. *)
Lemma resampleQuad_get (canvas : Canvas) (sourceData : list Z)
    (c0 c1 c2 c3 : Point) (destWidth : Z) (destHeight : float)
    (destData : list Z) (x y k : Z) :
  0 <= x < destWidth -> 0 <= y < Qceiling (F2Q destHeight) -> 0 <= k < 4 ->
  (y * destWidth + x) * 4 + k < Z.of_nat (length destData) ->
  aget (resampleQuad canvas sourceData c0 c1 c2 c3 destWidth destHeight destData)
       ((y * destWidth + x) * 4 + k)
  = match sourceCoordinate c0 c1 c2 c3 destWidth destHeight x y with
    | Some s =>
      if sampled canvas s
      then Some (if k =? 3 then 255
                 else default 0
                        (aget sourceData ((s.2 * cwidth canvas + s.1) * 4 + k)))
      else aget destData ((y * destWidth + x) * 4 + k)
    | None => aget destData ((y * destWidth + x) * 4 + k)
    end.
Proof.
  intros Hx Hy Hk Hlen. unfold resampleQuad.
  set (src := fun yx : Z * Z =>
         sourceCoordinate c0 c1 c2 c3 destWidth destHeight yx.2 yx.1).
  set (hit := fun yx : Z * Z =>
         match src yx with Some s => sampled canvas s | None => false end).
  set (chan := fun (yx : Z * Z) (k : Z) =>
         match src yx with
         | Some s =>
           if k =? 3 then 255
           else default 0 (aget sourceData ((s.2 * cwidth canvas + s.1) * 4 + k))
         | None => 0
         end).
  rewrite (for_ext _ _ (fun y d =>
             for_ (range 0 destWidth 1) (fun x d =>
               if hit (y, x)
               then foldl (fun d k =>
                             aset d ((y * destWidth + x) * 4 + k) (chan (y, x) k))
                          d [0; 1; 2; 3]
               else d) d)).
  2: { intros y' d _. apply for_ext. intros x' d' _.
       unfold hit, sampled, chan, src. cbn [fst snd].
       destruct (sourceCoordinate c0 c1 c2 c3 destWidth destHeight x' y')
         as [[sx sy]|]; [|done]. cbn [fst snd].
       destruct (_ && _ && _ && _); [|done].
       cbn [foldl Z.eqb Pos.eqb]. by rewrite !Z.add_0_r. }
  rewrite for_for.
  rewrite (foldl_filter (fun yx : Z * Z => hit (yx.1, yx.2))
             (fun d yx =>
                foldl (fun d k =>
                         aset d ((yx.1 * destWidth + yx.2) * 4 + k)
                              (chan (yx.1, yx.2) k)) d [0; 1; 2; 3])).
  rewrite (foldl_nested
             (fun d (yx : Z * Z) k =>
                aset d ((yx.1 * destWidth + yx.2) * 4 + k) (chan (yx.1, yx.2) k))).
  set (pairs := List.filter _ _).
  assert (forall y' x', (y', x') ∈ pairs <->
            (0 <= y' < Qceiling (F2Q destHeight) /\ 0 <= x' < destWidth)
            /\ hit (y', x') = true) as Hpairs.
  { intros y' x'. unfold pairs.
    rewrite list_elem_of_In, filter_In, <- list_elem_of_In, elem_of_pairs.
    rewrite !elem_of_range1. cbn [fst snd]. tauto. }
  assert (match sourceCoordinate c0 c1 c2 c3 destWidth destHeight x y with
          | Some s =>
            if sampled canvas s
            then Some (if k =? 3 then 255
                       else default 0
                              (aget sourceData
                                 ((s.2 * cwidth canvas + s.1) * 4 + k)))
            else aget destData ((y * destWidth + x) * 4 + k)
          | None => aget destData ((y * destWidth + x) * 4 + k)
          end
          = if hit (y, x) then Some (chan (y, x) k)
            else aget destData ((y * destWidth + x) * 4 + k)) as ->.
  { unfold hit, chan, src. cbn [fst snd].
    by destruct (sourceCoordinate c0 c1 c2 c3 destWidth destHeight x y). }
  destruct (hit (y, x)) eqn:Hs.
  - apply (writes_hit
             (fun yxk : Z * Z * Z => (yxk.1.1 * destWidth + yxk.1.2) * 4 + yxk.2)
             (fun yxk => chan (yxk.1.1, yxk.1.2) yxk.2) _ _ (y, x, k)).
    + apply list_elem_of_bind. exists (y, x). split.
      * apply list_elem_of_fmap. exists k. split; [done|].
        rewrite !elem_of_cons. lia.
      * by apply Hpairs.
    + intros [[y' x'] k'] Hin. cbn [fst snd].
      apply list_elem_of_bind in Hin as ([y'' x''] & Hk' & Hyx).
      apply list_elem_of_fmap in Hk' as (k'' & [= -> -> ->] & Hk'').
      apply Hpairs in Hyx as [[Hy'' Hx''] _].
      rewrite !elem_of_cons, elem_of_nil in Hk''. intros Heq.
      assert (k'' = k) as -> by lia.
      destruct (index_inj destWidth x'' y'' x y) as [-> ->]; [lia..|done].
    + cbn [fst snd]. nia.
  - apply (writes_miss
             (fun yxk : Z * Z * Z => (yxk.1.1 * destWidth + yxk.1.2) * 4 + yxk.2)
             (fun yxk => chan (yxk.1.1, yxk.1.2) yxk.2)).
    intros [[y' x'] k'] Hin. cbn [fst snd].
    apply list_elem_of_bind in Hin as ([y'' x''] & Hk' & Hyx).
    apply list_elem_of_fmap in Hk' as (k'' & [= -> -> ->] & Hk'').
    apply Hpairs in Hyx as [[Hy'' Hx''] Hs''].
    rewrite !elem_of_cons, elem_of_nil in Hk''. intros Heq.
    assert (k'' = k) as -> by lia.
    destruct (index_inj destWidth x'' y'' x y) as [-> ->]; [lia..|].
    congruence.
Qed.

Lemma length_resampleQuad (canvas : Canvas) (sourceData : list Z)
    (c0 c1 c2 c3 : Point) (destWidth : Z) (destHeight : float)
    (destData : list Z) :
  length (resampleQuad canvas sourceData c0 c1 c2 c3 destWidth destHeight destData)
  = length destData.
Proof.
  unfold resampleQuad.
  apply (for_invariant (fun d => length d = length destData)); [done|].
  intros y d _ Hd. apply for_invariant; [done|]. intros x d' _ Hd'.
  destruct (sourceCoordinate _ _ _ _ _ _ _ _) as [[sx sy]|]; [|done].
  destruct (_ && _ && _ && _); [|done]. cbv zeta. by rewrite !length_aset.
Qed.

(** *** The canvas interface, byte by byte *)

Lemma lookup_chunks {A} (f : Z -> list A) (m : Z) (n i k : nat) :
  (forall j, length (f j) = 4%nat) -> (i < n)%nat -> (k < 4)%nat ->
  mjoin (f <$> seqZ m (Z.of_nat n)) !! (4 * i + k)%nat = f (m + Z.of_nat i) !! k.
Proof.
  intros Hlen. revert m i. induction n as [|n IH]; intros m i Hi Hk; [lia|].
  rewrite Nat2Z.inj_succ, seqZ_cons by lia.
  replace (Z.pred (Z.succ (Z.of_nat n))) with (Z.of_nat n) by lia.
  rewrite fmap_cons.
  change (mjoin (f m :: (f <$> seqZ (Z.succ m) (Z.of_nat n))))
    with (f m ++ mjoin (f <$> seqZ (Z.succ m) (Z.of_nat n))).
  destruct i as [|i].
  - rewrite lookup_app_l by (rewrite Hlen; lia).
    by rewrite Nat.mul_0_r, Z.add_0_r.
  - rewrite lookup_app_r by (rewrite Hlen; lia). rewrite Hlen.
    replace (4 * S i + k - 4)%nat with (4 * i + k)%nat by lia.
    rewrite (IH (Z.succ m) i) by lia. f_equal. f_equal. lia.
Qed.

Lemma length_chunks {A} (f : Z -> list A) (m : Z) (n : nat) :
  (forall j, length (f j) = 4%nat) ->
  length (mjoin (f <$> seqZ m (Z.of_nat n))) = (4 * n)%nat.
Proof.
  intros Hlen. revert m. induction n as [|n IH]; intros m; [done|].
  rewrite Nat2Z.inj_succ, seqZ_cons by lia.
  replace (Z.pred (Z.succ (Z.of_nat n))) with (Z.of_nat n) by lia.
  rewrite fmap_cons.
  change (mjoin (f m :: (f <$> seqZ (Z.succ m) (Z.of_nat n))))
    with (f m ++ mjoin (f <$> seqZ (Z.succ m) (Z.of_nat n))).
  rewrite length_app, Hlen, IH. lia.
Qed.

(** The pixels [getImageData] returns for the whole canvas. *)
Lemma getImageData_whole (c : Canvas) :
  0 < cwidth c -> 0 < cheight c ->
  exists d,
    getImageData c (inject_Z (cwidth c)) (inject_Z (cheight c))
    = Some (mkImageData (cwidth c) (cheight c) d)
    /\ Z.of_nat (length d) = 4 * (cwidth c * cheight c)
    /\ forall j, 0 <= j < 4 * (cwidth c * cheight c) ->
         aget d j = Some (default 0 (aget (bitmap c) j)).
Proof.
  intros Hw Hh. unfold getImageData. rewrite !toLong_integer.
  destruct (Z.leb_spec (cwidth c) 0); [lia|].
  destruct (Z.leb_spec (cheight c) 0); [lia|]. cbn [orb].
  eexists. split; [reflexivity|].
  set (f := fun i : Z => _ <$> seqZ 0 4).
  assert (forall j, length (f j) = 4%nat) as Hlen by done.
  assert (0 <= cwidth c * cheight c) as Hn by nia.
  replace (seqZ 0 (cwidth c * cheight c))
    with (seqZ 0 (Z.of_nat (Z.to_nat (cwidth c * cheight c))))
    by (by rewrite Z2Nat.id).
  split; [rewrite length_chunks by done; lia|].
  intros j Hj. unfold aget at 1. destruct (Z.ltb_spec j 0); [lia|].
  pose proof (Z.div_mod j 4 ltac:(lia)) as Hdm.
  pose proof (Z.mod_pos_bound j 4 ltac:(lia)) as Hmod.
  replace (Z.to_nat j) with (4 * Z.to_nat (j / 4) + Z.to_nat (j mod 4))%nat by lia.
  rewrite lookup_chunks by (done || lia).
  rewrite Z.add_0_l, Z2Nat.id by (apply Z.div_pos; lia).
  unfold f. rewrite list_lookup_fmap.
  rewrite (lookup_seqZ_lt 0 4 (Z.to_nat (j mod 4))) by lia. cbn [fmap option_fmap option_map].
  set (i := j / 4) in *.
  assert (0 <= i < cwidth c * cheight c) as Hi by lia.
  pose proof (Z.div_mod i (cwidth c) ltac:(lia)) as Hdi.
  pose proof (Z.mod_pos_bound i (cwidth c) ltac:(lia)) as Hmi.
  assert (i / cwidth c < cheight c) as Hy
    by (apply Z.div_lt_upper_bound; lia).
  destruct (Z.ltb_spec (i mod cwidth c) (cwidth c)); [|lia].
  destruct (Z.ltb_spec (i / cwidth c) (cheight c)); [|lia]. cbn [andb].
  do 3 f_equal. lia.
Qed.

(** [putImageData] of a whole image onto a canvas of its size. *)
Lemma putImageData_whole (c : Canvas) (d : list Z) :
  0 < cwidth c ->
  Z.of_nat (length (bitmap c)) = 4 * (cwidth c * cheight c) ->
  length d = length (bitmap c) ->
  putImageData c (mkImageData (cwidth c) (cheight c) d)
  = mkCanvas (cwidth c) (cheight c) d.
Proof.
  intros Hw Hlen Hd. unfold putImageData. cbn [width height data]. f_equal.
  apply list_eq. intros n. rewrite list_lookup_imap.
  destruct (bitmap c !! n) as [old|] eqn:Hn; cbn [fmap option_fmap option_map].
  - apply lookup_lt_Some in Hn.
    set (i := Z.of_nat n).
    assert (0 <= i < 4 * (cwidth c * cheight c)) as Hi by lia.
    pose proof (Z.div_mod i 4 ltac:(lia)) as Hdm.
    pose proof (Z.mod_pos_bound i 4 ltac:(lia)) as Hmod.
    assert (0 <= i / 4 < cwidth c * cheight c) as Hq.
    { split; [apply Z.div_pos; lia|]. apply Z.div_lt_upper_bound; lia. }
    pose proof (Z.div_mod (i / 4) (cwidth c) ltac:(lia)) as Hdi.
    pose proof (Z.mod_pos_bound (i / 4) (cwidth c) ltac:(lia)) as Hmi.
    assert (i / 4 / cwidth c < cheight c) as Hy
      by (apply Z.div_lt_upper_bound; lia).
    destruct (Z.ltb_spec ((i / 4) mod cwidth c) (cwidth c)); [|lia].
    destruct (Z.ltb_spec (i / 4 / cwidth c) (cheight c)); [|lia]. cbn [andb].
    replace ((i / 4 / cwidth c * cwidth c + (i / 4) mod cwidth c) * 4 + i mod 4)
      with i by lia.
    unfold aget. destruct (Z.ltb_spec i 0); [lia|].
    unfold i. rewrite Nat2Z.id.
    destruct (d !! n) as [v|] eqn:Hv; [done|].
    apply lookup_ge_None in Hv. lia.
  - symmetry. apply lookup_ge_None. apply lookup_ge_None in Hn. lia.
Qed.

(** On a canvas whose bitmap has its four bytes per pixel, [enhanceDocument]
    called with the size of the canvas runs the tone loop on the bitmap. *)
Lemma enhanceDocument_whole (ctx : Canvas) (w h : Q) :
  toLong w = cwidth ctx -> toLong h = cheight ctx ->
  0 < cwidth ctx -> 0 < cheight ctx ->
  Z.of_nat (length (bitmap ctx)) = 4 * (cwidth ctx * cheight ctx) ->
  enhanceDocument ctx w h
  = Some (mkCanvas (cwidth ctx) (cheight ctx)
            (enhanceData contrast brightness (bitmap ctx))).
Proof.
  intros Hw Hh Hcw Hch Hlen.
  destruct (getImageData_whole ctx Hcw Hch) as (d & Hget & Hdlen & Hd).
  assert (d = bitmap ctx) as ->.
  { apply list_eq. intros n.
    destruct (Z.ltb_spec (Z.of_nat n) (4 * (cwidth ctx * cheight ctx))) as [Hn|Hn].
    - specialize (Hd (Z.of_nat n) ltac:(lia)). unfold aget in Hd.
      destruct (Z.ltb_spec (Z.of_nat n) 0); [lia|]. rewrite Nat2Z.id in Hd.
      rewrite Hd. destruct (bitmap ctx !! n) as [v|] eqn:Hv; [done|].
      apply lookup_ge_None in Hv. lia.
    - rewrite !(proj2 (lookup_ge_None _ _)) by lia. done. }
  unfold enhanceDocument.
  assert (getImageData ctx w h
          = getImageData ctx (inject_Z (cwidth ctx)) (inject_Z (cheight ctx))) as ->.
  { unfold getImageData. by rewrite !toLong_integer, Hw, Hh. }
  rewrite Hget.
  apply f_equal, putImageData_whole; [done|done|].
  unfold enhanceData.
  apply (for_invariant (fun d => length d = length (bitmap ctx))); [done|].
  intros i d _ Hd'. cbv zeta. by rewrite !length_aset.
Qed.

(** What the tone loop leaves in each byte. *)
Lemma enhanceData_get (contrast brightness : float) (data : list Z) (j v : Z) :
  Z.of_nat (length data) mod 4 = 0 -> aget data j = Some v ->
  aget (enhanceData contrast brightness data) j
  = Some (if j mod 4 =? 3 then v else toneCurve contrast brightness v).
Proof.
  intros Hmod Hj. pose proof (aget_Some_lt _ _ _ Hj) as Hlt.
  destruct (full_pixel data j Hmod Hlt) as (r & g & b & a & Hpix).
  assert (pixelAt (enhanceData contrast brightness data) (j / 4)
          = Some (toneCurve contrast brightness r, toneCurve contrast brightness g,
                  toneCurve contrast brightness b, a)) as Hloop.
  { rewrite enhanceData_paint.
    by rewrite (paint_loop (fun r g b : float =>
      (ToUint8Clamp (Math_min 255 (Math_max 0
         ((r - 128) * contrast + 128 + brightness)))%float,
       ToUint8Clamp (Math_min 255 (Math_max 0
         ((g - 128) * contrast + 128 + brightness)))%float,
       ToUint8Clamp (Math_min 255 (Math_max 0
         ((b - 128) * contrast + 128 + brightness)))%float))
      data (j / 4) r g b a Hpix). }
  apply pixelAt_Some in Hpix as (Hr & Hg & Hb & Ha).
  apply pixelAt_Some in Hloop as (Hr' & Hg' & Hb' & Ha').
  pose proof (Z.div_mod j 4 ltac:(lia)) as Hdm.
  pose proof (Z.mod_pos_bound j 4 ltac:(lia)) as Hjm.
  assert (j mod 4 = 0 \/ j mod 4 = 1 \/ j mod 4 = 2 \/ j mod 4 = 3)
    as [H0|[H1|[H2|H3]]] by lia.
  - rewrite H0. replace j with (4 * (j / 4)) at 1 by lia.
    replace (4 * (j / 4)) with j in Hr by lia.
    rewrite Hr'. cbn [Z.eqb]. congruence.
  - rewrite H1. replace j with (4 * (j / 4) + 1) at 1 by lia.
    replace (4 * (j / 4) + 1) with j in Hg by lia.
    rewrite Hg'. cbn [Z.eqb Pos.eqb]. congruence.
  - rewrite H2. replace j with (4 * (j / 4) + 2) at 1 by lia.
    replace (4 * (j / 4) + 2) with j in Hb by lia.
    rewrite Hb'. cbn [Z.eqb Pos.eqb]. congruence.
  - rewrite H3. replace j with (4 * (j / 4) + 3) at 1 by lia.
    replace (4 * (j / 4) + 3) with j in Ha by lia.
    rewrite Ha'. cbn [Z.eqb Pos.eqb]. congruence.
Qed.

(** C8, as the code has it.  The tone enhancer takes no contrast and no
    brightness: [enhanceDocument] fixes them at 1.3 and 15.  On a canvas with
    pixels, called with the size of the canvas, it keeps the size and sends
    every colour byte [v] to the byte of
    [min(255, max(0, (v - 128) * 1.3 + 128 + 15))], alpha staying as it is;
    this is not the identity: 128 becomes 143.  With contrast 1 and
    brightness 0 in place of the two constants the same loop would leave
    every buffer of bytes as it is, also when run twice. *)
Theorem enhanceDocument_tone_curve (ctx : Canvas) (data : list Z) :
  0 < cwidth ctx -> 0 < cheight ctx ->
  Z.of_nat (length (bitmap ctx)) = 4 * (cwidth ctx * cheight ctx) ->
  Forall isByte data ->
  (exists out,
     enhanceDocument ctx (inject_Z (cwidth ctx)) (inject_Z (cheight ctx))
     = Some out
     /\ cwidth out = cwidth ctx /\ cheight out = cheight ctx
     /\ length (bitmap out) = length (bitmap ctx)
     /\ forall j v, aget (bitmap ctx) j = Some v ->
          aget (bitmap out) j
          = Some (if j mod 4 =? 3 then v
                  else ToUint8Clamp
                         (Math_min 255
                            (Math_max 0 ((of_Z v - 128) * 1.3 + 128 + 15)))%float))
  /\ toneCurve contrast brightness 128 = 143
  /\ enhanceData 1 0 data = data
  /\ enhanceData 1 0 (enhanceData 1 0 data) = data.
Proof.
  intros Hw Hh Hlen Hbytes. split; [|split; [by vm_compute|split]].
  - rewrite (enhanceDocument_whole ctx) by (done || apply toLong_integer).
    eexists. split; [reflexivity|]. cbn [cwidth cheight bitmap].
    split; [done|]. split; [done|]. split.
    + unfold enhanceData.
      apply (for_invariant (fun d => length d = length (bitmap ctx))); [done|].
      intros i d _ Hd. cbv zeta. by rewrite !length_aset.
    + intros j v Hj. apply (enhanceData_get contrast brightness); [|done].
      rewrite Hlen. by rewrite Z.mul_comm, Z.mod_mul.
  - by apply enhanceData_neutral.
  - rewrite (enhanceData_neutral data Hbytes). by apply enhanceData_neutral.
Qed.

Lemma enhanceDocument_tone_curve_witness :
  let ctx := mkCanvas 2 1 [0; 128; 133; 255; 200; 100; 50; 7] in
  let data := [0; 128; 133; 255; 200; 100; 50; 255; 7; 8] in
  (exists out,
     enhanceDocument ctx (inject_Z (cwidth ctx)) (inject_Z (cheight ctx))
     = Some out
     /\ cwidth out = cwidth ctx /\ cheight out = cheight ctx
     /\ length (bitmap out) = length (bitmap ctx)
     /\ forall j v, aget (bitmap ctx) j = Some v ->
          aget (bitmap out) j
          = Some (if j mod 4 =? 3 then v
                  else ToUint8Clamp
                         (Math_min 255
                            (Math_max 0 ((of_Z v - 128) * 1.3 + 128 + 15)))%float))
  /\ toneCurve contrast brightness 128 = 143
  /\ enhanceData 1 0 data = data
  /\ enhanceData 1 0 (enhanceData 1 0 data) = data.
Proof.
  apply (enhanceDocument_tone_curve
           (mkCanvas 2 1 [0; 128; 133; 255; 200; 100; 50; 7])
           [0; 128; 133; 255; 200; 100; 50; 255; 7; 8]);
    first [ cbn [cwidth cheight]; lia | reflexivity
          | repeat constructor; unfold isByte; lia ].
Defined.

(** C8, as stated, fails: no caller can set contrast 1 and brightness 0, and
    the enhancer of the program is not the identity, neither applied once nor
    twice: on a canvas of one mid-grey pixel the byte 128 becomes 143, and
    then 162. *)
Lemma enhanceDocument_changes_grey :
  let grey := mkCanvas 1 1 [128; 128; 128; 255] in
  enhanceDocument grey 1 1 = Some (mkCanvas 1 1 [143; 143; 143; 255])
  /\ enhanceDocument (mkCanvas 1 1 [143; 143; 143; 255]) 1 1
     = Some (mkCanvas 1 1 [162; 162; 162; 255])
  /\ enhanceDocument grey 1 1 <> Some grey.
Proof. split; [|split]; vm_compute; (reflexivity || discriminate). Qed.

(** *** The rectified page *)

Lemma toneCurve_black : toneCurve contrast brightness 0 = 0.
Proof. vm_compute. reflexivity. Qed.

(** The page [cropAndCorrectDocument] returns: the tone loop run on the
    resampled 800 x 1131 buffer. *)
Lemma cropAndCorrectDocument_whole (canvas : Canvas) (corners : list Point)
    (c0 c1 c2 c3 : Point) :
  0 < cwidth canvas -> 0 < cheight canvas ->
  sortCornersForPerspective corners = Some [c0; c1; c2; c3] ->
  exists d,
    (forall j, 0 <= j < 4 * (cwidth canvas * cheight canvas) ->
       aget d j = Some (default 0 (aget (bitmap canvas) j)))
    /\ cropAndCorrectDocument canvas corners
       = Some (mkCanvas 800 1131
                 (enhanceData contrast brightness
                    (resampleQuad canvas d c0 c1 c2 c3 outputWidth outputHeight
                       (replicate (Z.to_nat (4 * 800 * 1131)) 0)))).
Proof.
  intros Hw Hh Hsort.
  destruct (getImageData_whole canvas Hw Hh) as (d & Hget & _ & Hd).
  exists d. split; [exact Hd|].
  unfold cropAndCorrectDocument, applyPerspectiveCorrection. cbv zeta.
  rewrite Hget, Hsort. unfold createImageData, createCanvas.
  rewrite toLong_integer, toLong_outputHeight. cbn [data width height].
  change (outputWidth <=? 0) with false. change (1131 <=? 0) with false.
  cbn [orb data width height]. unfold outputWidth at 1 2 3 4.
  set (dest := resampleQuad _ _ _ _ _ _ _ _ _).
  assert (length dest = Z.to_nat (4 * 800 * 1131)) as Hdest
    by (unfold dest; by rewrite length_resampleQuad, length_replicate).
  rewrite (putImageData_whole (mkCanvas 800 1131 _) dest);
    cbn [cwidth cheight bitmap]; [|lia| |].
  - rewrite (enhanceDocument_whole (mkCanvas 800 1131 dest));
      cbn [cwidth cheight bitmap]; [done| | |lia|lia|].
    + apply toLong_integer.
    + apply toLong_outputHeight.
    + rewrite Hdest. lia.
  - rewrite length_replicate. lia.
  - by rewrite length_replicate.
Qed.

(** Every byte of the page: the destination pixel [(x, y)] holds the
    enhanced source pixel its coordinate selects. *)
Lemma rectified_pixel (canvas : Canvas) (corners : list Point)
    (c0 c1 c2 c3 : Point) :
  0 < cwidth canvas -> 0 < cheight canvas ->
  sortCornersForPerspective corners = Some [c0; c1; c2; c3] ->
  exists out,
    cropAndCorrectDocument canvas corners = Some out
    /\ cwidth out = 800 /\ cheight out = 1131
    /\ forall x y k, 0 <= x < 800 -> 0 <= y < 1131 -> 0 <= k < 4 ->
         aget (bitmap out) ((y * 800 + x) * 4 + k)
         = Some (rectifiedByte canvas
                   (sourceCoordinate c0 c1 c2 c3 outputWidth outputHeight x y) k).
Proof.
  intros Hw Hh Hsort.
  destruct (cropAndCorrectDocument_whole canvas corners c0 c1 c2 c3 Hw Hh Hsort)
    as (d & Hd & ->).
  eexists. split; [reflexivity|]. split; [done|]. split; [done|].
  intros x y k Hx Hy Hk. cbn [bitmap].
  set (zeros := replicate (Z.to_nat (4 * 800 * 1131)) 0).
  set (dest := resampleQuad canvas d c0 c1 c2 c3 outputWidth outputHeight zeros).
  assert (length dest = Z.to_nat (4 * 800 * 1131)) as Hdest
    by (unfold dest, zeros; by rewrite length_resampleQuad, length_replicate).
  assert ((y * 800 + x) * 4 + k < 4 * 800 * 1131) as Hidx by lia.
  assert (((y * 800 + x) * 4 + k) mod 4 = k) as Hmod.
  { rewrite Z.add_comm, Z.mod_add by lia. apply Z.mod_small. lia. }
  assert (aget zeros ((y * 800 + x) * 4 + k) = Some 0) as Hzero
    by (apply aget_replicate; lia).
  pose proof (resampleQuad_get canvas d c0 c1 c2 c3 outputWidth outputHeight
                zeros x y k) as Hget.
  fold dest in Hget.
  replace ((y * outputWidth + x) * 4 + k) with ((y * 800 + x) * 4 + k) in Hget
    by reflexivity.
  rewrite Hzero in Hget.
  specialize (Hget Hx ltac:(rewrite Qceiling_outputHeight; lia) Hk
                ltac:(unfold zeros; rewrite length_replicate; lia)).
  assert (Z.of_nat (length dest) mod 4 = 0) as Hmul.
  { rewrite Hdest, Z2Nat.id by lia. by rewrite <- Z.mul_assoc, Z.mul_comm, Z.mod_mul. }
  unfold rectifiedByte.
  destruct (sourceCoordinate c0 c1 c2 c3 outputWidth outputHeight x y)
    as [[sx sy]|] eqn:Hsrc.
  - destruct (sampled canvas (sx, sy)) eqn:Hs.
    + rewrite (enhanceData_get _ _ _ _ _ Hmul Hget), Hmod. cbn [fst snd].
      destruct (Z.eqb_spec k 3) as [->|Hk3]; [done|].
      unfold sampled in Hs. cbn [fst snd] in Hs.
      apply andb_true_iff in Hs as [[[Ha Hb]%andb_true_iff Hc]%andb_true_iff Hd'].
      apply Z.leb_le in Ha, Hc. apply Z.ltb_lt in Hb, Hd'.
      rewrite Hd by nia. done.
    + rewrite (enhanceData_get _ _ _ _ _ Hmul Hget), Hmod.
      destruct (k =? 3); [done|]. by rewrite toneCurve_black.
  - rewrite (enhanceData_get _ _ _ _ _ Hmul Hget), Hmod.
    destruct (k =? 3); [done|]. by rewrite toneCurve_black.
Qed.

(** *** Where the page is sampled from *)

Lemma weights_width (x : Z) :
  0 <= x < outputWidth -> weightPair (of_Z x / of_Z outputWidth) = true.
Proof.
  intros Hx.
  assert (forallb (fun x => weightPair (of_Z x / of_Z outputWidth))
            (seqZ 0 outputWidth) = true) as Hall by (vm_compute; reflexivity).
  rewrite forallb_forall in Hall. apply Hall.
  apply list_elem_of_In, elem_of_seqZ. lia.
Qed.

Lemma weights_height (y : Z) :
  0 <= y < Qceiling (F2Q outputHeight) ->
  weightPair (of_Z y / outputHeight) = true.
Proof.
  rewrite Qceiling_outputHeight. intros Hy.
  assert (forallb (fun y => weightPair (of_Z y / outputHeight))
            (seqZ 0 1132) = true) as Hall by (vm_compute; reflexivity).
  rewrite forallb_forall in Hall. apply Hall.
  apply list_elem_of_In, elem_of_seqZ. lia.
Qed.

(** The source coordinate of a page pixel lies in the bounding box of the
    four corners. *)
Lemma sourceCoordinate_range (c0 c1 c2 c3 : Point) (lox hix loy hiy x y : Z) :
  Forall (fun c => lox <= px c <= hix /\ loy <= py c <= hiy) [c0; c1; c2; c3] ->
  - 2 ^ 31 <= lox -> hix <= 2 ^ 31 -> - 2 ^ 31 <= loy -> hiy <= 2 ^ 31 ->
  0 <= x < outputWidth -> 0 <= y < Qceiling (F2Q outputHeight) ->
  exists sx sy,
    sourceCoordinate c0 c1 c2 c3 outputWidth outputHeight x y = Some (sx, sy)
    /\ lox <= sx <= hix /\ loy <= sy <= hiy.
Proof.
  intros Hc Hlx Hhx Hly Hhy Hx Hy.
  apply Forall_cons in Hc as [[H0x H0y] Hc]. apply Forall_cons in Hc as [[H1x H1y] Hc].
  apply Forall_cons in Hc as [[H2x H2y] Hc]. apply Forall_cons in Hc as [[H3x H3y] _].
  pose proof (weights_width x Hx) as Hu. pose proof (weights_height y Hy) as Hv.
  assert (2 ^ 31 < 2 ^ 53) as Hpow by done.
  destruct (bilinear_range (of_Z (px c0)) (of_Z (px c1)) (of_Z (px c2))
              (of_Z (px c3)) (of_Z x / of_Z outputWidth) (of_Z y / outputHeight)
              (px c0) (px c1) (px c2) (px c3) lox hix)
    as (sx & Hsx & Hrx); try done; try (apply of_Z_int; lia).
  destruct (bilinear_range (of_Z (py c0)) (of_Z (py c1)) (of_Z (py c2))
              (of_Z (py c3)) (of_Z x / of_Z outputWidth) (of_Z y / outputHeight)
              (py c0) (py c1) (py c2) (py c3) loy hiy)
    as (sy & Hsy & Hry); try done; try (apply of_Z_int; lia).
  exists sx, sy. unfold sourceCoordinate. cbv zeta. by rewrite Hsx, Hsy.
Qed.

(** With its four corners in the frame, the page has no hole. *)
Lemma page_sampled_inside (canvas : Canvas) (corners : list Point) (x y : Z) :
  0 < cwidth canvas <= 2 ^ 31 -> 0 < cheight canvas <= 2 ^ 31 ->
  corners <> [] -> Forall (inBounds (cwidth canvas) (cheight canvas)) corners ->
  0 <= x < 800 -> 0 <= y < 1131 ->
  exists out c0 c1 c2 c3 sx sy,
    cropAndCorrectDocument canvas corners = Some out
    /\ sortCornersForPerspective corners = Some [c0; c1; c2; c3]
    /\ sourceCoordinate c0 c1 c2 c3 outputWidth outputHeight x y = Some (sx, sy)
    /\ inBounds (cwidth canvas) (cheight canvas) (mkPoint sx sy)
    /\ forall k, 0 <= k < 4 ->
         aget (bitmap out) ((y * 800 + x) * 4 + k)
         = Some (if k =? 3 then 255
                 else toneCurve contrast brightness
                        (default 0
                           (aget (bitmap canvas)
                              ((sy * cwidth canvas + sx) * 4 + k)))).
Proof.
  intros Hw Hh Hne Hin Hx Hy.
  destruct corners as [|q rest]; [done|].
  destruct (quad_members q rest) as (Htl & Htr & Hbr & Hbl).
  rewrite Forall_forall in Hin.
  set (c0 := foldl topLeftOf q rest) in *. set (c1 := foldl topRightOf q rest) in *.
  set (c2 := foldl bottomRightOf q rest) in *.
  set (c3 := foldl bottomLeftOf q rest) in *.
  assert (sortCornersForPerspective (q :: rest) = Some [c0; c1; c2; c3]) as Hsort
    by reflexivity.
  destruct (rectified_pixel canvas (q :: rest) c0 c1 c2 c3) as (out & Hout & _ & _ & Hpix);
    [lia|lia|done|].
  assert (- 2 ^ 31 <= 0) as Hneg by done.
  destruct (sourceCoordinate_range c0 c1 c2 c3 0 (cwidth canvas - 1)
              0 (cheight canvas - 1) x y) as (sx & sy & Hsrc & Hsx & Hsy);
    [|done|lia|done|lia|done|rewrite Qceiling_outputHeight; lia|].
  { assert (forall c, c ∈ q :: rest ->
              0 <= px c <= cwidth canvas - 1 /\ 0 <= py c <= cheight canvas - 1)
      as Hb by (intros c Hc; destruct (Hin c Hc); lia).
    repeat (apply Forall_cons; split; [by apply Hb|]). by apply Forall_nil. }
  exists out, c0, c1, c2, c3, sx, sy.
  split; [done|]. split; [done|]. split; [done|].
  split; [unfold inBounds; cbn [px py]; lia|].
  intros k Hk. rewrite (Hpix x y k Hx Hy Hk), Hsrc. unfold rectifiedByte, sampled.
  cbn [fst snd].
  destruct (Z.leb_spec 0 sx); [|lia]. destruct (Z.ltb_spec sx (cwidth canvas)); [|lia].
  destruct (Z.leb_spec 0 sy); [|lia]. destruct (Z.ltb_spec sy (cheight canvas)); [|lia].
  done.
Qed.

(** X19.  The page the rectifier returns for a frame with pixels has
    800 x 1131 pixels, and each pixel on its own holds what its source
    coordinate, blended and rounded in binary64, selects: the red, green and
    blue bytes of that pixel of the frame after the tone curve, with alpha
    255, when the coordinate is a pixel of the frame; transparent black when
    it is not. *)
Theorem rectified_page_pointwise (canvas : Canvas) (corners : list Point)
    (c0 c1 c2 c3 : Point) (x y k : Z) :
  0 < cwidth canvas -> 0 < cheight canvas ->
  sortCornersForPerspective corners = Some [c0; c1; c2; c3] ->
  0 <= x < 800 -> 0 <= y < 1131 -> 0 <= k < 4 ->
  exists out,
    cropAndCorrectDocument canvas corners = Some out
    /\ cwidth out = 800 /\ cheight out = 1131
    /\ aget (bitmap out) ((y * 800 + x) * 4 + k)
       = Some (rectifiedByte canvas
                 (sourceCoordinate c0 c1 c2 c3 outputWidth outputHeight x y) k).
Proof.
  intros Hw Hh Hsort Hx Hy Hk.
  destruct (rectified_pixel canvas corners c0 c1 c2 c3 Hw Hh Hsort)
    as (out & Hout & Hcw & Hch & Hpix).
  exists out. split; [done|]. split; [done|]. split; [done|]. by apply Hpix.
Qed.

Lemma rectified_page_pointwise_witness :
  let canvas := mkCanvas 2 2 [1; 2; 3; 255; 4; 5; 6; 255;
                              7; 8; 9; 255; 10; 11; 12; 255] in
  let c0 := mkPoint 0 0 in
  let c1 := mkPoint 1 0 in
  let c2 := mkPoint 1 1 in
  let c3 := mkPoint 0 1 in
  exists out,
    cropAndCorrectDocument canvas [c2; c0; c3; c1] = Some out
    /\ cwidth out = 800 /\ cheight out = 1131
    /\ aget (bitmap out) ((700 * 800 + 500) * 4 + 2)
       = Some (rectifiedByte canvas
                 (sourceCoordinate c0 c1 c2 c3 outputWidth outputHeight 500 700) 2).
Proof.
  apply (rectified_page_pointwise
           (mkCanvas 2 2 [1; 2; 3; 255; 4; 5; 6; 255;
                          7; 8; 9; 255; 10; 11; 12; 255])
           [mkPoint 1 1; mkPoint 0 0; mkPoint 0 1; mkPoint 1 0]
           (mkPoint 0 0) (mkPoint 1 0) (mkPoint 1 1) (mkPoint 0 1) 500 700 2);
    first [reflexivity | cbn [cwidth cheight]; lia].
Defined.

(** The blend at work: the page pixel (500, 700) of the unit square is taken
    from the source pixel (1, 1); and for the quadrilateral (8, 9), (15, 8),
    (16, 15), (9, 16) the blend of the page pixel (360, 396) falls just
    below 11.5 in binary64, so the pixel is taken from column 11. *)
Example sourceCoordinate_run :
  sourceCoordinate (mkPoint 0 0) (mkPoint 1 0) (mkPoint 1 1) (mkPoint 0 1)
    outputWidth outputHeight 500 700 = Some (1, 1)
  /\ sourceCoordinate (mkPoint 8 9) (mkPoint 15 8) (mkPoint 16 15) (mkPoint 9 16)
       outputWidth outputHeight 360 396 = Some (11, 11).
Proof. split; vm_compute; reflexivity. Qed.

(** C6, as the code has it.  On a frame with pixels, with the four corners
    equal to a point [p] whose coordinates are at most 2^31 in absolute
    value, rectification succeeds and returns the 800 x 1131 page; in every
    iteration of its loops the blended coordinate rounds to [p], and every
    pixel of the page holds what [p] selects: the red, green and blue bytes of
    the source pixel [p] after the tone curve, with alpha 255, when [p] is a
    pixel of the frame, and transparent black when it is not. *)
Theorem rectify_degenerate_quad
    (resample : Canvas -> Q -> Q -> Q -> Q -> Q -> Q -> Z -> Z -> Z -> Z)
    (canvas : Canvas) (p : Point) :
  0 < cwidth canvas -> 0 < cheight canvas ->
  Z.abs (px p) <= 2 ^ 31 -> Z.abs (py p) <= 2 ^ 31 ->
  exists out,
    rectify resample canvas (Some [p; p; p; p]) = Some out
    /\ cwidth out = 800 /\ cheight out = 1131
    /\ (forall x y,
          0 <= x < outputWidth -> 0 <= y < Qceiling (F2Q outputHeight) ->
          sourceCoordinate p p p p outputWidth outputHeight x y
          = Some (px p, py p))
    /\ (forall x y k,
          0 <= x < 800 -> 0 <= y < 1131 -> 0 <= k < 4 ->
          aget (bitmap out) ((y * 800 + x) * 4 + k)
          = Some (rectifiedByte canvas (Some (px p, py p)) k)).
Proof.
  intros Hw Hh Hpx Hpy.
  assert (forall x y,
            0 <= x < outputWidth -> 0 <= y < Qceiling (F2Q outputHeight) ->
            sourceCoordinate p p p p outputWidth outputHeight x y
            = Some (px p, py p)) as Hsrc.
  { intros x y Hx Hy.
    destruct (sourceCoordinate_range p p p p (px p) (px p) (py p) (py p) x y)
      as (sx & sy & -> & Hsx & Hsy); [|lia..|done|done|].
    - repeat (apply Forall_cons; split; [lia|]). by apply Forall_nil.
    - do 2 f_equal; lia. }
  destruct (rectified_pixel canvas [p; p; p; p] p p p p Hw Hh
              (sortCorners_degenerate p)) as (out & Hout & Hcw & Hch & Hpix).
  exists out. split; [exact Hout|]. split; [done|]. split; [done|].
  split; [exact Hsrc|].
  intros x y k Hx Hy Hk. rewrite (Hpix x y k Hx Hy Hk).
  by rewrite Hsrc by (unfold outputWidth; rewrite ?Qceiling_outputHeight; lia).
Qed.

Lemma rectify_degenerate_quad_witness :
  let canvas := mkCanvas 2 2 [1; 2; 3; 255; 4; 5; 6; 255;
                              7; 8; 9; 255; 10; 11; 12; 255] in
  let p := mkPoint 1 1 in
  exists out,
    rectify (fun _ _ _ _ _ _ _ _ _ _ => 0) canvas (Some [p; p; p; p]) = Some out
    /\ cwidth out = 800 /\ cheight out = 1131
    /\ (forall x y,
          0 <= x < outputWidth -> 0 <= y < Qceiling (F2Q outputHeight) ->
          sourceCoordinate p p p p outputWidth outputHeight x y
          = Some (px p, py p))
    /\ (forall x y k,
          0 <= x < 800 -> 0 <= y < 1131 -> 0 <= k < 4 ->
          aget (bitmap out) ((y * 800 + x) * 4 + k)
          = Some (rectifiedByte canvas (Some (px p, py p)) k)).
Proof.
  apply (rectify_degenerate_quad (fun _ _ _ _ _ _ _ _ _ _ => 0)
           (mkCanvas 2 2 [1; 2; 3; 255; 4; 5; 6; 255;
                          7; 8; 9; 255; 10; 11; 12; 255]) (mkPoint 1 1));
    cbn [cwidth cheight px py]; lia.
Defined.

(** C6, as stated, fails on a frame without pixels: [getImageData] throws,
    and [rectify] returns no page for the degenerate quadrilateral. *)
Lemma rectify_degenerate_empty_frame :
  let p := mkPoint 0 0 in
  rectify (fun _ _ _ _ _ _ _ _ _ _ => 0) (mkCanvas 0 0 []) (Some [p; p; p; p])
  = None.
Proof. apply rectify_empty. left. simpl. lia. Qed.

(** Far beyond any frame the blend loses the last bit: for the point
    (2^52 + 1, 0) the page pixel (163, 5) is mapped to the column next to
    it. *)
Example sourceCoordinate_far_point :
  let p := mkPoint 4503599627370497 0 in
  sourceCoordinate p p p p outputWidth outputHeight 163 5
  = Some (4503599627370498, 0).
Proof. vm_compute. reflexivity. Qed.

(** The bytes of a page pixel, run: on a frame whose pixel (1, 1) is
    (100, 110, 120), a page pixel mapped to (1, 1) holds (107, 120, 133, 255);
    one mapped to (2, 1), outside the frame, is transparent black. *)
Example rectifiedByte_run :
  let canvas := mkCanvas 2 2 [1; 2; 3; 255; 4; 5; 6; 255;
                              7; 8; 9; 255; 100; 110; 120; 255] in
  rectifiedByte canvas (Some (1, 1)) <$> [0; 1; 2; 3] = [107; 120; 133; 255]
  /\ rectifiedByte canvas (Some (2, 1)) <$> [0; 1; 2; 3] = [0; 0; 0; 0].
Proof. split; vm_compute; reflexivity. Qed.

(** X20.  When the four corners lie in a frame of at most 2^31 pixels in
    each direction, every pixel of the page the rectifier returns is sampled
    from a pixel of the frame: its source coordinate, blended and rounded in
    binary64, is inside the frame, it holds the red, green and blue bytes
    found there after the tone curve, and its alpha byte is 255, so the
    rectified page has no hole. *)
Theorem rectify_samples_inside (canvas : Canvas) (corners : list Point)
    (x y : Z) :
  0 < cwidth canvas <= 2 ^ 31 -> 0 < cheight canvas <= 2 ^ 31 ->
  corners <> [] -> Forall (inBounds (cwidth canvas) (cheight canvas)) corners ->
  0 <= x < 800 -> 0 <= y < 1131 ->
  exists out c0 c1 c2 c3 sx sy,
    cropAndCorrectDocument canvas corners = Some out
    /\ sortCornersForPerspective corners = Some [c0; c1; c2; c3]
    /\ sourceCoordinate c0 c1 c2 c3 outputWidth outputHeight x y = Some (sx, sy)
    /\ inBounds (cwidth canvas) (cheight canvas) (mkPoint sx sy)
    /\ forall k, 0 <= k < 4 ->
         aget (bitmap out) ((y * 800 + x) * 4 + k)
         = Some (if k =? 3 then 255
                 else toneCurve contrast brightness
                        (default 0
                           (aget (bitmap canvas)
                              ((sy * cwidth canvas + sx) * 4 + k)))).
Proof. apply page_sampled_inside. Qed.

Lemma rectify_samples_inside_witness :
  let canvas := mkCanvas 2 2 [1; 2; 3; 255; 4; 5; 6; 255;
                              7; 8; 9; 255; 10; 11; 12; 255] in
  let corners := [mkPoint 0 0; mkPoint 1 0; mkPoint 1 1; mkPoint 0 1] in
  exists out c0 c1 c2 c3 sx sy,
    cropAndCorrectDocument canvas corners = Some out
    /\ sortCornersForPerspective corners = Some [c0; c1; c2; c3]
    /\ sourceCoordinate c0 c1 c2 c3 outputWidth outputHeight 500 700
       = Some (sx, sy)
    /\ inBounds 2 2 (mkPoint sx sy)
    /\ forall k, 0 <= k < 4 ->
         aget (bitmap out) ((700 * 800 + 500) * 4 + k)
         = Some (if k =? 3 then 255
                 else toneCurve contrast brightness
                        (default 0
                           (aget (bitmap canvas) ((sy * 2 + sx) * 4 + k)))).
Proof.
  apply (rectify_samples_inside
           (mkCanvas 2 2 [1; 2; 3; 255; 4; 5; 6; 255;
                          7; 8; 9; 255; 10; 11; 12; 255])
           [mkPoint 0 0; mkPoint 1 0; mkPoint 1 1; mkPoint 0 1] 500 700);
    first [ cbn [cwidth cheight]; lia
          | done
          | repeat constructor; unfold inBounds; cbn [cwidth cheight px py]; lia ].
Defined.

(** ** The rectangle chosen among corner candidates *)

Lemma insertByZ_Permutation {A} (cmp : A -> A -> Z) (x : A) (l : list A) :
  DocumentScanner.insertByZ cmp x l ≡ₚ x :: l.
Proof.
  induction l as [|y l IH]; simpl; [done|].
  destruct (0 <? cmp x y); [|done].
  rewrite IH. apply Permutation_swap.
Qed.

Lemma sortByZ_Permutation {A} (cmp : A -> A -> Z) (l : list A) :
  DocumentScanner.sortByZ cmp l ≡ₚ l.
Proof.
  unfold DocumentScanner.sortByZ. induction l as [|x l IH]; simpl; [done|].
  by rewrite insertByZ_Permutation, IH.
Qed.

Lemma byRow_spec (a b : Point) :
  (DocumentScanner.byRow a b <= 0 <-> rowOrder a b)
  /\ (0 < DocumentScanner.byRow a b -> rowOrder b a).
Proof.
  unfold DocumentScanner.byRow, rowOrder.
  destruct (Z.eqb_spec (py a - py b) 0); lia.
Qed.

Lemma rowOrder_trans (a b c : Point) : rowOrder a b -> rowOrder b c -> rowOrder a c.
Proof. unfold rowOrder. lia. Qed.

Lemma rowOrder_refl (a : Point) : rowOrder a a.
Proof. unfold rowOrder. lia. Qed.

Lemma insertByZ_sorted (x : Point) (l : list Point) :
  StronglySorted rowOrder l ->
  StronglySorted rowOrder (DocumentScanner.insertByZ DocumentScanner.byRow x l).
Proof.
  induction l as [|y l IH]; intros Hl; simpl.
  { by repeat constructor. }
  apply StronglySorted_inv in Hl as [Hl Hy].
  destruct (Z.ltb_spec 0 (DocumentScanner.byRow x y)) as [Hgt|Hle].
  - constructor; [by apply IH|].
    rewrite insertByZ_Permutation. constructor; [|done].
    by apply byRow_spec.
  - apply byRow_spec in Hle. constructor; [by constructor|].
    constructor; [done|]. eapply Forall_impl; [exact Hy|].
    intros z Hz. by eapply rowOrder_trans.
Qed.

Lemma sortByZ_sorted (l : list Point) :
  StronglySorted rowOrder (DocumentScanner.sortByZ DocumentScanner.byRow l).
Proof.
  unfold DocumentScanner.sortByZ. induction l as [|x l IH]; simpl.
  - constructor.
  - by apply insertByZ_sorted.
Qed.

Lemma sorted_first (l : list Point) (a p : Point) :
  StronglySorted rowOrder l -> l !! 0%nat = Some a -> p ∈ l -> rowOrder a p.
Proof.
  destruct l as [|a' l]; [done|]. intros [_ Ha]%StronglySorted_inv [= ->].
  intros [->|Hp]%elem_of_cons; [apply rowOrder_refl|].
  rewrite Forall_forall in Ha. by apply Ha.
Qed.

Lemma sorted_last (l : list Point) (b p : Point) :
  StronglySorted rowOrder l -> l !! (length l - 1)%nat = Some b -> p ∈ l ->
  rowOrder p b.
Proof.
  intros Hl Hb Hp. rewrite Nat.sub_1_r, <- last_lookup in Hb.
  apply last_Some in Hb as [l' ->].
  apply elem_of_app in Hp as [Hp | ->%list_elem_of_singleton];
    [|apply rowOrder_refl].
  eapply StronglySorted_app_1_elem_of; [exact Hl|done|left].
Qed.

Lemma find_default_elem {A} (f : A -> bool) (l : list A) (d : A) :
  d ∈ l -> default d (find f l) ∈ l.
Proof.
  intros Hd. destruct (find f l) as [x|] eqn:Hx; [|done].
  apply find_some in Hx as [Hx _]. by apply list_elem_of_In.
Qed.

Lemma findBestRectangle_small (corners : list Point) :
  (length corners < 4)%nat ->
  DocumentScanner.findBestRectangle corners = DocumentScanner.Returned None.
Proof.
  intros Hlen. unfold DocumentScanner.findBestRectangle.
  by destruct (Nat.ltb_spec (length corners) 4); [|lia].
Qed.

Lemma findBestRectangle_odd (corners : list Point) :
  (4 <= length corners)%nat -> Nat.odd (length corners) = true ->
  DocumentScanner.findBestRectangle corners = DocumentScanner.Thrown.
Proof.
  intros Hlen Hodd. unfold DocumentScanner.findBestRectangle.
  destruct (Nat.ltb_spec (length corners) 4); [lia|].
  cbv zeta. rewrite (Permutation_length (sortByZ_Permutation _ corners)).
  rewrite Hodd. by repeat case_match.
Qed.

Lemma findBestRectangle_even (corners : list Point) :
  (4 <= length corners)%nat -> Nat.odd (length corners) = false ->
  exists topLeft topRight bottomRight bottomLeft,
    DocumentScanner.findBestRectangle corners
    = DocumentScanner.Returned
        (Some [topLeft; topRight; bottomRight; bottomLeft])
    /\ topLeft ∈ corners /\ topRight ∈ corners
    /\ bottomRight ∈ corners /\ bottomLeft ∈ corners
    /\ forall p, p ∈ corners -> rowOrder topLeft p /\ rowOrder p bottomRight.
Proof.
  intros Hlen Hodd. unfold DocumentScanner.findBestRectangle.
  destruct (Nat.ltb_spec (length corners) 4); [lia|].
  cbv zeta.
  pose proof (sortByZ_Permutation DocumentScanner.byRow corners) as Hperm.
  pose proof (sortByZ_sorted corners) as Hsorted.
  pose proof (Permutation_length Hperm) as Hn.
  set (sorted := DocumentScanner.sortByZ DocumentScanner.byRow corners) in *.
  assert (forall i, (i < length corners)%nat ->
            exists c, sorted !! i = Some c /\ c ∈ corners) as Hget.
  { intros i Hi. destruct (lookup_lt_is_Some_2 sorted i) as [c Hc]; [lia|].
    exists c. split; [done|]. rewrite <- Hperm.
    by eapply list_elem_of_lookup_2. }
  rewrite Hn, Hodd.
  destruct (Hget 0%nat) as (tl & Htl & Htl'); [lia|].
  destruct (Hget 1%nat) as (c1 & Hc1 & Hc1'); [lia|].
  destruct (Hget (length corners - 1)%nat) as (br & Hbr & Hbr'); [lia|].
  destruct (Hget (length corners - 2)%nat) as (c2 & Hc2 & Hc2'); [lia|].
  destruct (Hget (length corners / 2)%nat) as (mid & Hmid & _).
  { apply Nat.Div0.div_lt_upper_bound. lia. }
  rewrite Htl, Hc1, Hbr, Hc2, Hmid.
  eexists _, _, _, _. split; [reflexivity|].
  split; [done|]. split.
  { rewrite <- Hperm. apply find_default_elem. by rewrite Hperm. }
  split; [done|]. split.
  { rewrite <- Hperm. apply find_default_elem. by rewrite Hperm. }
  intros p Hp. rewrite <- Hperm in Hp. split.
  - by eapply sorted_first.
  - eapply sorted_last; [done| |done]. by rewrite Hn.
Qed.

(** X21.  Fewer than four corner candidates give no rectangle.  An odd
    number of candidates, four or more, makes the function throw: the middle
    element [corners[corners.length / 2]] it reads does not exist.  An even
    number gives four of the candidates, the first of them the first
    candidate in row order and the third the last one. *)
Theorem findBestRectangle_outcome (corners : list Point) :
  ((length corners < 4)%nat ->
   DocumentScanner.findBestRectangle corners = DocumentScanner.Returned None)
  /\ ((4 <= length corners)%nat -> Nat.odd (length corners) = true ->
      DocumentScanner.findBestRectangle corners = DocumentScanner.Thrown)
  /\ ((4 <= length corners)%nat -> Nat.odd (length corners) = false ->
      exists topLeft topRight bottomRight bottomLeft,
        DocumentScanner.findBestRectangle corners
        = DocumentScanner.Returned
            (Some [topLeft; topRight; bottomRight; bottomLeft])
        /\ topLeft ∈ corners /\ topRight ∈ corners
        /\ bottomRight ∈ corners /\ bottomLeft ∈ corners
        /\ forall p, p ∈ corners -> rowOrder topLeft p /\ rowOrder p bottomRight).
Proof.
  split; [apply findBestRectangle_small|].
  split; [apply findBestRectangle_odd | apply findBestRectangle_even].
Qed.

Example findBestRectangle_runs :
  DocumentScanner.findBestRectangle
    [mkPoint 5 5; mkPoint 1 1; mkPoint 5 1; mkPoint 1 5]
  = DocumentScanner.Returned
      (Some [mkPoint 1 1; mkPoint 5 1; mkPoint 5 5; mkPoint 1 5])
  /\ DocumentScanner.findBestRectangle
       [mkPoint 5 5; mkPoint 1 1; mkPoint 5 1; mkPoint 1 5; mkPoint 3 3]
     = DocumentScanner.Thrown.
Proof. split; vm_compute; reflexivity. Qed.

(** ** The scan of the second detector *)

Lemma findRectangleAt_thrown (edges : list Z) (w h x y : Z) :
  DocumentScanner.findRectangleAt edges w h x y = DocumentScanner.Thrown
  <-> (4 <= length (DocumentScanner.cornerCandidates edges w h x y))%nat
      /\ Nat.odd (length (DocumentScanner.cornerCandidates edges w h x y)) = true.
Proof.
  unfold DocumentScanner.findRectangleAt. cbv zeta.
  set (corners := DocumentScanner.cornerCandidates edges w h x y).
  destruct (Nat.leb_spec 4 (length corners)) as [Hge|Hlt].
  - destruct (Nat.odd (length corners)) eqn:Hodd.
    + rewrite findBestRectangle_odd by done. tauto.
    + destruct (findBestRectangle_even corners Hge Hodd)
        as (? & ? & ? & ? & -> & _).
      split; [done|]. by intros [_ ?].
  - split; [done|]. lia.
Qed.

Lemma cornerCandidates_spec (edges : list Z) (w h x y : Z) (p : Point) :
  p ∈ DocumentScanner.cornerCandidates edges w h x y ->
  inBounds w h p
  /\ DocumentScanner.isEdge edges (pixelIndex w p) = true
  /\ DocumentScanner.isCornerPoint edges w h (px p) (py p) = true.
Proof.
  unfold DocumentScanner.cornerCandidates. cbv zeta.
  apply (for_invariant (fun corners => p ∈ corners -> _)).
  { by intros ?%elem_of_nil. }
  intros y' corners Hy' Hc. apply for_invariant; [done|].
  intros x' corners' Hx' Hc'.
  apply elem_of_range1 in Hy', Hx'.
  destruct (DocumentScanner.isEdge edges (y' * w + x')) eqn:He; [|done].
  destruct (DocumentScanner.isCornerPoint edges w h x' y') eqn:Hcp; [|done].
  intros [Hp | ->%list_elem_of_singleton]%elem_of_app; [by apply Hc'|].
  unfold inBounds, pixelIndex. cbn [px py]. split; [lia|done].
Qed.

Lemma findRectangleAt_returned (edges : list Z) (w h x y : Z)
    (rect : list Point) :
  DocumentScanner.findRectangleAt edges w h x y
  = DocumentScanner.Returned (Some rect) ->
  length rect = 4%nat
  /\ Forall (fun p => p ∈ DocumentScanner.cornerCandidates edges w h x y) rect.
Proof.
  unfold DocumentScanner.findRectangleAt. cbv zeta.
  set (corners := DocumentScanner.cornerCandidates edges w h x y).
  destruct (Nat.leb_spec 4 (length corners)) as [Hge|Hlt]; [|done].
  destruct (Nat.odd (length corners)) eqn:Hodd.
  - by rewrite findBestRectangle_odd.
  - destruct (findBestRectangle_even corners Hge Hodd)
      as (tl & tr & br & bl & -> & Htl & Htr & Hbr & Hbl & _).
    intros [= <-]. split; [done|]. by repeat constructor.
Qed.

Lemma onScanGrid_range (size k : Z) :
  k ∈ range 0 (size - 100) 20 <-> onScanGrid size k.
Proof.
  rewrite elem_of_range by lia. unfold onScanGrid. split.
  - intros (j & Hj & -> & Hlt). split; [lia|].
    replace (0 + 20 * j) with (j * 20) by lia. apply Z_mod_mult.
  - intros [Hk Hmod]. exists (k / 20).
    pose proof (Z.div_mod k 20 ltac:(lia)).
    split; [apply Z.div_pos; lia|]. lia.
Qed.

Section ScanLemmas.
Variables (edges : list Z) (w h : Z).

Let step (acc : DocumentScanner.Outcome (list (list Point))) (yx : Z * Z) :=
  DocumentScanner.scanAt edges w h yx.2 yx.1 acc.

Lemma scan_thrown (l : list (Z * Z)) :
  forall acc,
    foldl step acc l = DocumentScanner.Thrown
    <-> acc = DocumentScanner.Thrown
        \/ exists yx, yx ∈ l
             /\ DocumentScanner.findRectangleAt edges w h yx.2 yx.1
                = DocumentScanner.Thrown.
Proof.
  induction l as [|yx l IH]; intros acc.
  { simpl. split; [by left|]. by intros [?|(? & ?%elem_of_nil & _)]. }
  simpl. rewrite IH. unfold step at 1, DocumentScanner.scanAt. cbv zeta.
  split.
  - intros [Hacc | (yx' & Hin & Hthrow)].
    + destruct acc as [rects|]; [|by left]. right.
      exists yx. split; [left|].
      destruct (DocumentScanner.findRectangleAt edges w h yx.2 yx.1)
        as [[rect|]|]; [|done..].
      by destruct (_ <? _)%float.
    + right. exists yx'. split; [by right|done].
  - intros [-> | (yx' & [-> | Hin]%elem_of_cons & Hthrow)].
    + by left.
    + left. rewrite Hthrow. by destruct acc.
    + right. by exists yx'.
Qed.

Lemma scan_returned (l : list (Z * Z)) (P : list Point -> Prop) :
  (forall yx rect,
     yx ∈ l ->
     DocumentScanner.findRectangleAt edges w h yx.2 yx.1
     = DocumentScanner.Returned (Some rect) ->
     (of_Z (w * h) * 0.1 <? DocumentScanner.calculateArea rect)%float = true ->
     P rect) ->
  forall acc rects,
    Forall P acc ->
    foldl step (DocumentScanner.Returned acc) l = DocumentScanner.Returned rects ->
    Forall P rects.
Proof.
  induction l as [|yx l IH]; intros HP acc rects Hacc.
  { simpl. by intros [= <-]. }
  cbn [foldl].
  assert (forall yx' rect,
            yx' ∈ l ->
            DocumentScanner.findRectangleAt edges w h yx'.2 yx'.1
            = DocumentScanner.Returned (Some rect) ->
            (of_Z (w * h) * 0.1 <? DocumentScanner.calculateArea rect)%float
            = true -> P rect) as HP'.
  { intros yx' rect Hin. apply HP. by right. }
  destruct (step (DocumentScanner.Returned acc) yx) as [acc'|] eqn:Hstep.
  - apply IH; [done|].
    unfold step, DocumentScanner.scanAt in Hstep. cbv zeta in Hstep.
    destruct (DocumentScanner.findRectangleAt edges w h yx.2 yx.1)
      as [[rect|]|] eqn:Hrect; [|by injection Hstep as <-|done].
    destruct (_ <? _)%float eqn:Harea; injection Hstep as <-; [|done].
    apply Forall_app. split; [done|]. apply Forall_singleton.
    eapply HP; [left|done..].
  - intros Hthrown.
    assert (foldl step DocumentScanner.Thrown l = DocumentScanner.Thrown) as Ht.
    { apply scan_thrown. by left. }
    congruence.
Qed.

End ScanLemmas.

(** X22.  The scan of the second detector throws exactly when, around some
    start point of its grid (0, 20, 40, ... below width - 100 and
    height - 100), the number of corner candidates is odd and at least 4. *)
Theorem findRectangularContours_throws (edges : list Z) (w h : Z) :
  DocumentScanner.findRectangularContours edges w h = DocumentScanner.Thrown
  <-> exists x y,
        onScanGrid w x /\ onScanGrid h y
        /\ (4 <= length (DocumentScanner.cornerCandidates edges w h x y))%nat
        /\ Nat.odd (length (DocumentScanner.cornerCandidates edges w h x y))
           = true.
Proof.
  unfold DocumentScanner.findRectangularContours. cbv zeta.
  rewrite for_for.
  change (foldl _ (DocumentScanner.Returned [])
            (range 0 (h - 100) 20 ≫= fun y => pair y <$> range 0 (w - 100) 20))
    with (foldl (fun acc (yx : Z * Z) =>
                   DocumentScanner.scanAt edges w h yx.2 yx.1 acc)
                (DocumentScanner.Returned [])
                (range 0 (h - 100) 20 ≫= fun y => pair y <$> range 0 (w - 100) 20)).
  pose proof (scan_thrown edges w h
                (range 0 (h - 100) 20 ≫= fun y => pair y <$> range 0 (w - 100) 20)
                (DocumentScanner.Returned [])) as Hscan.
  cbv zeta in Hscan.
  destruct (foldl _ _ _) as [rects|].
  - split; [done|]. intros (x & y & Hx & Hy & Hodd).
    apply proj2 in Hscan. discriminate Hscan. right.
    exists (y, x). split.
    + apply elem_of_pairs. by rewrite !onScanGrid_range.
    + by apply findRectangleAt_thrown.
  - split; [|done]. intros _.
    destruct (proj1 Hscan eq_refl) as [? | ([y x] & Hin & Hthrow)]; [done|].
    apply elem_of_pairs in Hin as [Hy Hx]. apply onScanGrid_range in Hy, Hx.
    exists x, y. split; [done|]. split; [done|].
    by apply findRectangleAt_thrown.
Qed.

(** X23.  When the scan of the second detector returns, every rectangle it
    returns has four corners and an area above 10% of the image, and each
    corner is a corner candidate: a pixel of the image that is on in the edge
    mask and has at least three on pixels in the 7 x 7 window around it. *)
Theorem findRectangularContours_returns (edges : list Z) (w h : Z)
    (rectangles : list (list Point)) :
  DocumentScanner.findRectangularContours edges w h
  = DocumentScanner.Returned rectangles ->
  Forall (fun rect =>
    length rect = 4%nat
    /\ (of_Z (w * h) * 0.1 <? DocumentScanner.calculateArea rect)%float = true
    /\ Forall (fun p =>
         inBounds w h p
         /\ DocumentScanner.isEdge edges (pixelIndex w p) = true
         /\ DocumentScanner.isCornerPoint edges w h (px p) (py p) = true) rect)
    rectangles.
Proof.
  unfold DocumentScanner.findRectangularContours. cbv zeta.
  rewrite for_for.
  change (foldl _ (DocumentScanner.Returned [])
            (range 0 (h - 100) 20 ≫= fun y => pair y <$> range 0 (w - 100) 20))
    with (foldl (fun acc (yx : Z * Z) =>
                   DocumentScanner.scanAt edges w h yx.2 yx.1 acc)
                (DocumentScanner.Returned [])
                (range 0 (h - 100) 20 ≫= fun y => pair y <$> range 0 (w - 100) 20)).
  destruct (foldl _ _ _) as [rects|] eqn:Hscan; [|done].
  intros [= <-]. rewrite sortBy_Permutation.
  eapply (scan_returned edges w h); [|constructor|exact Hscan].
  intros [y x] rect _ Hrect Harea. cbn [fst snd] in Hrect.
  apply findRectangleAt_returned in Hrect as [Hfour Hall].
  split; [done|]. split; [done|].
  eapply Forall_impl; [exact Hall|]. intros p Hp.
  exact (cornerCandidates_spec edges w h x y p Hp).
Qed.

Lemma findRectangularContours_returns_witness :
  let edges :=
    dotsMask 101 [mkPoint 5 5; mkPoint 5 6; mkPoint 5 7;
                  mkPoint 45 5; mkPoint 45 6; mkPoint 45 7;
                  mkPoint 5 43; mkPoint 5 44; mkPoint 5 45;
                  mkPoint 45 43; mkPoint 45 44; mkPoint 45 45] in
  Forall (fun rect =>
    length rect = 4%nat
    /\ (of_Z (101 * 101) * 0.1 <? DocumentScanner.calculateArea rect)%float = true
    /\ Forall (fun p =>
         inBounds 101 101 p
         /\ DocumentScanner.isEdge edges (pixelIndex 101 p) = true
         /\ DocumentScanner.isCornerPoint edges 101 101 (px p) (py p) = true) rect)
    [[mkPoint 5 5; mkPoint 45 5; mkPoint 45 45; mkPoint 5 44]].
Proof.
  apply (findRectangularContours_returns
           (dotsMask 101 [mkPoint 5 5; mkPoint 5 6; mkPoint 5 7;
                          mkPoint 45 5; mkPoint 45 6; mkPoint 45 7;
                          mkPoint 5 43; mkPoint 5 44; mkPoint 5 45;
                          mkPoint 45 43; mkPoint 45 44; mkPoint 45 45])
           101 101).
  vm_compute. reflexivity.
Defined.

(** X24.  On a canvas without pixels the second detector throws: its
    [getImageData] raises an IndexSizeError.  On a canvas with pixels that is
    at most 100 pixels wide or at most 100 pixels high it scans no start
    point: it returns [null] whatever the frame shows. *)
Theorem detect_nothing_in_small_frame (canvas : Canvas) :
  (cwidth canvas <= 0 \/ cheight canvas <= 0 ->
   DocumentScanner.detectDocumentEdges canvas = DocumentScanner.Thrown)
  /\ (0 < cwidth canvas -> 0 < cheight canvas ->
      cwidth canvas <= 100 \/ cheight canvas <= 100 ->
      DocumentScanner.detectDocumentEdges canvas = DocumentScanner.Returned None).
Proof.
  unfold DocumentScanner.detectDocumentEdges. split.
  - intros Hempty.
    by rewrite getImageData_None by (by rewrite !toLong_integer).
  - intros Hw Hh Hsmall.
    destruct (getImageData_Some canvas (inject_Z (cwidth canvas))
                (inject_Z (cheight canvas))) as [d ->];
      [by rewrite toLong_integer..|].
    cbv zeta. set (edges := sobelEdgeDetection _ _ _).
    unfold DocumentScanner.findRectangularContours. cbv zeta.
    rewrite for_unchanged; [done|].
    intros y Hy. apply for_unchanged. intros x Hx.
    apply onScanGrid_range in Hy as [Hy _], Hx as [Hx _]. lia.
Qed.

(** The two outcomes, run: a canvas without pixels, and one of 2 x 2. *)
Example detect_small_frames_run :
  DocumentScanner.detectDocumentEdges (mkCanvas 0 0 []) = DocumentScanner.Thrown
  /\ DocumentScanner.detectDocumentEdges
       (mkCanvas 2 2 [1; 2; 3; 255; 4; 5; 6; 255; 7; 8; 9; 255; 10; 11; 12; 255])
     = DocumentScanner.Returned None.
Proof. split; vm_compute; reflexivity. Qed.

(** ** Flat regions *)

Lemma sobel_interior (data : list Z) (w h x y : Z) :
  1 <= x < w - 1 -> 1 <= y < h - 1 -> y * w + x < Z.of_nat (length data) ->
  aget (sobelEdgeDetection data w h) (y * w + x) = Some (sobelAt data w x y).
Proof.
  intros Hx Hy Hlen. unfold sobelEdgeDetection.
  apply (raster_interior (fun x y => sobelAt data w x y)); [done..|].
  by rewrite length_replicate.
Qed.

(** X25.  At an interior pixel whose 3 x 3 neighbourhood holds one byte [c]
    the blur returns [c] and the edge detector returns 0. *)
Theorem flat_neighbourhood (data : list Z) (w h x y c : Z) :
  isByte c -> 1 <= x < w - 1 -> 1 <= y < h - 1 ->
  (forall dx dy, -1 <= dx <= 1 -> -1 <= dy <= 1 ->
     aget data ((y + dy) * w + (x + dx)) = Some c) ->
  aget (gaussianBlur data w h) (y * w + x) = Some c
  /\ aget (sobelEdgeDetection data w h) (y * w + x) = Some 0.
Proof.
  intros Hc Hx Hy Hflat.
  assert (y * w + x < Z.of_nat (length data)) as Hlen.
  { specialize (Hflat 0 0 ltac:(lia) ltac:(lia)).
    rewrite !Z.add_0_r in Hflat. apply aget_Some_lt in Hflat. lia. }
  split.
  - rewrite gaussianBlur_interior by done. f_equal. by apply blurAt_flat.
  - rewrite sobel_interior by done. f_equal. by eapply sobelAt_flat.
Qed.

Lemma flat_neighbourhood_witness :
  aget (gaussianBlur (replicate 9 7) 3 3) (1 * 3 + 1) = Some 7
  /\ aget (sobelEdgeDetection (replicate 9 7) 3 3) (1 * 3 + 1) = Some 0.
Proof.
  apply (flat_neighbourhood (replicate 9 7) 3 3 1 1 7);
    [unfold isByte; lia | lia | lia |].
  intros dx dy Hdx Hdy. apply (aget_replicate 9). lia.
Defined.

(** ** From detection to rectification *)

Section PipelineLemmas.
Variable Math_atan2 : float -> float -> float.
Variable Math_acos : float -> float.

(** X26.  A corner fit is made of exactly four points of its contour, which
    has at least four points: the test [corners.length === 4] of the
    detection pass never fails on a fit. *)
Theorem findRectangleCorners_four (contour corners : list Point) :
  findRectangleCorners Math_atan2 contour = Some corners ->
  length corners = 4%nat
  /\ (4 <= length contour)%nat
  /\ forall p, p ∈ corners -> p ∈ contour.
Proof.
  intros Hfit. split; [|split].
  - unfold findRectangleCorners in Hfit.
    destruct (length contour <? 4)%nat; [done|].
    destruct (Nat.ltb_spec (length (convexHull Math_atan2 contour)) 4)
      as [|Hhull]; [done|].
    injection Hfit as <-. unfold approximateToQuadrilateral.
    destruct (Nat.leb_spec (length (convexHull Math_atan2 contour)) 4);
      [lia|].
    destruct (convexHull Math_atan2 contour) as [|q rest];
      [simpl in *; lia | done].
  - unfold findRectangleCorners in Hfit.
    by destruct (Nat.ltb_spec (length contour) 4).
  - intros p. by apply (findRectangleCorners_subset Math_atan2 contour corners).
Qed.

(** X27.  When a detection on the pixels of a canvas of at most 2^31 pixels
    in each direction returns corners, the rectifier returns the page for
    them, and every pixel of the 800 x 1131 page is sampled from a pixel of
    the canvas: its source coordinate, blended and rounded in binary64, is
    inside the canvas, and it holds the red, green and blue bytes found
    there after the tone curve, with alpha 255. *)
Theorem detected_page_sampled_inside (imageData : ImageData) (canvas : Canvas)
    (corners : list Point) (x y : Z) :
  cwidth canvas <= 2 ^ 31 -> cheight canvas <= 2 ^ 31 ->
  getImageData canvas (inject_Z (cwidth canvas)) (inject_Z (cheight canvas))
  = Some imageData ->
  detectDocumentEdges Math_atan2 Math_acos imageData = Some corners ->
  0 <= x < 800 -> 0 <= y < 1131 ->
  exists out c0 c1 c2 c3 sx sy,
    cropAndCorrectDocument canvas corners = Some out
    /\ sortCornersForPerspective corners = Some [c0; c1; c2; c3]
    /\ sourceCoordinate c0 c1 c2 c3 outputWidth outputHeight x y = Some (sx, sy)
    /\ inBounds (cwidth canvas) (cheight canvas) (mkPoint sx sy)
    /\ forall k, 0 <= k < 4 ->
         aget (bitmap out) ((y * 800 + x) * 4 + k)
         = Some (if k =? 3 then 255
                 else toneCurve contrast brightness
                        (default 0
                           (aget (bitmap canvas)
                              ((sy * cwidth canvas + sx) * 4 + k)))).
Proof.
  intros Hwb Hhb Hget Hdetect Hx Hy.
  assert (0 < cwidth canvas /\ 0 < cheight canvas
          /\ width imageData = cwidth canvas
          /\ height imageData = cheight canvas) as (Hw & Hh & Hiw & Hih).
  { unfold getImageData in Hget. rewrite !toLong_integer in Hget.
    destruct (Z.leb_spec (cwidth canvas) 0); [done|].
    destruct (Z.leb_spec (cheight canvas) 0); [done|].
    cbn [orb] in Hget. by injection Hget as <-. }
  assert (length corners = 4%nat
          /\ Forall (inBounds (cwidth canvas) (cheight canvas)) corners)
    as [Hfour Hin].
  { unfold detectDocumentEdges, findDocumentRectangles in Hdetect.
    cbv zeta in Hdetect.
    apply head_Some_elem_of, sortBy_elem in Hdetect.
    destruct (scanSeeds_inv Math_atan2 Math_acos
                (sobelEdgeDetection
                   (gaussianBlur (convertToGrayscale imageData)
                      (width imageData) (height imageData))
                   (width imageData) (height imageData))
                (width imageData) (height imageData)) as (_ & _ & Hrect).
    rewrite Forall_forall in Hrect. rewrite <- Hiw, <- Hih. by apply Hrect. }
  apply page_sampled_inside; [lia|lia| |done..].
  by destruct corners.
Qed.

End PipelineLemmas.

Lemma findRectangleCorners_four_witness :
  length [mkPoint 0 4; mkPoint 0 0; mkPoint 4 0; mkPoint 4 4] = 4%nat
  /\ (4 <= length [mkPoint 0 0; mkPoint 4 0; mkPoint 4 4; mkPoint 0 4;
                   mkPoint 2 2])%nat
  /\ forall p,
       p ∈ [mkPoint 0 4; mkPoint 0 0; mkPoint 4 0; mkPoint 4 4] ->
       p ∈ [mkPoint 0 0; mkPoint 4 0; mkPoint 4 4; mkPoint 0 4; mkPoint 2 2].
Proof.
  apply (findRectangleCorners_four MathRef.atan2).
  vm_compute. reflexivity.
Defined.

Lemma detected_page_sampled_inside_witness :
  let canvas := mkCanvas 21 21 (data (squareFrame 21 10 14)) in
  let corners := [mkPoint 8 9; mkPoint 15 8; mkPoint 16 15; mkPoint 9 16] in
  exists out c0 c1 c2 c3 sx sy,
    cropAndCorrectDocument canvas corners = Some out
    /\ sortCornersForPerspective corners = Some [c0; c1; c2; c3]
    /\ sourceCoordinate c0 c1 c2 c3 outputWidth outputHeight 360 396
       = Some (sx, sy)
    /\ inBounds 21 21 (mkPoint sx sy)
    /\ forall k, 0 <= k < 4 ->
         aget (bitmap out) ((396 * 800 + 360) * 4 + k)
         = Some (if k =? 3 then 255
                 else toneCurve contrast brightness
                        (default 0
                           (aget (bitmap canvas) ((sy * 21 + sx) * 4 + k)))).
Proof.
  apply (detected_page_sampled_inside MathRef.atan2 MathRef.acos
           (squareFrame 21 10 14)
           (mkCanvas 21 21 (data (squareFrame 21 10 14))));
    first [ cbn [cwidth cheight]; lia | vm_compute; reflexivity ].
Defined.
